(** * Sudoku: a shallow embedding of the constraint-propagation solver

    The development follows [sudoku.py]: the class [Cell], the class
    [Sudoku] with its views of the grid ([line], [column], [square],
    [neighbors]), the propagation step [propagate], the worklist closure
    [set_values], the seeding [grid_parser], the two techniques
    [find_unique] and [find_pairs], and the driver [solve].

    Python objects are shared and mutated in place.  A [Cell] object lives
    in [internal_grid] for the whole life of a grid, so a reference to a
    cell is modelled by its position in that list and every method that
    mutates cells takes the grid and returns the new grid.  Sets of cells
    (the worklists) are finite sets of positions.

    The last parts follow [string_line] of [tools.py], which reads a
    grid from a string, and the two [__str__] methods of [sudoku.py],
    which print one. *)

From Stdlib Require Import ZArith Lia Ascii String DecimalString.
From stdpp Require Import base gmap sets list strings.

#[local] Set Warnings "-clear-no-such-hyp".

Open Scope Z_scope.

(** ** class Cell *)

Record Cell := mkCell {
  idnum : nat;
  value : Z;
  domain : gset Z;
  locked : bool
}.

#[global] Instance Cell_eq_dec : EqDecision Cell.
Proof. solve_decision. Defined.

Abbreviation Grid := (list Cell).

(** [self.domain = {1, ..., 9}] *)
Definition full_domain : gset Z := list_to_set [1; 2; 3; 4; 5; 6; 7; 8; 9].

(** [Cell.__init__] *)
Definition new_cell (i : nat) : Cell :=
  {| idnum := i; value := 0; domain := full_domain; locked := false |}.

(** [Cell.line], [Cell.column], [Cell.square] *)
Definition cell_line (c : Cell) : nat := (idnum c / 9)%nat.
Definition cell_column (c : Cell) : nat := (idnum c mod 9)%nat.
Definition cell_square (c : Cell) : nat :=
  (cell_line c / 3 * 3 + cell_column c / 3)%nat.

Definition set_domain (c : Cell) (d : gset Z) : Cell :=
  {| idnum := idnum c; value := value c; domain := d; locked := locked c |}.

(** [Cell.remove_value] *)
Definition remove_value (c : Cell) (v : Z) : Cell * bool :=
  if decide (v ∈ domain c) then (set_domain c (domain c ∖ {[v]}), true)
  else (c, false).

(** [Cell.update_value]: when the domain has exactly one element,
    [self.domain.pop()] takes that element OUT of the domain and gives it
    to [value]; the cell is locked.  There is no test of [locked]. *)
Definition update_value (c : Cell) : Cell * bool :=
  match elements (domain c) with
  | [v] => ({| idnum := idnum c; value := v; domain := ∅; locked := true |}, true)
  | _ => (c, false)
  end.

(** [Cell.update_domain] and [Cell.reduce_domain] *)
Definition update_domain (c : Cell) (values : list Z) : Cell * bool :=
  let d := domain c ∩ list_to_set values in
  (set_domain c d, negb (size (domain c) =? size d)%nat).

Definition reduce_domain (c : Cell) (values : list Z) : Cell * bool :=
  let d := domain c ∖ list_to_set values in
  (set_domain c d, negb (size (domain c) =? size d)%nat).

(** ** class Sudoku: the grid and its views *)

(** [Sudoku.reset] *)
Definition reset : Grid := new_cell <$> seq 0 81.

(** The cells of the grid that satisfy a test, in grid order, as
    references (positions in [internal_grid]). *)
Definition cells_where (P : Cell → bool) (g : Grid) : list nat :=
  filter (λ p, from_option P false (g !! p)) (seq 0 (length g)).

(** [Sudoku.line], [Sudoku.column], [Sudoku.square] *)
Definition line (g : Grid) (i : nat) : list nat :=
  cells_where (λ c, Nat.eqb i (cell_line c)) g.
Definition column (g : Grid) (i : nat) : list nat :=
  cells_where (λ c, Nat.eqb i (cell_column c)) g.
Definition square (g : Grid) (i : nat) : list nat :=
  cells_where (λ c, Nat.eqb (cell_square c) i) g.

(** [Sudoku.neighbors]: [list(set(line_cells + square_cells + column_cells))].
    The cell itself belongs to each of the three lists and is not taken
    out.  The order of the resulting list is the one of the set. *)
Definition neighbors (g : Grid) (c : nat) : list nat :=
  match g !! c with
  | Some cell =>
      elements (list_to_set (line g (cell_line cell) ++
                             square g (cell_square cell) ++
                             column g (cell_column cell)) : gset nat)
  | None => []
  end.

(** One turn of the loop of [propagate] on [neighbor], for the value [v]
    of the propagated cell. *)
Definition propagate_step (v : Z) (acc : Grid * gset nat) (n : nat)
  : Grid * gset nat :=
  match acc.1 !! n with
  | Some nc =>
      if locked nc then acc
      else if decide (v ∈ domain nc) then
        let nc' := set_domain nc (domain nc ∖ {[v]}) in
        (<[n := nc']> acc.1,
         if decide (size (domain nc') = 1%nat) then {[n]} ∪ acc.2 else acc.2)
      else acc
  | None => acc
  end.

(** [Sudoku.propagate] *)
Definition propagate (g : Grid) (c : nat) : Grid * gset nat :=
  match g !! c with
  | Some cell => foldl (propagate_step (value cell)) (g, ∅) (neighbors g c)
  | None => (g, ∅)
  end.

(** The number of candidates left in the whole grid. *)
Definition candidates_left (g : Grid) : nat :=
  sum_list ((λ c, size (domain c)) <$> g).

(** [cell.update_value()] on the cell object at position [c]. *)
Definition cell_update_value (g : Grid) (c : nat) : Grid * bool :=
  match g !! c with
  | Some cell => (<[c := (update_value cell).1]> g, (update_value cell).2)
  | None => (g, false)
  end.

(** The seed handed to [grid_parser]: a list of integers, or a list of
    lists of integers. *)
Inductive seed :=
  | Flat (l : list Z)
  | Nested (rows : list (list Z)).

(** [enumerate] *)
Definition enumerate {A} (l : list A) : list (nat * A) := imap pair l.

(** [[input_list[i:i+9] for i in range(0, 81, 9)]] for a list of integers;
    a list of lists is taken as it is. *)
Definition seed_rows (s : seed) : list (list Z) :=
  match s with
  | Flat l => (λ i, take 9 (drop i l)) <$> [0; 9; 18; 27; 36; 45; 54; 63; 72]%nat
  | Nested rows => rows
  end.

(** The body of the inner loop of [grid_parser] once the cell at position
    [p] is in hand.  The set returned by [propagate] goes to [todo], which
    [grid_parser] never reads. *)
Definition parse_clue (g : Grid) (p : nat) (v : Z) : Grid :=
  match g !! p with
  | Some cell =>
      if decide (0 < v ≤ 9) then
        if locked cell then g
        else if decide (v ∈ domain cell) then
          (propagate
             (<[p := {| idnum := idnum cell; value := v;
                        domain := {[v]}; locked := true |}]> g) p).1
        else g
      else g
  | None => g
  end.

(** [self.internal_grid[i * 9 + j]] raises IndexError out of range: the
    result is [None] from there on. *)
Definition parse_at (i : nat) (acc : option Grid) (jv : nat * Z) : option Grid :=
  g ← acc;
  if decide (i * 9 + jv.1 < length g)%nat then Some (parse_clue g (i * 9 + jv.1) jv.2)
  else None.

Definition parse_row (acc : option Grid) (row : nat * list Z) : option Grid :=
  foldl (parse_at row.1) acc (enumerate row.2).

(** [Sudoku.grid_parser] *)
Definition grid_parser (s : seed) : option Grid :=
  foldl parse_row (Some reset) (enumerate (seed_rows s)).

(** ** The techniques and the driver

    [cells.pop()] takes an arbitrary element out of a Python set.  The
    solver is parametric in that choice: [choice] proposes an element, and
    a proposal outside the set is replaced by an element of the set, so
    that every function [choice] is a pop order. *)
Section Solver.

Variable choice : gset nat → nat.

(** [cells.pop()] *)
Definition set_pop (cells : gset nat) : option (nat * gset nat) :=
  match elements cells with
  | [] => None
  | x :: _ =>
      let c := if decide (choice cells ∈ cells) then choice cells else x in
      Some (c, cells ∖ {[c]})
  end.

(** One turn of the [while cells:] loop of [set_values], on the state
    (grid, cells, updated). *)
Definition set_values_turn (s : Grid * gset nat * bool) : Grid * gset nat * bool :=
  match set_pop s.1.2 with
  | None => s
  | Some (current_cell, cells) =>
      let gb := cell_update_value s.1.1 current_cell in
      if gb.2 then
        let gn := propagate gb.1 current_cell in
        (gn.1, cells ∪ gn.2, true)
      else (gb.1, cells, s.2)
  end.

(** At most [fuel] turns of the loop. *)
Fixpoint set_values_loop (fuel : nat) (s : Grid * gset nat * bool)
  : Grid * gset nat * bool :=
  match fuel with
  | O => s
  | S fuel' =>
      if decide (s.1.2 = ∅) then s
      else set_values_loop fuel' (set_values_turn s)
  end.

(** [Sudoku.set_values].  The loop is run for as many turns as there are
    cells in the worklist and candidates in the grid, which is enough
    for the worklist to be empty ([set_values_loop_drains]). *)
Definition set_values (g : Grid) (cells : gset nat) : Grid * bool :=
  let s := set_values_loop (size cells + candidates_left g) (g, cells, false) in
  (s.1.1, s.2).

(** *** find_unique *)

Definition digits : list Z := [1; 2; 3; 4; 5; 6; 7; 8; 9].

(** Phase 1: [dico_val[v]] is the list of the cells of [related_cells]
    that are not locked and have [v] in their domain, in the order of
    [related_cells]; the dictionary is read in the order of its keys
    1, ..., 9.  (A domain only holds digits of 1..9, see
    [settles_reset_digits], so [dico_val[v]] always exists.) *)
Definition holds_candidate (g : Grid) (v : Z) (case : nat) : bool :=
  from_option (λ c, negb (locked c) && bool_decide (v ∈ domain c)) false (g !! case).

Definition dico_val (g : Grid) (related_cells : list nat) : list (Z * list nat) :=
  (λ v, (v, filter (λ case, holds_candidate g v case) related_cells)) <$> digits.

(** Phase 2, one turn of [for k, l in dico_val.items()]. *)
Definition force_unique (acc : Grid * gset nat * bool) (kl : Z * list nat)
  : Grid * gset nat * bool :=
  match kl.2 with
  | [unique_case] =>
      match acc.1.1 !! unique_case with
      | Some cell =>
          let g1 := <[unique_case := {| idnum := idnum cell; value := kl.1;
                                        domain := {[kl.1]}; locked := true |}]> acc.1.1 in
          let gn := propagate g1 unique_case in
          (gn.1, acc.1.2 ∪ {[unique_case]} ∪ gn.2, true)
      | None => acc
      end
  | _ => acc
  end.

(** [Sudoku.find_unique] *)
Definition find_unique (g : Grid) (related_cells : list nat) : Grid * bool :=
  let s := foldl force_unique (g, ∅, false) (dico_val g related_cells) in
  let r := set_values s.1.1 s.1.2 in
  (r.1, r.2 || s.2).

(** *** find_pairs *)

(** [dico_paires]: a dictionary in insertion order.  The key
    [tuple(sorted(case.domain))] stands for the domain itself. *)
Fixpoint dico_add (key : gset Z) (case : nat) (dico : list (gset Z * list nat))
  : list (gset Z * list nat) :=
  match dico with
  | [] => [(key, [case])]
  | kl :: rest =>
      if decide (kl.1 = key) then (kl.1, kl.2 ++ [case]) :: rest
      else kl :: dico_add key case rest
  end.

(** One turn of the first loop of [find_pairs]. *)
Definition note_pair (g : Grid) (dico : list (gset Z * list nat)) (case : nat)
  : list (gset Z * list nat) :=
  match g !! case with
  | Some c => if decide (size (domain c) = 2%nat)
              then dico_add (domain c) case dico else dico
  | None => dico
  end.

Definition dico_paires (g : Grid) (related_cells : list nat)
  : list (gset Z * list nat) :=
  foldl (note_pair g) [] related_cells.

(** The inner loop [for case in related_cells] for one pair. *)
Definition reduce_others (key : gset Z) (pair_list : list nat)
    (acc : Grid * bool) (case : nat) : Grid * bool :=
  if decide (case ∈ pair_list) then acc
  else match acc.1 !! case with
       | Some c =>
           let cb := reduce_domain c (elements key) in
           (<[case := cb.1]> acc.1, if cb.2 then true else acc.2)
       | None => acc
       end.

Definition reduce_pair (related_cells : list nat) (acc : Grid * bool)
    (kl : gset Z * list nat) : Grid * bool :=
  if decide (length kl.2 = 2%nat)
  then foldl (reduce_others kl.1 kl.2) acc related_cells
  else acc.

(** [Sudoku.find_pairs] *)
Definition find_pairs (g : Grid) (related_cells : list nat) : Grid * bool :=
  let s := foldl (reduce_pair related_cells) (g, false) (dico_paires g related_cells) in
  let r := set_values s.1 (list_to_set related_cells) in
  (r.1, r.2 || s.2).

(** *** solve *)

(** [results.append(technique(view(i)))] *)
Definition call (technique : Grid → list nat → Grid * bool)
    (view : Grid → nat → list nat) (acc : Grid * list bool) (i : nat)
  : Grid * list bool :=
  let r := technique acc.1 (view acc.1 i) in
  (r.1, acc.2 ++ [r.2]).

Definition sweep_unique (view : Grid → nat → list nat) (acc : Grid * list bool)
  : Grid * list bool :=
  foldl (call find_unique view) acc (seq 0 9).

Definition sweep_unique_pairs (view : Grid → nat → list nat) (acc : Grid * list bool)
  : Grid * list bool :=
  foldl (λ acc i, call find_pairs view (call find_unique view acc i) i) acc (seq 0 9).

(** The body of [while cpt < 81:] up to the list [results]. *)
Definition solve_round (lvl : Z) (g : Grid) : Grid * list bool :=
  if decide (lvl = 1) then
    sweep_unique square (sweep_unique column (sweep_unique line (g, [])))
  else if decide (lvl = 2) then
    sweep_unique_pairs square
      (sweep_unique_pairs column (sweep_unique_pairs line (g, [])))
  else (g, []).

(** [any(results)] *)
Definition any (results : list bool) : bool := existsb id results.

(** The loop of [solve]; [budget] is [81 - cpt]. *)
Fixpoint solve_loop (budget : nat) (lvl : Z) (g : Grid) : Grid :=
  match budget with
  | O => g
  | S budget' =>
      let r := solve_round lvl g in
      if any r.2 then solve_loop budget' lvl r.1 else r.1
  end.

(** [Sudoku.solve] *)
Definition solve (lvl : Z) (g : Grid) : Grid := solve_loop 81 lvl g.

End Solver.

(** A pop order for running the solver: the first element of the set. *)
Definition pop_first (cells : gset nat) : nat := hd 0%nat (elements cells).

(** * Properties of the embedding *)

Open Scope nat_scope.

(** ** How cells evolve

    [cell_erodes] is what [propagate] may do to a cell: take candidates
    away from a cell that is not locked.  [cell_settles] is what any
    operation of the solver may do between its call and its return. *)

Definition cell_erodes (c c' : Cell) : Prop :=
  idnum c' = idnum c ∧ value c' = value c ∧ locked c' = locked c ∧
  domain c' ⊆ domain c ∧ (locked c = true → domain c' = domain c).

Definition cell_settles (c c' : Cell) : Prop :=
  idnum c' = idnum c ∧ domain c' ⊆ domain c ∧
  (locked c = true → locked c' = true) ∧
  (locked c = true → domain c ⊆ {[value c]} → value c' = value c).

Definition erodes (g g' : Grid) : Prop := Forall2 cell_erodes g g'.
Definition settles (g g' : Grid) : Prop := Forall2 cell_settles g g'.

#[global] Instance cell_erodes_preorder : PreOrder cell_erodes.
Proof.
  split.
  - intros c. repeat split; auto.
  - intros a b c (?&?&Hl&?&Hd) (?&?&?&?&Hd'). repeat split; try congruence.
    + set_solver.
    + intros Ha. etrans; [apply Hd'|apply Hd]; congruence.
Qed.

#[global] Instance cell_settles_preorder : PreOrder cell_settles.
Proof.
  split.
  - intros c. repeat split; auto.
  - intros a b c (?&?&Hl&Hv) (?&?&Hl'&Hv'). repeat split; try congruence.
    + set_solver.
    + auto.
    + intros Ha Hda. rewrite Hv', Hv; auto.
      rewrite (Hv Ha Hda). set_solver.
Qed.

Lemma cell_erodes_settles c c' : cell_erodes c c' → cell_settles c c'.
Proof. intros (?&?&?&?&?). repeat split; auto; congruence. Qed.

Lemma Forall2_preorder {A} (R : relation A) : PreOrder R → PreOrder (Forall2 R).
Proof.
  intros [Hr Ht]. split.
  - intros l. apply Forall_Forall2_diag, Forall_forall. intros x _. apply Hr.
  - intros a b c Hab Hbc. eapply Forall2_trans; [|exact Hab|exact Hbc].
    intros x y z. apply Ht.
Qed.

#[global] Instance erodes_preorder : PreOrder erodes.
Proof. apply Forall2_preorder, _. Qed.

#[global] Instance settles_preorder : PreOrder settles.
Proof. apply Forall2_preorder, _. Qed.

Lemma erodes_settles g g' : erodes g g' → settles g g'.
Proof. intros H. eapply Forall2_impl; [exact H|apply cell_erodes_settles]. Qed.

(** Replacing one cell by a related one. *)
Lemma Forall2_insert_right (R : Cell → Cell → Prop) (g0 g : Grid) p c0 c' :
  Forall2 R g0 g → g0 !! p = Some c0 → R c0 c' → Forall2 R g0 (<[p := c']> g).
Proof.
  intros HR Hp Hc. rewrite <- (list_insert_id g0 p c0 Hp).
  by apply Forall2_insert.
Qed.

(** Whatever comes out of [reset] by the operations of the solver has its
    domains within 1..9. *)
Lemma settles_reset_digits g :
  settles reset g → Forall (λ c, domain c ⊆ full_domain) g.
Proof.
  unfold reset. generalize (seq 0 81). intros l. revert g.
  induction l as [|i l IH]; intros g Hs.
  - apply Forall2_nil_inv_l in Hs as ->. constructor.
  - apply Forall2_cons_inv_l in Hs as (c & g' & (_ & Hd & _) & Hs & ->).
    constructor; [done|by apply IH].
Qed.

Lemma settles_lookup g g' p c :
  settles g g' → g !! p = Some c → ∃ c', g' !! p = Some c' ∧ cell_settles c c'.
Proof. intros H Hp. by eapply Forall2_lookup_l. Qed.

Lemma settles_length g g' : settles g g' → length g' = length g.
Proof. intros H. symmetry. by eapply Forall2_length. Qed.

Lemma erodes_lookup g g' p c :
  erodes g g' → g !! p = Some c → ∃ c', g' !! p = Some c' ∧ cell_erodes c c'.
Proof. intros H Hp. by eapply Forall2_lookup_l. Qed.

Lemma erodes_length g g' : erodes g g' → length g' = length g.
Proof. intros H. symmetry. by eapply Forall2_length. Qed.

(** ** propagate *)

Lemma propagate_step_erodes v acc n : erodes acc.1 (propagate_step v acc n).1.
Proof.
  unfold propagate_step. destruct (acc.1 !! n) as [nc|] eqn:Hn; [|reflexivity].
  destruct (locked nc) eqn:Hl; [reflexivity|].
  case_decide; [|reflexivity]. simpl.
  eapply Forall2_insert_right; [reflexivity|done|].
  repeat split; simpl; auto; [set_solver|congruence].
Qed.

Lemma propagate_fold_erodes v l acc :
  erodes acc.1 (foldl (propagate_step v) acc l).1.
Proof.
  revert acc. induction l as [|n l IH]; intros acc; simpl; [reflexivity|].
  etrans; [apply propagate_step_erodes|apply IH].
Qed.

Lemma propagate_erodes g c : erodes g (propagate g c).1.
Proof.
  unfold propagate. destruct (g !! c); [|reflexivity].
  apply (propagate_fold_erodes _ _ (g, ∅)).
Qed.

(** ** Counting candidates and cells that are not locked *)

(** The number of cells that are not locked. *)
Definition unsettled (g : Grid) : nat :=
  sum_list ((λ c, if locked c then 0 else 1) <$> g).

Lemma sum_list_insert (f : Cell → nat) (g : Grid) p c c' :
  g !! p = Some c →
  sum_list (f <$> <[p := c']> g) + f c = sum_list (f <$> g) + f c'.
Proof.
  revert p. induction g as [|x g IH]; intros [|p] Hp; simpl in Hp; simplify_eq;
    csimpl; [lia|].
  specialize (IH p Hp). lia.
Qed.

Lemma unsettled_le_length g : unsettled g ≤ length g.
Proof.
  unfold unsettled. induction g as [|x g IH]; csimpl; [lia|].
  destruct (locked x); lia.
Qed.

Lemma erodes_unsettled g g' : erodes g g' → unsettled g' = unsettled g.
Proof.
  unfold unsettled. induction 1 as [|c c' g g' (?&?&Hl&?) _ IH]; csimpl; [done|].
  rewrite Hl. f_equal. exact IH.
Qed.

Lemma settles_unsettled g g' : settles g g' → unsettled g' ≤ unsettled g.
Proof.
  unfold unsettled. induction 1 as [|c c' g g' (_&_&Hl&_) _ IH]; csimpl; [done|].
  destruct (locked c); [rewrite Hl by done; lia|]. destruct (locked c'); lia.
Qed.

(** ** update_value *)

Lemma update_value_single c v :
  domain c = {[v]} →
  update_value c =
    ({| idnum := idnum c; value := v; domain := ∅; locked := true |}, true).
Proof. intros H. unfold update_value. by rewrite H, elements_singleton. Qed.

Lemma size_one_singleton (d : gset Z) : size d = 1 → ∃ v, d = {[v]}.
Proof. intros H. apply size_1_elem_of in H as [v Hv]. exists v. by apply leibniz_equiv. Qed.

Lemma update_value_other c : size (domain c) ≠ 1 → update_value c = (c, false).
Proof.
  unfold update_value, size, set_size. simpl.
  destruct (elements (domain c)) as [|v [|w l]]; simpl; intros H; done.
Qed.

Lemma update_value_true c : (update_value c).2 = true ↔ size (domain c) = 1.
Proof.
  split.
  - intros H. destruct (decide (size (domain c) = 1)) as [|Hn]; [done|].
    by rewrite (update_value_other c Hn) in H.
  - intros H. destruct (size_one_singleton _ H) as [v Hv].
    by rewrite (update_value_single c v Hv).
Qed.

Lemma update_value_settles c : cell_settles c (update_value c).1.
Proof.
  destruct (decide (size (domain c) = 1)) as [H|H].
  - destruct (size_one_singleton _ H) as [v Hv].
    rewrite (update_value_single c v Hv).
    split; [done|]. split; [simpl; set_solver|]. split; [done|]. simpl.
    intros _ Hd. rewrite Hv in Hd. set_solver.
  - rewrite (update_value_other c H). reflexivity.
Qed.

Lemma cell_update_value_settles g c : settles g (cell_update_value g c).1.
Proof.
  unfold cell_update_value. destruct (g !! c) as [cell|] eqn:Hc; [|reflexivity].
  simpl. eapply Forall2_insert_right; [reflexivity|done|apply update_value_settles].
Qed.

Lemma cell_update_value_false g c :
  (cell_update_value g c).2 = false → (cell_update_value g c).1 = g.
Proof.
  unfold cell_update_value. destruct (g !! c) as [cell|] eqn:Hc; [|done]. simpl.
  intros Hb. destruct (decide (size (domain cell) = 1)) as [H|H].
  - apply update_value_true in H. congruence.
  - rewrite (update_value_other cell H). simpl. by apply list_insert_id.
Qed.

Lemma cell_update_value_true g c :
  (cell_update_value g c).2 = true →
  ∃ cell v, g !! c = Some cell ∧ domain cell = {[v]} ∧
    (cell_update_value g c).1 =
      <[c := {| idnum := idnum cell; value := v; domain := ∅; locked := true |}]> g.
Proof.
  unfold cell_update_value. destruct (g !! c) as [cell|] eqn:Hc; [|done]. simpl.
  intros Hb. apply update_value_true, size_one_singleton in Hb as [v Hv].
  exists cell, v. by rewrite (update_value_single cell v Hv).
Qed.

Lemma cell_update_value_candidates g c :
  (cell_update_value g c).2 = true →
  candidates_left (cell_update_value g c).1 + 1 = candidates_left g.
Proof.
  intros Hb. destruct (cell_update_value_true g c Hb) as (cell & v & Hc & Hv & ->).
  unfold candidates_left.
  pose proof (sum_list_insert (λ c, size (domain c)) g c cell
    {| idnum := idnum cell; value := v; domain := ∅; locked := true |} Hc) as H.
  cbn beta iota delta [domain] in H. rewrite Hv, size_singleton, size_empty in H. lia.
Qed.

Lemma cell_update_value_unsettled g c cell :
  g !! c = Some cell → locked cell = false → size (domain cell) = 1 →
  unsettled (cell_update_value g c).1 + 1 = unsettled g.
Proof.
  intros Hc Hl Hs. unfold cell_update_value. rewrite Hc. simpl.
  destruct (size_one_singleton _ Hs) as [v Hv].
  rewrite (update_value_single cell v Hv). simpl. unfold unsettled.
  pose proof (sum_list_insert (λ c, if locked c then 0 else 1) g c cell
    {| idnum := idnum cell; value := v; domain := ∅; locked := true |} Hc) as H.
  simpl in H. rewrite Hl in H. lia.
Qed.

(** ** What propagate costs and what it reports *)

Lemma propagate_step_candidates v acc n :
  size (propagate_step v acc n).2 + candidates_left (propagate_step v acc n).1
  ≤ size acc.2 + candidates_left acc.1.
Proof.
  unfold propagate_step. destruct (acc.1 !! n) as [nc|] eqn:Hn; [|done].
  destruct (locked nc); [done|]. case_decide as Hv; [|done]. simpl.
  pose proof (sum_list_insert (λ c, size (domain c)) acc.1 n nc
    (set_domain nc (domain nc ∖ {[v]})) Hn) as H.
  cbn beta iota delta [domain set_domain] in H.
  assert (size (domain nc ∖ {[v]}) + 1 = size (domain nc)) as Hs.
  { rewrite size_difference by set_solver. rewrite size_singleton.
    assert (size (domain nc) ≠ 0); [|lia].
    intros H0. apply size_empty_inv in H0. set_solver. }
  unfold candidates_left.
  assert (size (if decide (size (domain nc ∖ {[v]}) = 1) then {[n]} ∪ acc.2 else acc.2)
          ≤ 1 + size acc.2); [|lia].
  case_decide; [|lia].
  rewrite size_union_alt, size_singleton.
  assert (size (acc.2 ∖ {[n]}) ≤ size acc.2); [|lia].
  apply subseteq_size. set_solver.
Qed.

Lemma propagate_candidates g c :
  size (propagate g c).2 + candidates_left (propagate g c).1 ≤ candidates_left g.
Proof.
  unfold propagate. destruct (g !! c) as [cell|]; [|cbn [fst snd]; rewrite size_empty; lia].
  assert (∀ l acc, size (foldl (propagate_step (value cell)) acc l).2 +
                   candidates_left (foldl (propagate_step (value cell)) acc l).1
                   ≤ size acc.2 + candidates_left acc.1) as H.
  { induction l as [|n l IH]; intros acc; simpl; [done|].
    etrans; [apply IH|apply propagate_step_candidates]. }
  etrans; [apply H|]. cbn [fst snd]. rewrite size_empty. lia.
Qed.

(** Every cell is left as it was, or is reported if it is down to one
    candidate. *)
Lemma propagate_reports g c p cell' :
  (propagate g c).1 !! p = Some cell' →
  g !! p = Some cell' ∨ (size (domain cell') = 1 → p ∈ (propagate g c).2).
Proof.
  unfold propagate. destruct (g !! c) as [cell|]; [|by left].
  assert (∀ l acc,
    (∀ p cell', acc.1 !! p = Some cell' →
       g !! p = Some cell' ∨ (size (domain cell') = 1 → p ∈ acc.2)) →
    ∀ p cell', (foldl (propagate_step (value cell)) acc l).1 !! p = Some cell' →
       g !! p = Some cell' ∨
       (size (domain cell') = 1 → p ∈ (foldl (propagate_step (value cell)) acc l).2)) as H.
  { induction l as [|n l IH]; intros acc Hacc; simpl; [done|].
    apply IH. clear IH. intros q cq. unfold propagate_step.
    destruct (acc.1 !! n) as [nc|] eqn:Hn; [|apply Hacc].
    destruct (locked nc); [apply Hacc|]. case_decide; [|apply Hacc]. simpl.
    destruct (decide (n = q)) as [->|Hne].
    - rewrite list_lookup_insert_eq by (by eapply lookup_lt_Some).
      intros [= <-]. right. simpl. intros Hs. rewrite decide_True by done. set_solver.
    - rewrite list_lookup_insert_ne by done. intros Hq.
      destruct (Hacc q cq Hq) as [?|Hr]; [by left|right].
      intros Hs. specialize (Hr Hs). case_decide; set_solver. }
  apply H. simpl. auto.
Qed.

(** ** The worklist loop of set_values *)

Section Closure.

Variable choice : gset nat → nat.

Lemma set_pop_None cells : set_pop choice cells = None ↔ cells = ∅.
Proof.
  unfold set_pop. destruct (elements cells) as [|x l] eqn:E.
  - split; [intros _|done]. apply leibniz_equiv. by apply elements_empty_inv; rewrite E.
  - split; [done|]. intros ->. by rewrite elements_empty in E.
Qed.

Lemma set_pop_Some cells c cells' :
  set_pop choice cells = Some (c, cells') → c ∈ cells ∧ cells' = cells ∖ {[c]}.
Proof.
  unfold set_pop. destruct (elements cells) as [|x l] eqn:E; [done|].
  intros [= <- <-]. split; [|done].
  case_decide; [done|]. apply elem_of_elements. rewrite E. left.
Qed.

Lemma set_pop_nonempty cells :
  cells ≠ ∅ → ∃ c, c ∈ cells ∧ set_pop choice cells = Some (c, cells ∖ {[c]}).
Proof.
  intros Hne. destruct (set_pop choice cells) as [[c cells']|] eqn:E.
  - apply set_pop_Some in E as H. destruct H as [Hc ->]. eauto.
  - by apply set_pop_None in E.
Qed.

Lemma set_values_turn_empty s : s.1.2 = ∅ → set_values_turn choice s = s.
Proof.
  intros H. unfold set_values_turn.
  by rewrite (proj2 (set_pop_None _) H).
Qed.

(** Each turn of the loop takes a cell out of the worklist or a candidate
    out of the grid: worklist size plus candidates left goes down. *)
Lemma set_values_turn_decreases s :
  s.1.2 ≠ ∅ →
  size (set_values_turn choice s).1.2 + candidates_left (set_values_turn choice s).1.1
  < size s.1.2 + candidates_left s.1.1.
Proof.
  intros Hne. destruct (set_pop_nonempty _ Hne) as (c & Hc & Hpop).
  unfold set_values_turn. rewrite Hpop.
  assert (size (s.1.2 ∖ {[c]}) + 1 = size s.1.2) as Hs.
  { rewrite size_difference by set_solver. rewrite size_singleton.
    assert (size s.1.2 ≠ 0); [|lia].
    intros H0. apply size_empty_inv in H0. set_solver. }
  destruct (cell_update_value s.1.1 c).2 eqn:Hb; cbn [fst snd].
  - pose proof (cell_update_value_candidates _ _ Hb).
    pose proof (propagate_candidates (cell_update_value s.1.1 c).1 c).
    pose proof (size_union_alt (s.1.2 ∖ {[c]}) (propagate (cell_update_value s.1.1 c).1 c).2).
    assert (size ((propagate (cell_update_value s.1.1 c).1 c).2 ∖ (s.1.2 ∖ {[c]}))
            ≤ size (propagate (cell_update_value s.1.1 c).1 c).2)
      by (apply subseteq_size; set_solver).
    lia.
  - rewrite (cell_update_value_false _ _ Hb). lia.
Qed.

Lemma set_values_loop_empty fuel s : s.1.2 = ∅ → set_values_loop choice fuel s = s.
Proof. intros H. destruct fuel; simpl; [done|]. by rewrite decide_True. Qed.

Lemma set_values_loop_S fuel s :
  set_values_loop choice (S fuel) s = set_values_loop choice fuel (set_values_turn choice s).
Proof.
  simpl. case_decide as H; [|done].
  by rewrite (set_values_turn_empty s H), (set_values_loop_empty fuel s H).
Qed.

Lemma set_values_loop_turn fuel s :
  set_values_loop choice (S fuel) s = set_values_turn choice (set_values_loop choice fuel s).
Proof.
  revert s. induction fuel as [|fuel IH]; intros s.
  - rewrite set_values_loop_S. done.
  - rewrite set_values_loop_S, IH, <- set_values_loop_S. done.
Qed.

Lemma set_values_loop_drains fuel s :
  size s.1.2 + candidates_left s.1.1 ≤ fuel →
  (set_values_loop choice fuel s).1.2 = ∅.
Proof.
  revert s. induction fuel as [|fuel IH]; intros s Hle; simpl.
  - apply leibniz_equiv, size_empty_inv. lia.
  - case_decide as H; [done|]. apply IH.
    pose proof (set_values_turn_decreases s H). lia.
Qed.

Lemma set_values_loop_more fuel fuel' s :
  size s.1.2 + candidates_left s.1.1 ≤ fuel → fuel ≤ fuel' →
  set_values_loop choice fuel' s = set_values_loop choice fuel s.
Proof.
  intros Hle Hff. replace fuel' with ((fuel' - fuel) + fuel) by lia.
  induction (fuel' - fuel) as [|k IH]; [done|].
  change (S k + fuel) with (S (k + fuel)).
  rewrite set_values_loop_turn, IH.
  apply set_values_turn_empty, set_values_loop_drains, Hle.
Qed.

Lemma set_values_turn_settles s : settles s.1.1 (set_values_turn choice s).1.1.
Proof.
  unfold set_values_turn. destruct (set_pop choice s.1.2) as [[c cells]|]; [|reflexivity].
  destruct (cell_update_value s.1.1 c).2 eqn:Hb; cbn [fst snd].
  - etrans; [apply cell_update_value_settles|]. apply erodes_settles, propagate_erodes.
  - apply cell_update_value_settles.
Qed.

Lemma set_values_loop_settles fuel s : settles s.1.1 (set_values_loop choice fuel s).1.1.
Proof.
  revert s. induction fuel as [|fuel IH]; intros s; [reflexivity|].
  rewrite set_values_loop_S. etrans; [apply set_values_turn_settles|apply IH].
Qed.

Lemma set_values_settles g cells : settles g (set_values choice g cells).1.
Proof. apply (set_values_loop_settles _ (g, cells, false)). Qed.

(** C8.  The loop of [set_values] terminates, whatever the worklist, the
    grid and the pop order: after [size cells + candidates_left g] turns
    the worklist is empty and further turns change nothing.  A turn that
    locks a cell that was not locked takes one off the number of cells
    that are not locked; no turn adds to that number, which is at most the
    number of cells of the grid (81 for a grid made by [reset]). *)
Theorem set_values_terminates (g : Grid) (cells : gset nat) (updated : bool) :
  (set_values_loop choice (size cells + candidates_left g) (g, cells, updated)).1.2 = ∅
  ∧ (∀ fuel, size cells + candidates_left g ≤ fuel →
       set_values_loop choice fuel (g, cells, updated)
       = set_values_loop choice (size cells + candidates_left g) (g, cells, updated))
  ∧ (∀ c cells' cell,
       set_pop choice cells = Some (c, cells') → g !! c = Some cell →
       locked cell = false → size (domain cell) = 1 →
       unsettled (set_values_turn choice (g, cells, updated)).1.1 + 1 = unsettled g)
  ∧ unsettled (set_values_turn choice (g, cells, updated)).1.1 ≤ unsettled g
  ∧ unsettled g ≤ length g
  ∧ length reset = 81.
Proof.
  split; [by apply set_values_loop_drains|].
  split; [intros fuel Hf; by apply set_values_loop_more|].
  split; [|split; [|split; [apply unsettled_le_length|done]]].
  2: apply settles_unsettled, (set_values_turn_settles (g, cells, updated)).
  intros c cells' cell Hpop Hc Hl Hs.
  unfold set_values_turn. cbn [fst snd]. rewrite Hpop.
  assert ((cell_update_value g c).2 = true) as Hb.
  { unfold cell_update_value. rewrite Hc. by apply update_value_true. }
  rewrite Hb. cbn [fst snd].
  rewrite (erodes_unsettled _ _ (propagate_erodes _ c)).
  by eapply cell_update_value_unsettled.
Qed.

(** *** What a turn does, and what set_values returns *)

(** The cell popped in state [s] has exactly one candidate. *)
Definition pops_single (s : Grid * gset nat * bool) : Prop :=
  ∃ c cells' cell,
    set_pop choice s.1.2 = Some (c, cells') ∧ s.1.1 !! c = Some cell ∧
    size (domain cell) = 1.

Lemma cell_update_value_true_iff g c :
  (cell_update_value g c).2 = true ↔ ∃ cell, g !! c = Some cell ∧ size (domain cell) = 1.
Proof.
  unfold cell_update_value. destruct (g !! c) as [cell|]; simpl.
  - rewrite update_value_true. naive_solver.
  - naive_solver.
Qed.

Lemma set_values_turn_flag s :
  (set_values_turn choice s).2 = true ↔ s.2 = true ∨ pops_single s.
Proof.
  unfold set_values_turn, pops_single.
  destruct (set_pop choice s.1.2) as [[c cells]|]; [|naive_solver].
  destruct (cell_update_value s.1.1 c).2 eqn:Hb; cbn [fst snd].
  - apply cell_update_value_true_iff in Hb. naive_solver.
  - split; [auto|]. intros [?|(c' & cells' & cell & [= <- <-] & Hc & Hs)]; [done|].
    assert ((cell_update_value s.1.1 c).2 = true) by (apply cell_update_value_true_iff; eauto).
    congruence.
Qed.

Lemma set_values_loop_flag fuel s :
  (set_values_loop choice fuel s).2 = true ↔
  s.2 = true ∨ ∃ n, n < fuel ∧ pops_single (set_values_loop choice n s).
Proof.
  induction fuel as [|fuel IH].
  - simpl. split; [auto|]. intros [?|(n & ? & _)]; [done|lia].
  - rewrite set_values_loop_turn, set_values_turn_flag, IH. split.
    + intros [[?|(n & ? & ?)]|?]; [by left|right; exists n; split; [lia|done]|].
      right. exists fuel. split; [lia|done].
    + intros [?|(n & Hn & Hp)]; [by left; left|].
      destruct (decide (n = fuel)) as [->|]; [by right|].
      left; right. exists n. split; [lia|done].
Qed.

Lemma set_values_flag g cells :
  (set_values choice g cells).2 = true ↔
  ∃ n, pops_single (set_values_loop choice n (g, cells, false)).
Proof.
  unfold set_values. cbn [snd]. rewrite set_values_loop_flag. cbn [snd]. split.
  - intros [?|(n & _ & ?)]; [done|eauto].
  - intros (n & Hp). right.
    destruct (decide (n < size cells + candidates_left g)) as [|Hge]; [eauto|].
    exfalso. destruct Hp as (c & cells' & cell & Hpop & _).
    rewrite (set_values_loop_more (size cells + candidates_left g) n) in Hpop
      by (cbn [fst snd]; lia).
    rewrite (set_values_loop_drains _ (g, cells, false)) in Hpop by done.
    by rewrite (proj2 (set_pop_None ∅)) in Hpop.
Qed.

Lemma set_values_singleton g c :
  (cell_update_value g c).2 = true →
  (propagate (cell_update_value g c).1 c).2 = ∅ →
  set_values choice g {[c]} = ((propagate (cell_update_value g c).1 c).1, true).
Proof.
  intros Hb Hn. unfold set_values.
  rewrite size_singleton. change (1 + ?n) with (S n).
  rewrite set_values_loop_S.
  assert (set_values_turn choice (g, {[c]}, false)
          = ((propagate (cell_update_value g c).1 c).1, ∅, true)) as ->.
  { unfold set_values_turn. cbn [fst snd].
    destruct (set_pop_nonempty {[c]}) as (c' & Hc' & ->); [set_solver|].
    apply elem_of_singleton in Hc' as ->. rewrite Hb, Hn. f_equal. f_equal. set_solver. }
  by rewrite set_values_loop_empty.
Qed.

(** A turn of the loop of [set_values], as the code is.  The popped cell
    comes out of the worklist.  A popped cell with exactly one candidate,
    locked or not ([update_value] does not look at [locked]), takes that
    candidate as its value and is locked, and the set returned by
    [propagate] is merged into the worklist.  A popped cell with any other
    number of candidates is dropped and nothing changes.  [set_values]
    returns true if and only if some popped cell had exactly one candidate
    at the time it was popped. *)
Lemma set_values_spec (g : Grid) (cells : gset nat) (updated : bool)
    (c : nat) (cells' : gset nat) :
  set_pop choice cells = Some (c, cells') →
  c ∈ cells ∧ cells' = cells ∖ {[c]} ∧
  (∀ cell v, g !! c = Some cell → domain cell = {[v]} →
     ∃ g1 cell1,
       g1 !! c = Some cell1 ∧ value cell1 = v ∧ locked cell1 = true ∧
       (∀ p, p ≠ c → g1 !! p = g !! p) ∧
       set_values_turn choice (g, cells, updated)
       = ((propagate g1 c).1, cells' ∪ (propagate g1 c).2, true)) ∧
  (∀ cell, g !! c = Some cell → size (domain cell) ≠ 1 →
     set_values_turn choice (g, cells, updated) = (g, cells', updated)) ∧
  ((set_values choice g cells).2 = true ↔
   ∃ n, pops_single (set_values_loop choice n (g, cells, false))).
Proof.
  intros Hpop. destruct (set_pop_Some _ _ _ Hpop) as [Hc ->].
  split; [done|]. split; [done|]. split; [|split; [|apply set_values_flag]].
  - intros cell v Hcell Hv.
    exists (<[c := {| idnum := idnum cell; value := v; domain := ∅; locked := true |}]> g).
    eexists. split; [apply list_lookup_insert_eq; by eapply lookup_lt_Some|].
    split; [done|]. split; [done|].
    split; [intros p Hp; by apply list_lookup_insert_ne|].
    unfold set_values_turn. cbn [fst snd]. rewrite Hpop.
    unfold cell_update_value. rewrite Hcell, (update_value_single cell v Hv). done.
  - intros cell Hcell Hs. unfold set_values_turn. cbn [fst snd]. rewrite Hpop.
    unfold cell_update_value. rewrite Hcell, (update_value_other cell Hs).
    cbn [fst snd]. by rewrite list_insert_id.
Qed.

End Closure.

(** ** The views of a grid whose cells are numbered by position *)

(** [reset] numbers the cells 0, ..., 80 and nothing changes [idnum]. *)
Definition well_numbered (g : Grid) : Prop := idnum <$> g = seq 0 81.

Lemma well_numbered_reset : well_numbered reset.
Proof. reflexivity. Qed.

Lemma well_numbered_length g : well_numbered g → length g = 81.
Proof. intros H. rewrite <- (length_fmap idnum), H. reflexivity. Qed.

Lemma well_numbered_lookup g p cell :
  well_numbered g → g !! p = Some cell → idnum cell = p ∧ p < 81.
Proof.
  intros H Hp. assert ((idnum <$> g) !! p = Some (idnum cell)) as Hi
    by (by rewrite list_lookup_fmap, Hp).
  rewrite H in Hi. apply lookup_seq in Hi. lia.
Qed.

Lemma well_numbered_lookup_lt g p :
  well_numbered g → p < 81 → ∃ cell, g !! p = Some cell ∧ idnum cell = p.
Proof.
  intros H Hp. destruct (lookup_lt_is_Some_2 g p) as [cell Hc].
  { by rewrite (well_numbered_length g H). }
  exists cell. split; [done|]. by eapply well_numbered_lookup.
Qed.

Lemma settles_well_numbered g g' : settles g g' → well_numbered g → well_numbered g'.
Proof.
  unfold well_numbered. intros Hs <-. induction Hs as [|c c' g g' (Hi&_) _ IH]; csimpl; [done|].
  by rewrite Hi, IH.
Qed.

Lemma filter_ext_elem {A} (P Q : A → Prop) `{∀ x, Decision (P x)} `{∀ x, Decision (Q x)}
    (l : list A) :
  (∀ x, x ∈ l → P x ↔ Q x) → filter P l = filter Q l.
Proof.
  induction l as [|x l IH]; intros HPQ; [done|].
  rewrite !filter_cons. rewrite IH by (intros y Hy; apply HPQ; by right).
  destruct (decide (P x)) as [HP|HP], (decide (Q x)) as [HQ|HQ]; try done.
  - destruct HQ. apply HPQ; [left|done].
  - destruct HP. apply HPQ; [left|done].
Qed.

Lemma cells_where_numbered (f : nat → bool) g :
  well_numbered g →
  cells_where (λ c, f (idnum c)) g = filter (λ p, f p) (seq 0 81).
Proof.
  intros H. unfold cells_where. rewrite (well_numbered_length g H).
  apply filter_ext_elem. intros p Hp%elem_of_seq.
  destruct (well_numbered_lookup_lt g p H) as (cell & -> & Hi); [lia|].
  simpl. by rewrite Hi.
Qed.

(** The three units of the cell numbered [c], and their union as
    [neighbors] builds it. *)
Definition line_of (c : nat) : list nat := filter (λ p, Nat.eqb (c / 9) (p / 9)) (seq 0 81).
Definition column_of (c : nat) : list nat := filter (λ p, Nat.eqb (c mod 9) (p mod 9)) (seq 0 81).
Definition square_of (c : nat) : list nat :=
  filter (λ p, Nat.eqb (p / 9 / 3 * 3 + p mod 9 / 3) (c / 9 / 3 * 3 + c mod 9 / 3)) (seq 0 81).
Definition units_of (c : nat) : list nat :=
  elements (list_to_set (line_of c ++ square_of c ++ column_of c) : gset nat).

Lemma views_numbered g c cell :
  well_numbered g → g !! c = Some cell →
  line g (cell_line cell) = line_of c ∧
  square g (cell_square cell) = square_of c ∧
  column g (cell_column cell) = column_of c.
Proof.
  intros H Hc. destruct (well_numbered_lookup g c cell H Hc) as [Hi _].
  unfold line, square, column, cell_square, cell_line, cell_column. rewrite Hi.
  split; [|split].
  - apply (cells_where_numbered (λ p, Nat.eqb (c / 9) (p / 9)) g H).
  - apply (cells_where_numbered
             (λ p, Nat.eqb (p / 9 / 3 * 3 + p mod 9 / 3) (c / 9 / 3 * 3 + c mod 9 / 3)) g H).
  - apply (cells_where_numbered (λ p, Nat.eqb (c mod 9) (p mod 9)) g H).
Qed.

Lemma neighbors_numbered g c :
  well_numbered g → c < 81 → neighbors g c = units_of c.
Proof.
  intros H Hc. destruct (well_numbered_lookup_lt g c H Hc) as (cell & Hcell & _).
  unfold neighbors. rewrite Hcell.
  destruct (views_numbered g c cell H Hcell) as (-> & -> & ->). done.
Qed.

Lemma units_of_size : Forall (λ c, c ∈ units_of c ∧ length (units_of c) = 21) (seq 0 81).
Proof.
  apply Forall_forall. intros c Hc.
  assert (bool_decide (c ∈ units_of c ∧ length (units_of c) = 21) = true) as Hb;
    [|by apply bool_decide_eq_true in Hb].
  revert c Hc. apply Forall_forall.
  apply (bool_decide_unpack (Forall (λ c, bool_decide (c ∈ units_of c ∧ length (units_of c) = 21) = true) (seq 0 81))).
  vm_compute. exact I.
Qed.

(** C5.  On a grid of 81 cells numbered by position, [neighbors] returns,
    without repetition, the cells of the line, of the column and of the
    square of the cell, the cell itself included: 21 cells, not 20. *)
Theorem neighbors_include_cell (g : Grid) (c : nat) :
  well_numbered g → c < 81 →
  NoDup (neighbors g c) ∧
  (∀ p cell, g !! c = Some cell →
     p ∈ neighbors g c ↔
     p ∈ line g (cell_line cell) ∨ p ∈ column g (cell_column cell) ∨
     p ∈ square g (cell_square cell)) ∧
  c ∈ neighbors g c ∧
  length (neighbors g c) = 21.
Proof.
  intros H Hc. split; [|split].
  - unfold neighbors. destruct (g !! c); [apply NoDup_elements|apply NoDup_nil_2].
  - intros p cell Hcell. unfold neighbors. rewrite Hcell.
    rewrite elem_of_elements, elem_of_list_to_set, !elem_of_app. tauto.
  - rewrite (neighbors_numbered g c H Hc).
    pose proof units_of_size as Hall. rewrite Forall_forall in Hall.
    apply Hall, elem_of_seq. lia.
Qed.

Lemma neighbors_include_cell_witness :
  NoDup (neighbors reset 40) ∧
  (∀ p cell, reset !! 40 = Some cell →
     p ∈ neighbors reset 40 ↔
     p ∈ line reset (cell_line cell) ∨ p ∈ column reset (cell_column cell) ∨
     p ∈ square reset (cell_square cell)) ∧
  40 ∈ neighbors reset 40 ∧
  length (neighbors reset 40) = 21.
Proof. apply (neighbors_include_cell reset 40); [reflexivity|lia]. Defined.

(** ** solve at a level that is neither 1 nor 2 *)

(** C10.  For a level other than 1 and 2, a round of [solve] calls no
    technique (the list of results is empty) and leaves the grid as it
    is; [solve] stops after that round and returns the grid unchanged. *)
Theorem solve_other_level (choice : gset nat → nat) (lvl : Z) (g : Grid) :
  lvl ≠ 1%Z → lvl ≠ 2%Z →
  solve_round choice lvl g = (g, []) ∧
  solve choice lvl g = (solve_round choice lvl g).1 ∧
  solve choice lvl g = g.
Proof.
  intros H1 H2.
  assert (solve_round choice lvl g = (g, [])) as Hr.
  { unfold solve_round. by rewrite !decide_False. }
  split; [done|]. unfold solve. simpl. rewrite Hr. done.
Qed.

Lemma solve_other_level_witness :
  solve_round pop_first 3 reset = (reset, []) ∧
  solve pop_first 3 reset = (solve_round pop_first 3 reset).1 ∧
  solve pop_first 3 reset = reset.
Proof. apply (solve_other_level pop_first 3 reset); lia. Defined.

(** ** The techniques only settle cells *)

Section Techniques.

Variable choice : gset nat → nat.

Lemma holds_candidate_true g v case :
  holds_candidate g v case = true ↔
  ∃ c, g !! case = Some c ∧ locked c = false ∧ v ∈ domain c.
Proof.
  unfold holds_candidate. destruct (g !! case) as [c|]; simpl; [|naive_solver].
  rewrite andb_true_iff, negb_true_iff, bool_decide_eq_true. naive_solver.
Qed.

(** An entry of [dico_val] built on the grid [g0]. *)
Definition val_entry (g0 : Grid) (related_cells : list nat) (v : Z) : Z * list nat :=
  (v, filter (λ case, holds_candidate g0 v case) related_cells).

Lemma dico_val_entries g related_cells :
  dico_val g related_cells = val_entry g related_cells <$> digits.
Proof. reflexivity. Qed.

Lemma force_unique_settles g0 related_cells acc v :
  settles g0 acc.1.1 →
  settles g0 (force_unique acc (val_entry g0 related_cells v)).1.1.
Proof.
  intros Hs. unfold force_unique, val_entry. cbn [fst snd].
  destruct (filter _ related_cells) as [|c [|]] eqn:Hf; try done.
  destruct (acc.1.1 !! c) as [cell|] eqn:Hc; [|done]. cbn [fst snd].
  etrans; [|apply erodes_settles, propagate_erodes].
  assert (c ∈ filter (λ case, holds_candidate g0 v case) related_cells) as Hin
    by (rewrite Hf; left).
  apply list_elem_of_filter in Hin as [Hh _].
  apply Is_true_true, holds_candidate_true in Hh as (c0 & Hc0 & Hl0 & Hv0).
  destruct (settles_lookup _ _ _ _ Hs Hc0) as (cell' & Hcell' & Hi & _).
  rewrite Hc in Hcell'. injection Hcell' as <-.
  eapply Forall2_insert_right; [done..|].
  split; [done|]. split; [simpl; set_solver|]. split; congruence.
Qed.

Lemma force_unique_fold_settles g0 related_cells l acc :
  settles g0 acc.1.1 →
  settles g0 (foldl force_unique acc (val_entry g0 related_cells <$> l)).1.1.
Proof.
  revert acc. induction l as [|v l IH]; intros acc Hs; [done|].
  csimpl. apply IH. by apply force_unique_settles.
Qed.

Lemma find_unique_settles g related_cells :
  settles g (find_unique choice g related_cells).1.
Proof.
  unfold find_unique. cbn [fst].
  etrans; [|apply set_values_settles].
  rewrite dico_val_entries. by apply (force_unique_fold_settles g related_cells digits (g, ∅, false)).
Qed.

Lemma reduce_domain_settles c values : cell_settles c (reduce_domain c values).1.
Proof. unfold reduce_domain. repeat split; simpl; auto. set_solver. Qed.

Lemma reduce_others_settles key pair_list acc case :
  settles acc.1 (reduce_others key pair_list acc case).1.
Proof.
  unfold reduce_others. case_decide; [reflexivity|].
  destruct (acc.1 !! case) as [c|] eqn:Hc; [|reflexivity]. cbn [fst].
  eapply Forall2_insert_right; [reflexivity|done|apply reduce_domain_settles].
Qed.

Lemma reduce_others_fold_settles key pair_list l acc :
  settles acc.1 (foldl (reduce_others key pair_list) acc l).1.
Proof.
  revert acc. induction l as [|x l IH]; intros acc; [reflexivity|].
  simpl. etrans; [apply reduce_others_settles|apply IH].
Qed.

Lemma reduce_pair_settles related_cells acc kl :
  settles acc.1 (reduce_pair related_cells acc kl).1.
Proof.
  unfold reduce_pair. case_decide; [apply reduce_others_fold_settles|reflexivity].
Qed.

Lemma reduce_pair_fold_settles related_cells l acc :
  settles acc.1 (foldl (reduce_pair related_cells) acc l).1.
Proof.
  revert acc. induction l as [|x l IH]; intros acc; [reflexivity|].
  simpl. etrans; [apply reduce_pair_settles|apply IH].
Qed.

Lemma find_pairs_settles g related_cells :
  settles g (find_pairs choice g related_cells).1.
Proof.
  unfold find_pairs. cbn [fst].
  etrans; [|apply set_values_settles].
  apply (reduce_pair_fold_settles related_cells _ (g, false)).
Qed.

Lemma call_settles technique view acc i :
  (∀ g related_cells, settles g (technique g related_cells).1) →
  settles acc.1 (call technique view acc i).1.
Proof. intros H. apply H. Qed.

Lemma sweep_unique_settles view acc : settles acc.1 (sweep_unique choice view acc).1.
Proof.
  unfold sweep_unique. generalize (seq 0 9). intros l. revert acc.
  induction l as [|i l IH]; intros acc; [reflexivity|]. simpl.
  etrans; [|apply IH]. apply call_settles, find_unique_settles.
Qed.

Lemma sweep_unique_pairs_settles view acc :
  settles acc.1 (sweep_unique_pairs choice view acc).1.
Proof.
  unfold sweep_unique_pairs. generalize (seq 0 9). intros l. revert acc.
  induction l as [|i l IH]; intros acc; [reflexivity|]. simpl.
  etrans; [|apply IH].
  etrans; [apply (call_settles (find_unique choice)), find_unique_settles|].
  apply call_settles, find_pairs_settles.
Qed.

Lemma solve_round_settles lvl g : settles g (solve_round choice lvl g).1.
Proof.
  unfold solve_round. repeat case_decide; [| |reflexivity].
  - etrans; [|apply sweep_unique_settles].
    etrans; [|apply sweep_unique_settles].
    apply (sweep_unique_settles _ (g, [])).
  - etrans; [|apply sweep_unique_pairs_settles].
    etrans; [|apply sweep_unique_pairs_settles].
    apply (sweep_unique_pairs_settles _ (g, [])).
Qed.

Lemma solve_settles lvl g : settles g (solve choice lvl g).
Proof.
  unfold solve. generalize 81. intros n. revert g.
  induction n as [|n IH]; intros g; [reflexivity|]. simpl.
  destruct (any _); [|apply solve_round_settles].
  etrans; [apply solve_round_settles|apply IH].
Qed.

(** *** find_unique: hidden singles *)

(** The cell at [c] is locked on the digit [d], its only candidate. *)
Definition forced_at (g : Grid) (c : nat) (d : Z) : Prop :=
  ∃ cell, g !! c = Some cell ∧ locked cell = true ∧ value cell = d ∧ domain cell = {[d]}.

Lemma erodes_forced_at g g' c d : erodes g g' → forced_at g c d → forced_at g' c d.
Proof.
  intros He (cell & Hc & Hl & Hv & Hd).
  destruct (erodes_lookup _ _ _ _ He Hc) as (cell' & Hc' & _ & Hv' & Hl' & _ & Hd').
  exists cell'. repeat split; [done|congruence|congruence|].
  rewrite Hd' by done. done.
Qed.

Lemma force_unique_forces g0 related_cells acc d c :
  settles g0 acc.1.1 →
  filter (λ case, holds_candidate g0 d case) related_cells = [c] →
  forced_at (force_unique acc (val_entry g0 related_cells d)).1.1 c d.
Proof.
  intros Hs Hf. unfold force_unique, val_entry. cbn [fst snd]. rewrite Hf.
  assert (c ∈ filter (λ case, holds_candidate g0 d case) related_cells) as Hin
    by (rewrite Hf; left).
  apply list_elem_of_filter in Hin as [Hh _].
  apply Is_true_true, holds_candidate_true in Hh as (c0 & Hc0 & _).
  destruct (settles_lookup _ _ _ _ Hs Hc0) as (cell & Hcell & _).
  rewrite Hcell. cbn [fst snd].
  eapply erodes_forced_at; [apply propagate_erodes|].
  eexists. split; [apply list_lookup_insert_eq; by eapply lookup_lt_Some|done].
Qed.

Lemma force_unique_keeps g0 related_cells acc k c d :
  filter (λ case, holds_candidate g0 k case) related_cells ≠ [c] →
  forced_at acc.1.1 c d →
  forced_at (force_unique acc (val_entry g0 related_cells k)).1.1 c d.
Proof.
  intros Hne Hf. unfold force_unique, val_entry. cbn [fst snd].
  destruct (filter _ related_cells) as [|c' [|]]; try done.
  destruct (acc.1.1 !! c') as [cell|] eqn:Hc'; [|done]. cbn [fst snd].
  eapply erodes_forced_at; [apply propagate_erodes|].
  destruct Hf as (cell0 & Hc0 & Hrest). exists cell0. split; [|done].
  rewrite list_lookup_insert_ne; [done|]. intros ->. done.
Qed.

Lemma force_unique_fold_keeps g0 related_cells l acc c d :
  (∀ k, k ∈ l → filter (λ case, holds_candidate g0 k case) related_cells ≠ [c]) →
  forced_at acc.1.1 c d →
  forced_at (foldl force_unique acc (val_entry g0 related_cells <$> l)).1.1 c d.
Proof.
  revert acc. induction l as [|k l IH]; intros acc Hl Hf; [done|]. csimpl.
  apply IH; [intros k' Hk'; apply Hl; by right|].
  apply force_unique_keeps; [apply Hl; left|done].
Qed.

Lemma digits_after d l1 l2 : digits = l1 ++ d :: l2 → ∀ k, k ∈ l2 → (d < k ≤ 9)%Z.
Proof.
  intros H. apply Forall_forall. unfold digits in H.
  do 9 (destruct l1 as [|? l1];
        [injection H as <- <-; repeat constructor; lia | injection H as <- H]).
  destruct l1; discriminate.
Qed.

(** A cell that is the only holder of [d] among the cells of
    [related_cells] that are not locked, and of no greater digit, comes
    out of [find_unique] locked on [d]. *)
Lemma find_unique_greatest_single g related_cells c d :
  d ∈ digits →
  filter (λ case, holds_candidate g d case) related_cells = [c] →
  (∀ k, (d < k ≤ 9)%Z →
     filter (λ case, holds_candidate g k case) related_cells ≠ [c]) →
  ∃ cell', (find_unique choice g related_cells).1 !! c = Some cell' ∧
           locked cell' = true ∧ value cell' = d.
Proof.
  intros Hd Hf Hgt. apply list_elem_of_split in Hd as (l1 & l2 & Hsplit).
  assert (forced_at (foldl force_unique (g, ∅, false) (dico_val g related_cells)).1.1 c d)
    as (cell & Hc & Hl & Hv & Hdom).
  { rewrite dico_val_entries, Hsplit, fmap_app, foldl_app, fmap_cons. cbn [foldl].
    apply force_unique_fold_keeps.
    - intros k Hk. apply Hgt. by eapply digits_after.
    - apply force_unique_forces; [|done].
      by apply (force_unique_fold_settles g related_cells l1 (g, ∅, false)). }
  unfold find_unique. cbn [fst].
  destruct (settles_lookup _ _ _ _
              (set_values_settles choice
                 (foldl force_unique (g, ∅, false) (dico_val g related_cells)).1.1
                 (foldl force_unique (g, ∅, false) (dico_val g related_cells)).1.2) Hc)
    as (cell' & Hc' & _ & _ & Hl' & Hv').
  exists cell'. split; [done|]. split; [auto|].
  rewrite Hv'; [done..|]. rewrite Hdom, Hv. done.
Qed.

(** C6 (amended).  If a digit [d] of 1..9 is a candidate of exactly one
    cell [c] among the cells of the unit that are not locked, and [c] is
    not also the only such cell for a digit greater than [d], then after
    [find_unique] on the unit the cell [c] is locked with value [d]. *)
Theorem find_unique_hidden_single (g : Grid) (related_cells : list nat) (c : nat) (d : Z) :
  d ∈ digits →
  filter (λ case, holds_candidate g d case) related_cells = [c] →
  (∀ k, (d < k ≤ 9)%Z →
     filter (λ case, holds_candidate g k case) related_cells ≠ [c]) →
  ∃ cell', (find_unique choice g related_cells).1 !! c = Some cell' ∧
           locked cell' = true ∧ value cell' = d.
Proof. apply find_unique_greatest_single. Qed.

(** *** find_pairs: naked pairs *)

(** The cell at [case] has exactly two candidates, which make up [key]. *)
Definition pair_cell (g : Grid) (key : gset Z) (case : nat) : bool :=
  from_option (λ c, bool_decide (size (domain c) = 2 ∧ domain c = key)) false (g !! case).

Lemma dico_add_fresh key x dico :
  key ∉ dico.*1 → dico_add key x dico = dico ++ [(key, [x])].
Proof.
  induction dico as [|kl dico IH]; intros Hk; simpl; [done|].
  rewrite fmap_cons, not_elem_of_cons in Hk. destruct Hk as [Hne Hk].
  rewrite decide_False by done. by rewrite IH.
Qed.

Lemma dico_add_found key l x dico :
  NoDup dico.*1 → (key, l) ∈ dico → (key, l ++ [x]) ∈ dico_add key x dico.
Proof.
  induction dico as [|kl dico IH]; intros Hnd Hin; [by apply elem_of_nil in Hin|].
  rewrite fmap_cons in Hnd. apply NoDup_cons in Hnd as [Hkl Hnd]. simpl.
  apply elem_of_cons in Hin as [Heq|Hin].
  - subst kl. cbn [fst snd]. rewrite decide_True by done. left.
  - case_decide as Hk.
    + destruct Hkl. rewrite Hk. apply (list_elem_of_fmap_2 fst) in Hin. done.
    + right. by apply IH.
Qed.

Lemma dico_add_other key key' l x dico :
  key' ≠ key → (key', l) ∈ dico → (key', l) ∈ dico_add key x dico.
Proof.
  intros Hne. induction dico as [|kl dico IH]; intros Hin; [by apply elem_of_nil in Hin|].
  simpl. apply elem_of_cons in Hin as [Heq|Hin].
  - subst kl. cbn [fst]. rewrite decide_False by done. left.
  - case_decide; right; [done|by apply IH].
Qed.

Lemma dico_add_keys key x dico :
  (dico_add key x dico).*1 = if decide (key ∈ dico.*1) then dico.*1 else dico.*1 ++ [key].
Proof.
  induction dico as [|kl dico IH]; cbn [dico_add].
  - reflexivity.
  - destruct (decide (kl.1 = key)) as [He|Hne]; rewrite !fmap_cons.
    + rewrite decide_True; [done|]. rewrite He. left.
    + rewrite IH. destruct (decide (key ∈ dico.*1)) as [Hin|Hout].
      * rewrite decide_True; [done|]. by right.
      * rewrite decide_False; [done|]. rewrite not_elem_of_cons. done.
Qed.

Lemma pair_cell_true g key case :
  pair_cell g key case = true ↔
  ∃ c, g !! case = Some c ∧ size (domain c) = 2 ∧ domain c = key.
Proof.
  unfold pair_cell. destruct (g !! case) as [c|]; simpl; [|naive_solver].
  rewrite bool_decide_eq_true. naive_solver.
Qed.

Lemma filter_snoc {A} (P : A → Prop) `{∀ x, Decision (P x)} (l : list A) x :
  filter P (l ++ [x]) = if decide (P x) then filter P l ++ [x] else filter P l.
Proof.
  rewrite filter_app, filter_cons, filter_nil.
  destruct (decide (P x)); [done|by rewrite app_nil_r].
Qed.

(** [dico_paires] has one entry per key, and the entry of a key lists the
    cells of [related_cells] that have that pair as domain. *)
Lemma dico_paires_entries g related_cells :
  NoDup (dico_paires g related_cells).*1 ∧
  ∀ key,
    (filter (λ case, pair_cell g key case) related_cells = [] →
       key ∉ (dico_paires g related_cells).*1) ∧
    (filter (λ case, pair_cell g key case) related_cells ≠ [] →
       (key, filter (λ case, pair_cell g key case) related_cells)
       ∈ dico_paires g related_cells).
Proof.
  unfold dico_paires.
  induction related_cells as [|x l [IHnd IH]] using rev_ind.
  { split; [apply NoDup_nil_2|]. intros key. split; [intros _; apply not_elem_of_nil|done]. }
  rewrite foldl_snoc.
  assert (∀ key, ¬ pair_cell g key x →
            filter (λ case, pair_cell g key case) (l ++ [x])
            = filter (λ case, pair_cell g key case) l) as Hskip.
  { intros key Hk. rewrite filter_snoc. by rewrite decide_False. }
  destruct (g !! x) as [c|] eqn:Hx.
  - destruct (decide (size (domain c) = 2)) as [Hs|Hs].
    + assert (∀ dico, note_pair g dico x = dico_add (domain c) x dico) as ->
        by (intros; unfold note_pair; rewrite Hx; by rewrite decide_True).
      assert (pair_cell g (domain c) x = true) as Hpc by (apply pair_cell_true; eauto).
      assert (∀ key, key ≠ domain c → ¬ pair_cell g key x) as Hother.
      { intros key Hne Hk%Is_true_true%pair_cell_true. destruct Hk as (c' & ? & _ & ?).
        congruence. }
      split.
      * rewrite dico_add_keys. case_decide; [done|].
        apply NoDup_app. split; [done|]. split; [|apply NoDup_singleton].
        intros k Hk Hk'%list_elem_of_singleton. congruence.
      * intros key. destruct (decide (key = domain c)) as [->|Hne].
        -- rewrite filter_snoc, decide_True by (by apply Is_true_true).
           split; [intros Hnil; by destruct (filter _ l)|intros _].
           destruct (IH (domain c)) as [IHe IHn].
           destruct (decide (filter (λ case, pair_cell g (domain c) case) l = [])) as [He|Hn].
           ++ rewrite He, dico_add_fresh by auto. apply elem_of_app. right. left.
           ++ apply dico_add_found; auto.
        -- rewrite (Hskip key (Hother key Hne)). destruct (IH key) as [IHe IHn]. split.
           ++ intros He. rewrite dico_add_keys. case_decide; [auto|].
              rewrite not_elem_of_app. split; [auto|].
              rewrite list_elem_of_singleton. done.
           ++ intros Hn. apply dico_add_other; auto.
    + assert (∀ dico, note_pair g dico x = dico) as ->
        by (intros; unfold note_pair; rewrite Hx; by rewrite decide_False).
      split; [done|]. intros key. rewrite Hskip; [apply IH|].
      intros Hk%Is_true_true%pair_cell_true. destruct Hk as (c' & ? & ? & ?). congruence.
  - assert (∀ dico, note_pair g dico x = dico) as ->
      by (intros; unfold note_pair; by rewrite Hx).
    split; [done|]. intros key. rewrite Hskip; [apply IH|].
    intros Hk%Is_true_true%pair_cell_true. destruct Hk as (c' & ? & _). congruence.
Qed.

(** No candidate of the cell at [p] is in [key]. *)
Definition avoids (g : Grid) (p : nat) (key : gset Z) : Prop :=
  ∀ cell, g !! p = Some cell → domain cell ## key.

Lemma settles_avoids g g' p key : settles g g' → avoids g p key → avoids g' p key.
Proof.
  intros Hs Ha cell' Hc'.
  destruct (Forall2_lookup_r _ _ _ _ _ Hs Hc') as (cell & Hc & _ & Hd & _).
  specialize (Ha cell Hc). set_solver.
Qed.

Lemma reduce_others_avoids key pair_list acc p :
  p ∉ pair_list → avoids (reduce_others key pair_list acc p).1 p key.
Proof.
  intros Hp cell'. unfold reduce_others. rewrite decide_False by done.
  destruct (acc.1 !! p) as [c|] eqn:Hc; [|congruence]. cbn [fst].
  rewrite list_lookup_insert_eq by (by eapply lookup_lt_Some).
  intros [= <-]. simpl. rewrite list_to_set_elements_L. set_solver.
Qed.

Lemma reduce_others_fold_avoids key pair_list related_cells acc p :
  p ∈ related_cells → p ∉ pair_list →
  avoids (foldl (reduce_others key pair_list) acc related_cells).1 p key.
Proof.
  intros (l1 & l2 & ->)%list_elem_of_split Hp.
  rewrite foldl_app. cbn [foldl].
  eapply settles_avoids; [apply reduce_others_fold_settles|].
  by apply reduce_others_avoids.
Qed.

(** When exactly the cells [a] and [b] of [related_cells] have the pair
    [key] as domain, [find_pairs] leaves no digit of [key] in any other
    cell of [related_cells]. *)
Lemma find_pairs_clears_pair g related_cells a b key p :
  filter (λ case, pair_cell g key case) related_cells = [a; b] →
  p ∈ related_cells → p ≠ a → p ≠ b →
  avoids (find_pairs choice g related_cells).1 p key.
Proof.
  intros Hf Hp Ha Hb. unfold find_pairs. cbn [fst].
  eapply settles_avoids; [apply set_values_settles|].
  destruct (dico_paires_entries g related_cells) as [_ Hdico].
  destruct (Hdico key) as [_ Hin]. rewrite Hf in Hin.
  apply list_elem_of_split in Hin as (d1 & d2 & ->); [|done].
  rewrite foldl_app. cbn [foldl].
  eapply settles_avoids; [apply reduce_pair_fold_settles|].
  unfold reduce_pair at 1. cbn [fst snd length]. rewrite decide_True by done.
  apply reduce_others_fold_avoids; [done|].
  rewrite !not_elem_of_cons. split; [done|]. split; [done|apply not_elem_of_nil].
Qed.

(** C7 (amended).  If exactly two cells [a] and [b] of the unit have the
    same candidate set [key] of two digits (no third cell of the unit has
    that set), then after [find_pairs] on the unit no other cell of the
    unit has a digit of [key] among its candidates. *)
Theorem find_pairs_naked_pair (g : Grid) (related_cells : list nat) (a b : nat)
    (key : gset Z) (p : nat) (cell' : Cell) (x : Z) :
  filter (λ case, pair_cell g key case) related_cells = [a; b] →
  p ∈ related_cells → p ≠ a → p ≠ b →
  (find_pairs choice g related_cells).1 !! p = Some cell' →
  x ∈ key → x ∉ domain cell'.
Proof.
  intros Hf Hp Ha Hb Hc Hx Hd.
  pose proof (find_pairs_clears_pair g related_cells a b key p Hf Hp Ha Hb cell' Hc).
  set_solver.
Qed.

End Techniques.

(** ** grid_parser *)

(** The clues of a seed in the order [grid_parser] reads them, each with
    the position [i * 9 + j] of its cell. *)
Definition row_clues (row : nat * list Z) : list (nat * Z) :=
  (λ jv, (row.1 * 9 + jv.1, jv.2)) <$> enumerate row.2.

Definition clues_of (s : seed) : list (nat * Z) :=
  mjoin (row_clues <$> enumerate (seed_rows s)).

(** Reading a list of clues, from the grid [g] on. *)
Definition parse_clues (g : Grid) (clues : list (nat * Z)) : Grid :=
  foldl (λ g pv, parse_clue g pv.1 pv.2) g clues.

Definition parse_pos (acc : option Grid) (pv : nat * Z) : option Grid :=
  g ← acc;
  if decide (pv.1 < length g) then Some (parse_clue g pv.1 pv.2) else None.

(** A list of integers of any length, or at most 9 lists of at most 9
    integers. *)
Definition seed_shape (s : seed) : Prop :=
  match s with
  | Flat _ => True
  | Nested rows => length rows ≤ 9 ∧ Forall (λ row, length row ≤ 9) rows
  end.

(** Two positions on a common line, column or square. *)
Definition same_unit (p q : nat) : Prop :=
  q / 9 = p / 9 ∨ q mod 9 = p mod 9 ∨
  p / 9 / 3 * 3 + p mod 9 / 3 = q / 9 / 3 * 3 + q mod 9 / 3.

(** The value of every locked cell is out of the domains of the cells of
    its units that are not locked. *)
Definition propagated (g : Grid) : Prop :=
  ∀ q cq p cp,
    g !! q = Some cq → locked cq = true →
    g !! p = Some cp → locked cp = false →
    same_unit p q → value cq ∉ domain cp.

Lemma foldl_mjoin {A B} (f : A → B → A) (a : A) (ls : list (list B)) :
  foldl f a (mjoin ls) = foldl (foldl f) a ls.
Proof.
  revert a. induction ls as [|l ls IH]; intros a; [done|].
  simpl. by rewrite foldl_app, IH.
Qed.

Lemma foldl_same {A B} (f f' : A → B → A) (a : A) (l : list B) :
  (∀ a b, f a b = f' a b) → foldl f a l = foldl f' a l.
Proof.
  intros Hff. revert a. induction l as [|b l IH]; intros a; [done|].
  simpl. by rewrite Hff, IH.
Qed.

Lemma grid_parser_clues s : grid_parser s = foldl parse_pos (Some reset) (clues_of s).
Proof.
  unfold grid_parser, clues_of. rewrite foldl_mjoin, foldl_fmap.
  apply foldl_same. intros acc row. unfold parse_row, row_clues.
  rewrite foldl_fmap. done.
Qed.

Lemma parse_clue_settles g p v : settles g (parse_clue g p v).
Proof.
  unfold parse_clue. destruct (g !! p) as [cell|] eqn:Hp; [|reflexivity].
  case_decide; [|reflexivity]. destruct (locked cell) eqn:Hl; [reflexivity|].
  case_decide; [|reflexivity].
  etrans; [|apply erodes_settles, propagate_erodes].
  eapply Forall2_insert_right; [reflexivity|done|].
  split; [done|]. split; [simpl; set_solver|]. split; congruence.
Qed.

Lemma parse_clues_settles g clues : settles g (parse_clues g clues).
Proof.
  revert g. induction clues as [|pv clues IH]; intros g; [reflexivity|].
  etrans; [apply parse_clue_settles|apply IH].
Qed.

Lemma parse_pos_in_range g clues :
  length g = 81 → Forall (λ pv, pv.1 < 81) clues →
  foldl parse_pos (Some g) clues = Some (parse_clues g clues).
Proof.
  intros Hlen Hall. revert g Hlen.
  induction Hall as [|pv clues Hpv _ IH]; intros g Hlen; [done|].
  simpl. rewrite decide_True by lia. apply IH.
  by rewrite (settles_length _ _ (parse_clue_settles g pv.1 pv.2)).
Qed.

Lemma seed_rows_shape s :
  seed_shape s → length (seed_rows s) ≤ 9 ∧ Forall (λ row, length row ≤ 9) (seed_rows s).
Proof.
  destruct s as [l|rows]; [intros _|done]. split; [simpl; lia|].
  apply Forall_fmap, Forall_forall. intros i _. simpl. rewrite length_take. lia.
Qed.

Lemma clues_in_range s : seed_shape s → Forall (λ pv, pv.1 < 81) (clues_of s).
Proof.
  intros [Hlen Hrows]%seed_rows_shape. apply Forall_forall.
  intros pv Hpv. unfold clues_of in Hpv.
  apply list_elem_of_join in Hpv as (cl & Hpv & Hcl).
  apply list_elem_of_fmap in Hcl as ([i row] & -> & Hrow).
  apply elem_of_lookup_imap in Hrow as (i' & row' & [= -> ->] & Hi).
  unfold row_clues in Hpv. cbn [fst snd] in Hpv.
  apply list_elem_of_fmap in Hpv as ([j v] & -> & Hjv).
  apply elem_of_lookup_imap in Hjv as (j' & v' & [= -> ->] & Hj).
  apply lookup_lt_Some in Hi as Hi'. apply lookup_lt_Some in Hj.
  rewrite Forall_forall in Hrows.
  assert (length row' ≤ 9) by (apply Hrows; by eapply list_elem_of_lookup_2).
  cbn [fst]. lia.
Qed.

Lemma grid_parser_returns s :
  seed_shape s → grid_parser s = Some (parse_clues reset (clues_of s)).
Proof.
  intros Hs. rewrite grid_parser_clues.
  apply parse_pos_in_range; [done|by apply clues_in_range].
Qed.

(** Locked cells are out of reach of [propagate] and of later clues. *)
Lemma erodes_locked g g' q cell :
  erodes g g' → g !! q = Some cell → locked cell = true → g' !! q = Some cell.
Proof.
  intros He Hq Hl. destruct (erodes_lookup _ _ _ _ He Hq) as (cell' & Hq' & Hi & Hv & Hl' & _ & Hd).
  rewrite Hq'. f_equal. destruct cell, cell'; simpl in *. rewrite Hd by done. congruence.
Qed.

Lemma parse_clue_locked g p v q cell :
  g !! q = Some cell → locked cell = true → parse_clue g p v !! q = Some cell.
Proof.
  intros Hq Hl. unfold parse_clue. destruct (g !! p) as [cp|] eqn:Hp; [|done].
  case_decide; [|done]. destruct (locked cp) eqn:Hlp; [done|].
  case_decide; [|done].
  eapply erodes_locked; [apply propagate_erodes| |done].
  rewrite list_lookup_insert_ne; [done|]. intros ->. congruence.
Qed.

Lemma parse_clues_locked g clues q cell :
  g !! q = Some cell → locked cell = true → parse_clues g clues !! q = Some cell.
Proof.
  revert g. induction clues as [|pv clues IH]; intros g Hq Hl; [done|].
  simpl. apply IH; [|done]. by apply parse_clue_locked.
Qed.

(** [propagate] takes the value of the cell out of every cell of its
    units that is not locked. *)
Definition clear_at (g : Grid) (n : nat) (v : Z) : Prop :=
  ∀ cn, g !! n = Some cn → locked cn = false → v ∉ domain cn.

Lemma erodes_clear_at g g' n v : erodes g g' → clear_at g n v → clear_at g' n v.
Proof.
  intros He Hc cn' Hn' Hl'.
  destruct (Forall2_lookup_r _ _ _ _ _ He Hn') as (cn & Hn & _ & _ & Hl & Hd & _).
  specialize (Hc cn Hn). rewrite Hl' in Hl. specialize (Hc (eq_sym Hl)). set_solver.
Qed.

Lemma propagate_step_clear v acc n : clear_at (propagate_step v acc n).1 n v.
Proof.
  unfold propagate_step, clear_at. destruct (acc.1 !! n) as [nc|] eqn:Hn; [|congruence].
  destruct (locked nc) eqn:Hl; [congruence|].
  case_decide; [|congruence]. cbn [fst].
  rewrite list_lookup_insert_eq by (by eapply lookup_lt_Some).
  intros cn [= <-] _. simpl. set_solver.
Qed.

Lemma propagate_clears g c cell n :
  g !! c = Some cell → n ∈ neighbors g c → clear_at (propagate g c).1 n (value cell).
Proof.
  intros Hc Hn. unfold propagate. rewrite Hc.
  apply list_elem_of_split in Hn as (l1 & l2 & ->).
  rewrite foldl_app. cbn [foldl].
  eapply erodes_clear_at; [apply propagate_fold_erodes|].
  apply propagate_step_clear.
Qed.

Lemma units_of_same_unit p q : q < 81 → p ∈ units_of q ↔ p < 81 ∧ same_unit p q.
Proof.
  intros Hq. unfold units_of, line_of, square_of, column_of, same_unit.
  rewrite elem_of_elements, elem_of_list_to_set, !elem_of_app, !list_elem_of_filter.
  rewrite elem_of_seq. rewrite !Is_true_true, !Nat.eqb_eq. split.
  - intros [[? ?]|[[? ?]|[? ?]]]; (split; [lia|]); tauto.
  - intros [? [?|[?|?]]]; [left|right;right|right;left]; (split; [done|lia]).
Qed.

Lemma parse_clue_propagated g p v :
  well_numbered g → propagated g → propagated (parse_clue g p v).
Proof.
  intros Hwn HJ. unfold parse_clue. destruct (g !! p) as [cell|] eqn:Hp; [|done].
  case_decide; [|done]. destruct (locked cell) eqn:Hlp; [done|].
  case_decide as Hv; [|done].
  set (newc := {| idnum := idnum cell; value := v; domain := {[v]}; locked := true |}).
  set (g1 := <[p := newc]> g).
  assert (p < 81) as Hp81 by (by eapply well_numbered_lookup).
  assert (g1 !! p = Some newc) as Hp1
    by (apply list_lookup_insert_eq; by eapply lookup_lt_Some).
  assert (settles g g1) as Hs1.
  { eapply Forall2_insert_right; [reflexivity|done|].
    split; [done|]. split; [simpl; set_solver|]. split; congruence. }
  assert (well_numbered g1) as Hwn1 by (by eapply settles_well_numbered).
  pose proof (propagate_erodes g1 p) as He.
  intros q cq2 p' cp2 Hq2 Hlq Hp2 Hlp' Hsu.
  destruct (Forall2_lookup_r _ _ _ _ _ He Hq2) as (cq1 & Hq1 & _ & Hvq & Hlq1 & _).
  destruct (Forall2_lookup_r _ _ _ _ _ He Hp2) as (cp1 & Hp1' & _ & _ & Hlp1 & Hd1 & _).
  destruct (decide (q = p)) as [->|Hqp].
  - rewrite Hp1 in Hq1. injection Hq1 as <-. rewrite Hvq.
    assert (p' ∈ neighbors g1 p) as Hnb.
    { rewrite (neighbors_numbered g1 p Hwn1 Hp81). apply units_of_same_unit; [done|].
      split; [|done]. eapply well_numbered_lookup; [exact Hwn1|exact Hp1']. }
    by apply (propagate_clears g1 p newc p' Hp1 Hnb cp2 Hp2 Hlp').
  - unfold g1 in Hq1. rewrite list_lookup_insert_ne in Hq1 by done.
    assert (p' ≠ p) as Hp'p.
    { intros ->. rewrite Hp1 in Hp1'. injection Hp1' as <-. simpl in Hlp1. congruence. }
    unfold g1 in Hp1'. rewrite list_lookup_insert_ne in Hp1' by done.
    assert (value cq1 ∉ domain cp1) as Hout
      by (eapply (HJ q cq1 p' cp1); [done|congruence|done|congruence|done]).
    rewrite Hvq. set_solver.
Qed.

Lemma parse_clues_propagated g clues :
  well_numbered g → propagated g →
  well_numbered (parse_clues g clues) ∧ propagated (parse_clues g clues).
Proof.
  revert g. induction clues as [|pv clues IH]; intros g Hwn HJ; [done|].
  simpl. apply IH.
  - eapply settles_well_numbered; [apply parse_clue_settles|done].
  - by apply parse_clue_propagated.
Qed.

Lemma propagated_reset : propagated reset.
Proof.
  intros q cq p cp Hq Hl. unfold reset in Hq.
  rewrite list_lookup_fmap in Hq. destruct (seq 0 81 !! q); simplify_eq/=.
Qed.

Lemma parse_clue_conflict g p v q cq :
  propagated g → g !! q = Some cq → locked cq = true → value cq = v →
  same_unit p q → parse_clue g p v = g.
Proof.
  intros HJ Hq Hl Hv Hsu. unfold parse_clue.
  destruct (g !! p) as [cell|] eqn:Hp; [|done].
  case_decide; [|done]. destruct (locked cell) eqn:Hlp; [done|].
  rewrite decide_False; [done|]. rewrite <- Hv. by eapply (HJ q cq p cell).
Qed.

(** C9.  For a seed of the right shape [grid_parser] returns a grid (no
    exception).  Take any clue [v] read at position [p], with [g] the grid
    at that moment.  If [v] is outside 1..9, or if some cell on a line,
    column or square of [p] is already locked on [v], or if the cell at
    [p] is itself locked, reading the clue leaves the grid as it is.  Every cell that is locked at that moment is
    the same, locked on the same value, after this clue and at the end
    of [grid_parser]. *)
Theorem grid_parser_ignores_bad_clues (s : seed) (pre post : list (nat * Z))
    (p : nat) (v : Z) :
  seed_shape s →
  clues_of s = pre ++ (p, v) :: post →
  grid_parser s = Some (parse_clues reset (clues_of s)) ∧
  (¬ (0 < v ≤ 9)%Z → parse_clue (parse_clues reset pre) p v = parse_clues reset pre) ∧
  (∀ q cq, parse_clues reset pre !! q = Some cq → locked cq = true → value cq = v →
           same_unit p q →
           parse_clue (parse_clues reset pre) p v = parse_clues reset pre) ∧
  (∀ cp, parse_clues reset pre !! p = Some cp → locked cp = true →
         parse_clue (parse_clues reset pre) p v = parse_clues reset pre) ∧
  (∀ q cq, parse_clues reset pre !! q = Some cq → locked cq = true →
           parse_clue (parse_clues reset pre) p v !! q = Some cq ∧
           parse_clues reset (clues_of s) !! q = Some cq).
Proof.
  intros Hshape Hsplit. split; [by apply grid_parser_returns|].
  split; [|split; [|split]].
  - intros Hv. unfold parse_clue. destruct (_ !! p); [|done]. by rewrite decide_False.
  - intros q cq Hq Hl Hv Hsu. eapply parse_clue_conflict; [|done..].
    apply parse_clues_propagated; [apply well_numbered_reset|apply propagated_reset].
  - intros cp Hp Hl. unfold parse_clue. rewrite Hp, Hl. by case_decide.
  - intros q cq Hq Hl. split; [by apply parse_clue_locked|].
    rewrite Hsplit. unfold parse_clues. rewrite foldl_app.
    by apply parse_clues_locked.
Qed.

(** ** Worklists on which the pop order does not matter

    When no cell of the worklist can make [propagate] change anything,
    [set_values] just applies [update_value] to each cell of the
    worklist, whatever the order in which they are popped. *)

(** If the cell at [c] has a single candidate, that candidate is in the
    domain of no other cell of its units that is not locked. *)
Definition quiet_cell (g : Grid) (c : nat) : bool :=
  match g !! c with
  | Some cell =>
      match elements (domain cell) with
      | [v] =>
          forallb (λ n, bool_decide (n = c) ||
                        from_option (λ nc, locked nc || negb (bool_decide (v ∈ domain nc)))
                                    true (g !! n))
                  (neighbors g c)
      | _ => true
      end
  | None => true
  end.

(** [update_value] applied to every cell of [cells]. *)
Definition relock (g : Grid) (cells : gset nat) : Grid :=
  imap (λ p cell, if decide (p ∈ cells) then (update_value cell).1 else cell) g.

(** Some cell of [cells] has exactly one candidate. *)
Definition any_single (g : Grid) (cells : gset nat) : bool :=
  bool_decide (set_Exists (λ c, (cell_update_value g c).2 = true) cells).

Lemma foldl_fixed {A B} (f : A → B → A) (a : A) (l : list B) :
  (∀ b, b ∈ l → f a b = a) → foldl f a l = a.
Proof.
  induction l as [|b l IH]; intros H; [done|]. simpl.
  rewrite (H b) by left. apply IH. intros b' Hb'. apply H. by right.
Qed.

Lemma propagate_nothing g c cell :
  g !! c = Some cell →
  (∀ n nc, n ∈ neighbors g c → g !! n = Some nc →
     locked nc = true ∨ value cell ∉ domain nc) →
  propagate g c = (g, ∅).
Proof.
  intros Hc Hq. unfold propagate. rewrite Hc. apply foldl_fixed.
  intros n Hn. unfold propagate_step. cbn [fst snd].
  destruct (g !! n) as [nc|] eqn:Hnc; [|done].
  destruct (Hq n nc Hn Hnc) as [->|Hv]; [done|].
  destruct (locked nc); [done|]. by rewrite decide_False.
Qed.

Lemma relock_lookup g cells p :
  relock g cells !! p
  = (λ cell, if decide (p ∈ cells) then (update_value cell).1 else cell) <$> g !! p.
Proof. unfold relock. by rewrite list_lookup_imap. Qed.

Lemma relock_empty g : relock g ∅ = g.
Proof.
  apply list_eq. intros p. rewrite relock_lookup.
  destruct (g !! p); [|done]. simpl. rewrite decide_False; [done|set_solver].
Qed.

Lemma any_single_empty g : any_single g ∅ = false.
Proof. apply bool_decide_eq_false. intros (c & Hc & _). set_solver. Qed.

Section Quiet.

Variable choice : gset nat → nat.

Lemma quiet_cell_spec g c cell v n nc :
  quiet_cell g c = true → g !! c = Some cell → domain cell = {[v]} →
  n ∈ neighbors g c → n ≠ c → g !! n = Some nc →
  locked nc = true ∨ v ∉ domain nc.
Proof.
  unfold quiet_cell. intros Hq Hc Hd Hn Hne Hnc.
  rewrite Hc, Hd, elements_singleton in Hq.
  apply Is_true_true in Hq.
  rewrite forallb_True, Forall_forall in Hq. specialize (Hq n Hn).
  rewrite Hnc in Hq. simpl in Hq.
  rewrite bool_decide_eq_false_2 in Hq by done. simpl in Hq.
  destruct (locked nc); [by left|right]. simpl in Hq.
  apply Is_true_true, negb_true_iff, bool_decide_eq_false in Hq. done.
Qed.

Lemma set_values_loop_quiet fuel s :
  well_numbered s.1.1 → size s.1.2 ≤ fuel →
  (∀ c, c ∈ s.1.2 → quiet_cell s.1.1 c = true) →
  set_values_loop choice fuel s
  = (relock s.1.1 s.1.2, ∅, s.2 || any_single s.1.1 s.1.2).
Proof.
  revert s. induction fuel as [|fuel IH]; intros [[g cells] u]; cbn [fst snd];
    intros Hwn Hsz Hq.
  { assert (cells = ∅) as -> by (apply leibniz_equiv, size_empty_inv; lia).
    by rewrite relock_empty, any_single_empty, orb_false_r. }
  destruct (decide (cells = ∅)) as [->|Hne].
  { rewrite set_values_loop_empty by done.
    by rewrite relock_empty, any_single_empty, orb_false_r. }
  rewrite set_values_loop_S.
  destruct (set_pop_nonempty choice cells Hne) as (c & Hc & Hpop).
  assert (size (cells ∖ {[c]}) + 1 = size cells) as Hs.
  { rewrite size_difference by set_solver. rewrite size_singleton.
    assert (size cells ≠ 0); [|lia].
    intros H0. apply size_empty_inv in H0. set_solver. }
  unfold set_values_turn. cbn [fst snd]. rewrite Hpop.
  destruct (cell_update_value g c).2 eqn:Hb; cbn [fst snd].
  - destruct (cell_update_value_true g c Hb) as (cell & v & Hcell & Hv & Hg1).
    set (newc := {| idnum := idnum cell; value := v; domain := ∅; locked := true |}) in *.
    rewrite Hg1.
    assert (c < 81) as Hc81 by (by eapply well_numbered_lookup).
    assert (<[c := newc]> g !! c = Some newc) as Hc1
      by (apply list_lookup_insert_eq; by eapply lookup_lt_Some).
    assert (well_numbered (<[c := newc]> g)) as Hwn1.
    { eapply settles_well_numbered; [|done].
      rewrite <- Hg1. apply cell_update_value_settles. }
    assert (∀ q, neighbors (<[c := newc]> g) q = neighbors g q) as Hnb.
    { intros q. unfold neighbors at 1. destruct (_ !! q) as [cq|] eqn:Hq1.
      - assert (q < 81) by (by eapply well_numbered_lookup).
        destruct (views_numbered _ q cq Hwn1 Hq1) as (-> & -> & ->).
        by rewrite (neighbors_numbered g q Hwn).
      - unfold neighbors. apply lookup_ge_None in Hq1. rewrite length_insert in Hq1.
        by rewrite (proj2 (lookup_ge_None g q)). }
    rewrite (propagate_nothing _ c newc Hc1).
    2:{ intros n nc Hn Hnc. destruct (decide (n = c)) as [->|Hnc'].
        - rewrite Hc1 in Hnc. injection Hnc as <-. by left.
        - rewrite list_lookup_insert_ne in Hnc by done. rewrite Hnb in Hn.
          by eapply (quiet_cell_spec g c cell v n nc); [apply Hq|..]. }
    cbn [fst snd]. rewrite (right_id_L ∅ (∪)).
    rewrite (IH (<[c := newc]> g, cells ∖ {[c]}, true)); cbn [fst snd]; [|done|lia|].
    + f_equal; [f_equal|].
      * apply list_eq. intros p. rewrite !relock_lookup.
        destruct (decide (p = c)) as [->|Hpc].
        -- rewrite Hc1, Hcell. simpl. rewrite decide_False by set_solver.
           rewrite decide_True by done. by rewrite (update_value_single cell v Hv).
        -- rewrite list_lookup_insert_ne by done. destruct (g !! p); [|done]. simpl.
           destruct (decide (p ∈ cells)).
           ++ rewrite decide_True by set_solver. done.
           ++ rewrite decide_False by set_solver. done.
      * symmetry. rewrite orb_true_iff. right.
        apply bool_decide_eq_true. exists c. done.
    + intros c' Hc'. assert (c' ≠ c) as Hne' by set_solver.
      assert (quiet_cell g c' = true) as Hq' by (apply Hq; set_solver).
      unfold quiet_cell in *. rewrite Hnb.
      rewrite list_lookup_insert_ne by done.
      destruct (g !! c') as [cell'|]; [|done].
      destruct (elements (domain cell')) as [|v' [|]]; try done.
      apply Is_true_true in Hq'. rewrite forallb_True, Forall_forall in Hq'.
      apply Is_true_true, forallb_True, Forall_forall. intros n Hn.
      specialize (Hq' n Hn). destruct (decide (n = c)) as [->|Hnc].
      * rewrite Hc1. simpl. by rewrite orb_true_r.
      * by rewrite list_lookup_insert_ne.
  - rewrite (cell_update_value_false _ _ Hb).
    rewrite (IH (g, cells ∖ {[c]}, u)); cbn [fst snd]; [|done|lia|].
    + f_equal; [f_equal|].
      * apply list_eq. intros p. rewrite !relock_lookup.
        destruct (g !! p) as [cp|] eqn:Hp; [|done]. simpl. f_equal.
        destruct (decide (p = c)) as [->|Hpc].
        -- rewrite decide_False by set_solver. rewrite decide_True by done.
           unfold cell_update_value in Hb. rewrite Hp in Hb. simpl in Hb.
           destruct (decide (size (domain cp) = 1)) as [H1|H1].
           ++ apply update_value_true in H1. congruence.
           ++ by rewrite (update_value_other cp H1).
        -- destruct (decide (p ∈ cells)).
           ++ rewrite decide_True by set_solver. done.
           ++ rewrite decide_False by set_solver. done.
      * f_equal. unfold any_single. apply bool_decide_ext. split.
        -- intros (x & Hx & Hbx). exists x. split; [set_solver|done].
        -- intros (x & Hx & Hbx). exists x. split; [|done].
           assert (x ≠ c) by (intros ->; congruence). set_solver.
    + intros c' Hc'. apply Hq. set_solver.
Qed.

(** On a worklist of quiet cells, [set_values] is [relock]. *)
Lemma set_values_quiet g cells :
  well_numbered g → (∀ c, c ∈ cells → quiet_cell g c = true) →
  set_values choice g cells = (relock g cells, any_single g cells).
Proof.
  intros Hwn Hq. unfold set_values.
  rewrite (set_values_loop_quiet _ (g, cells, false)); cbn [fst snd]; [done|done|lia|done].
Qed.

End Quiet.

Lemma set_values_quiet_check choice g cells :
  bool_decide (idnum <$> g = seq 0 81) && forallb (quiet_cell g) (elements cells) = true →
  set_values choice g cells = (relock g cells, any_single g cells).
Proof.
  intros [Hwn Hq]%andb_true_iff. apply set_values_quiet.
  - by apply bool_decide_eq_true in Hwn.
  - intros c Hc. apply Is_true_true in Hq. rewrite forallb_True, Forall_forall in Hq.
    apply Is_true_true, Hq, elem_of_elements, Hc.
Qed.

Lemma find_pairs_quiet_check choice g related_cells :
  bool_decide (idnum <$> (foldl (reduce_pair related_cells) (g, false)
                                (dico_paires g related_cells)).1 = seq 0 81)
  && forallb (quiet_cell (foldl (reduce_pair related_cells) (g, false)
                                (dico_paires g related_cells)).1)
             (elements (list_to_set related_cells : gset nat)) = true →
  find_pairs choice g related_cells
  = (relock (foldl (reduce_pair related_cells) (g, false) (dico_paires g related_cells)).1
            (list_to_set related_cells),
     any_single (foldl (reduce_pair related_cells) (g, false) (dico_paires g related_cells)).1
                (list_to_set related_cells)
     || (foldl (reduce_pair related_cells) (g, false) (dico_paires g related_cells)).2).
Proof.
  intros H. unfold find_pairs. by rewrite (set_values_quiet_check choice _ _ H).
Qed.

(** ** The solver on a grid whose cells are all locked *)

Definition all_locked (g : Grid) : Prop := Forall (λ c, locked c = true) g.

Lemma all_locked_quiet g c : all_locked g → quiet_cell g c = true.
Proof.
  intros Hall. unfold quiet_cell. destruct (g !! c) as [cell|]; [|done].
  destruct (elements (domain cell)) as [|v [|]]; try done.
  apply Is_true_true, forallb_True, Forall_forall. intros n _.
  destruct (g !! n) as [nc|] eqn:Hn; simpl; [|by rewrite orb_true_r].
  unfold all_locked in Hall. rewrite Forall_forall in Hall.
  rewrite (Hall nc) by (by eapply list_elem_of_lookup_2). simpl. by rewrite orb_true_r.
Qed.

Lemma settles_all_locked g g' : settles g g' → all_locked g → all_locked g'.
Proof.
  unfold all_locked. induction 1 as [|c c' g g' (_&_&Hl&_) _ IH]; [done|].
  rewrite !Forall_cons. intros [? ?]. auto.
Qed.

Section AnyOrder.

Variables choice choice' : gset nat → nat.

Lemma set_values_any_order g cells :
  well_numbered g → all_locked g →
  set_values choice g cells = set_values choice' g cells.
Proof.
  intros Hwn Hall.
  rewrite !set_values_quiet; [done|done|..|done|]; intros c _; by apply all_locked_quiet.
Qed.

Lemma find_unique_any_order g related_cells :
  well_numbered g → all_locked g →
  find_unique choice g related_cells = find_unique choice' g related_cells.
Proof.
  intros Hwn Hall. unfold find_unique.
  pose proof (force_unique_fold_settles g related_cells digits (g, ∅, false)
                ltac:(reflexivity)) as Hs.
  rewrite <- dico_val_entries in Hs.
  rewrite set_values_any_order; [done|..].
  - by eapply settles_well_numbered.
  - by eapply settles_all_locked.
Qed.

Lemma find_pairs_any_order g related_cells :
  well_numbered g → all_locked g →
  find_pairs choice g related_cells = find_pairs choice' g related_cells.
Proof.
  intros Hwn Hall. unfold find_pairs.
  pose proof (reduce_pair_fold_settles related_cells (dico_paires g related_cells) (g, false))
    as Hs.
  rewrite set_values_any_order; [done|..].
  - by eapply settles_well_numbered.
  - by eapply settles_all_locked.
Qed.

Lemma sweep_unique_any_order view acc :
  well_numbered acc.1 → all_locked acc.1 →
  sweep_unique choice view acc = sweep_unique choice' view acc.
Proof.
  unfold sweep_unique. generalize (seq 0 9). intros l. revert acc.
  induction l as [|i l IH]; intros acc Hwn Hall; [done|]. simpl.
  assert (call (find_unique choice) view acc i = call (find_unique choice') view acc i) as <-
    by (unfold call; by rewrite find_unique_any_order).
  pose proof (call_settles (find_unique choice) view acc i (find_unique_settles choice)).
  apply IH; [by eapply settles_well_numbered|by eapply settles_all_locked].
Qed.

Lemma sweep_unique_pairs_any_order view acc :
  well_numbered acc.1 → all_locked acc.1 →
  sweep_unique_pairs choice view acc = sweep_unique_pairs choice' view acc.
Proof.
  unfold sweep_unique_pairs. generalize (seq 0 9). intros l. revert acc.
  induction l as [|i l IH]; intros acc Hwn Hall; [done|]. simpl.
  pose proof (call_settles (find_unique choice) view acc i (find_unique_settles choice)) as H1.
  pose proof (call_settles (find_pairs choice) view (call (find_unique choice) view acc i) i
                (find_pairs_settles choice)) as H2.
  assert (call (find_unique choice) view acc i = call (find_unique choice') view acc i) as Hu
    by (unfold call; by rewrite find_unique_any_order).
  assert (call (find_pairs choice) view (call (find_unique choice) view acc i) i
          = call (find_pairs choice') view (call (find_unique choice') view acc i) i) as <-.
  { rewrite <- Hu. unfold call at 1 3. rewrite find_pairs_any_order; [done|..].
    - by eapply settles_well_numbered.
    - by eapply settles_all_locked. }
  apply IH.
  - eapply settles_well_numbered; [exact H2|]. by eapply settles_well_numbered.
  - eapply settles_all_locked; [exact H2|]. by eapply settles_all_locked.
Qed.

Lemma solve_round_any_order lvl g :
  well_numbered g → all_locked g →
  solve_round choice lvl g = solve_round choice' lvl g.
Proof.
  intros Hwn Hall. unfold solve_round. repeat case_decide; [| |done].
  - pose proof (sweep_unique_settles choice line (g, [])) as H1.
    pose proof (sweep_unique_settles choice column (sweep_unique choice line (g, []))) as H2.
    rewrite <- (sweep_unique_any_order line (g, [])) by done.
    rewrite <- (sweep_unique_any_order column).
    2: by eapply settles_well_numbered. 2: by eapply settles_all_locked.
    apply sweep_unique_any_order.
    + eapply settles_well_numbered; [exact H2|]. by eapply settles_well_numbered.
    + eapply settles_all_locked; [exact H2|]. by eapply settles_all_locked.
  - pose proof (sweep_unique_pairs_settles choice line (g, [])) as H1.
    pose proof (sweep_unique_pairs_settles choice column
                  (sweep_unique_pairs choice line (g, []))) as H2.
    rewrite <- (sweep_unique_pairs_any_order line (g, [])) by done.
    rewrite <- (sweep_unique_pairs_any_order column).
    2: by eapply settles_well_numbered. 2: by eapply settles_all_locked.
    apply sweep_unique_pairs_any_order.
    + eapply settles_well_numbered; [exact H2|]. by eapply settles_well_numbered.
    + eapply settles_all_locked; [exact H2|]. by eapply settles_all_locked.
Qed.

Lemma solve_any_order lvl g :
  well_numbered g → all_locked g → solve choice lvl g = solve choice' lvl g.
Proof.
  unfold solve. generalize 81. intros n. revert g.
  induction n as [|n IH]; intros g Hwn Hall; [done|]. simpl.
  rewrite <- (solve_round_any_order lvl g) by done.
  destruct (any _); [|done].
  pose proof (solve_round_settles choice lvl g).
  apply IH; [by eapply settles_well_numbered|by eapply settles_all_locked].
Qed.

End AnyOrder.

(** ** Runs on concrete seeds *)

(** The grid [grid_parser] makes of a seed ([reset] if it raises). *)
Definition seeded (s : seed) : Grid := default reset (grid_parser s).

(** A single clue, 5 in the first cell. *)
Definition one_clue : Grid := Eval vm_compute in seeded (Flat [5%Z]).

(** The first line filled up to its last cell, which is left with the
    single candidate 9. *)
Definition eight_clues : Grid :=
  Eval vm_compute in seeded (Flat [1; 2; 3; 4; 5; 6; 7; 8]%Z).

(** Four 1s and four 2s that do not conflict and leave the first cell as the
    only cell of the first line that can hold 1, and the only one that can
    hold 2. *)
Definition two_singles : Grid :=
  Eval vm_compute in
  seeded (Flat [0;0;0;0;0;0;0;0;0; 0;0;0;1;0;0;2;0;0; 0;0;0;2;0;0;1;0;0;
                0;1;0;0;0;0;0;0;0; 0;2;0;0;0;0;0;0;0; 0;0;0;0;0;0;0;0;0;
                0;0;1;0;0;0;0;0;0; 0;0;2;0;0;0;0;0;0]%Z).

(** 3, ..., 8 at the end of the first line and 9 below its first cell: the
    first three cells are left with the candidates 1 and 2. *)
Definition three_pairs : Grid :=
  Eval vm_compute in seeded (Flat [0; 0; 0; 3; 4; 5; 6; 7; 8; 9]%Z).

(** 3, ..., 8 at the end of the first line, and 9 in the columns of its
    first two cells: those two cells are left with the candidates 1 and 2,
    the third cell with 1, 2 and 9. *)
Definition naked_pair : Grid :=
  Eval vm_compute in
  seeded (Flat [0;0;0;3;4;5;6;7;8; 0;0;0;0;0;0;0;0;0; 0;0;0;0;0;0;0;0;0;
                9;0;0;0;0;0;0;0;0; 0;0;0;0;0;0;0;0;0; 0;0;0;0;0;0;0;0;0;
                0;9;0;0;0;0;0;0;0]%Z).

(** The puzzle of the tests of [sudoku.py], as [tools.string_line] reads
    it: 0 for a dot. *)
Definition test_puzzle : list Z :=
  [4;0;3;0;7;0;0;0;0; 0;8;6;2;0;0;0;1;0; 2;0;0;0;0;1;0;0;0;
   0;0;0;4;0;7;0;0;3; 0;6;0;0;0;0;0;2;0; 3;0;0;8;0;6;0;0;0;
   0;0;0;6;0;0;0;0;9; 0;3;0;0;0;5;8;7;0; 0;0;0;0;1;0;4;0;5]%Z.

(** A solved Sudoku given as 81 clues (the solution of [test_puzzle]). *)
Definition solved_seed : list Z :=
  [4;1;3;5;7;8;2;9;6; 5;8;6;2;9;4;3;1;7; 2;7;9;3;6;1;5;4;8;
   1;9;2;4;5;7;6;8;3; 8;6;5;1;3;9;7;2;4; 3;4;7;8;2;6;9;5;1;
   7;5;4;6;8;2;1;3;9; 6;3;1;9;4;5;8;7;2; 9;2;8;7;1;3;4;6;5]%Z.

Definition solved : Grid := Eval vm_compute in seeded (Flat solved_seed).

(** C1 (the code at the failing input).  In [eight_clues] the cell 8 is not
    locked and has the single candidate 9.  [set_values] on that cell locks
    it with value 9 and leaves it with NO candidate, whatever the pop
    order: a locked cell whose candidate set is not the singleton of its
    value. *)
Theorem update_value_leaves_no_candidate (choice : gset nat → nat) :
  grid_parser (Flat [1; 2; 3; 4; 5; 6; 7; 8]%Z) = Some eight_clues ∧
  eight_clues !! 8 = Some {| idnum := 8; value := 0; domain := {[9%Z]}; locked := false |} ∧
  (set_values choice eight_clues {[8]}).1 !! 8
  = Some {| idnum := 8; value := 9; domain := ∅; locked := true |}.
Proof.
  split; [vm_compute; reflexivity|]. split; [vm_compute; reflexivity|].
  rewrite set_values_singleton by (vm_compute; reflexivity).
  vm_compute. reflexivity.
Qed.

(** C2 (the code at the failing input).  In [one_clue] the cell 0 is locked
    with value 5 and candidate set {5}.  After [find_pairs] on its line the
    cell has no candidate left, whatever the pop order: the candidate set
    of a locked cell has changed. *)
Theorem find_pairs_empties_locked_cell (choice : gset nat → nat) :
  grid_parser (Flat [5%Z]) = Some one_clue ∧
  one_clue !! 0 = Some {| idnum := 0; value := 5; domain := {[5%Z]}; locked := true |} ∧
  (find_pairs choice one_clue (line one_clue 0)).1 !! 0
  = Some {| idnum := 0; value := 5; domain := ∅; locked := true |}.
Proof.
  split; [vm_compute; reflexivity|]. split; [vm_compute; reflexivity|].
  rewrite find_pairs_quiet_check by (vm_compute; reflexivity).
  vm_compute. reflexivity.
Qed.

(** C3 (the code at the failing input).  In [one_clue] the cell 0 is locked
    with value 5 and candidate set {5}.  The claim wants [set_values] on
    the worklist {0} to skip it unchanged, and to return true only if some
    cell went from not locked to locked.  Whatever the pop order, the cell
    is processed again: it loses its candidate, and the result is true
    although the locks of the grid are the same as before, so no cell went
    from not locked to locked. *)
Theorem set_values_reprocesses_locked_cell (choice : gset nat → nat) :
  grid_parser (Flat [5%Z]) = Some one_clue ∧
  one_clue !! 0 = Some {| idnum := 0; value := 5; domain := {[5%Z]}; locked := true |} ∧
  (set_values choice one_clue {[0]}).1 !! 0
  = Some {| idnum := 0; value := 5; domain := ∅; locked := true |} ∧
  (set_values choice one_clue {[0]}).2 = true ∧
  locked <$> (set_values choice one_clue {[0]}).1 = locked <$> one_clue.
Proof.
  split; [vm_compute; reflexivity|]. split; [vm_compute; reflexivity|].
  rewrite set_values_singleton by (vm_compute; reflexivity).
  cbn [fst snd]. split; [vm_compute; reflexivity|]. split; [done|].
  vm_compute. reflexivity.
Qed.

Lemma set_values_spec_witness :
  0 ∈ ({[0]} : gset nat) ∧ (∅ : gset nat) = {[0]} ∖ {[0]} ∧
  (∀ cell v, one_clue !! 0 = Some cell → domain cell = {[v]} →
     ∃ g1 cell1,
       g1 !! 0 = Some cell1 ∧ value cell1 = v ∧ locked cell1 = true ∧
       (∀ p, p ≠ 0 → g1 !! p = one_clue !! p) ∧
       set_values_turn pop_first (one_clue, {[0]}, false)
       = ((propagate g1 0).1, ∅ ∪ (propagate g1 0).2, true)) ∧
  (∀ cell, one_clue !! 0 = Some cell → size (domain cell) ≠ 1 →
     set_values_turn pop_first (one_clue, {[0]}, false) = (one_clue, ∅, false)) ∧
  ((set_values pop_first one_clue {[0]}).2 = true ↔
   ∃ n, pops_single pop_first (set_values_loop pop_first n (one_clue, {[0]}, false))).
Proof.
  apply (set_values_spec pop_first one_clue {[0]} false 0 ∅).
  vm_compute. reflexivity.
Defined.

(** C6 (counterexample).  In [two_singles] the digit 1 is a candidate of
    exactly one cell of the first line among those that are not locked,
    the cell 0.  Whatever the pop order, [find_unique] on that line does
    not leave the cell 0 locked with value 1 (it leaves it with value 2,
    of which the cell 0 is the only holder as well). *)
Lemma find_unique_two_singles_counterexample :
  grid_parser (Flat [0;0;0;0;0;0;0;0;0; 0;0;0;1;0;0;2;0;0; 0;0;0;2;0;0;1;0;0;
                     0;1;0;0;0;0;0;0;0; 0;2;0;0;0;0;0;0;0; 0;0;0;0;0;0;0;0;0;
                     0;0;1;0;0;0;0;0;0; 0;0;2;0;0;0;0;0;0]%Z) = Some two_singles ∧
  filter (λ case, holds_candidate two_singles 1%Z case) (line two_singles 0) = [0] ∧
  ¬ ∃ (choice : gset nat → nat) cell,
      (find_unique choice two_singles (line two_singles 0)).1 !! 0 = Some cell ∧
      locked cell = true ∧ value cell = 1%Z.
Proof.
  split; [vm_compute; reflexivity|]. split; [vm_compute; reflexivity|].
  intros (choice & cell & Hc & _ & Hv).
  destruct (find_unique_greatest_single choice two_singles (line two_singles 0) 0 2)
    as (cell' & Hc' & _ & Hv').
  - unfold digits. right. left.
  - vm_compute. reflexivity.
  - intros k Hk.
    assert (k = 3 ∨ k = 4 ∨ k = 5 ∨ k = 6 ∨ k = 7 ∨ k = 8 ∨ k = 9)%Z as Hcases by lia.
    destruct Hcases as [->|[->|[->|[->|[->|[->| ->]]]]]];
      intros H; vm_compute in H; discriminate H.
  - rewrite Hc in Hc'. injection Hc' as <-. lia.
Qed.

Lemma find_unique_hidden_single_witness :
  ∃ cell', (find_unique pop_first two_singles (line two_singles 0)).1 !! 0 = Some cell' ∧
           locked cell' = true ∧ value cell' = 2%Z.
Proof.
  apply (find_unique_hidden_single pop_first two_singles (line two_singles 0) 0 2).
  - unfold digits. right. left.
  - vm_compute. reflexivity.
  - intros k Hk.
    assert (k = 3 ∨ k = 4 ∨ k = 5 ∨ k = 6 ∨ k = 7 ∨ k = 8 ∨ k = 9)%Z as Hcases by lia.
    destruct Hcases as [->|[->|[->|[->|[->|[->| ->]]]]]];
      intros H; vm_compute in H; discriminate H.
Defined.

(** C7 (counterexample).  In [three_pairs] the cells 0 and 1 of the first
    line are not locked and both have the candidates 1 and 2.  Whatever
    the pop order, after [find_pairs] on that line the cell 2, another cell
    of the line, is not locked and still has the candidates 1 and 2. *)
Lemma find_pairs_three_cells_counterexample :
  grid_parser (Flat [0; 0; 0; 3; 4; 5; 6; 7; 8; 9]%Z) = Some three_pairs ∧
  three_pairs !! 0 = Some {| idnum := 0; value := 0; domain := {[1%Z]} ∪ {[2%Z]}; locked := false |} ∧
  three_pairs !! 1 = Some {| idnum := 1; value := 0; domain := {[1%Z]} ∪ {[2%Z]}; locked := false |} ∧
  ¬ ∃ (choice : gset nat → nat) cell,
      (find_pairs choice three_pairs (line three_pairs 0)).1 !! 2 = Some cell ∧
      (locked cell = true ∨ ((1%Z ∉ domain cell) ∧ (2%Z ∉ domain cell))).
Proof.
  split; [vm_compute; reflexivity|]. split; [vm_compute; reflexivity|].
  split; [vm_compute; reflexivity|].
  intros (choice & cell & Hc & H).
  rewrite find_pairs_quiet_check in Hc by (vm_compute; reflexivity).
  vm_compute in Hc. injection Hc as <-.
  destruct H as [H|[H _]]; [discriminate H|]. apply H. vm_compute. set_solver.
Qed.

Lemma find_pairs_naked_pair_witness :
  ∃ cell', (find_pairs pop_first naked_pair (line naked_pair 0)).1 !! 2 = Some cell' ∧
           1%Z ∉ domain cell'.
Proof.
  eexists. split; [vm_compute; reflexivity|].
  eapply (find_pairs_naked_pair pop_first naked_pair (line naked_pair 0) 0 1
            ({[1%Z]} ∪ {[2%Z]}) 2).
  - vm_compute. reflexivity.
  - vm_compute. right. right. left.
  - lia.
  - lia.
  - vm_compute. reflexivity.
  - set_solver.
Defined.

Lemma grid_parser_ignores_bad_clues_witness :
  grid_parser (Flat [5; 5]%Z) = Some (parse_clues reset (clues_of (Flat [5; 5]%Z))) ∧
  (¬ (0 < 5 ≤ 9)%Z →
     parse_clue (parse_clues reset [(0, 5%Z)]) 1 5 = parse_clues reset [(0, 5%Z)]) ∧
  (∀ q cq, parse_clues reset [(0, 5%Z)] !! q = Some cq → locked cq = true →
           value cq = 5%Z → same_unit 1 q →
           parse_clue (parse_clues reset [(0, 5%Z)]) 1 5 = parse_clues reset [(0, 5%Z)]) ∧
  (∀ cp, parse_clues reset [(0, 5%Z)] !! 1 = Some cp → locked cp = true →
         parse_clue (parse_clues reset [(0, 5%Z)]) 1 5 = parse_clues reset [(0, 5%Z)]) ∧
  (∀ q cq, parse_clues reset [(0, 5%Z)] !! q = Some cq → locked cq = true →
           parse_clue (parse_clues reset [(0, 5%Z)]) 1 5 !! q = Some cq ∧
           parse_clues reset (clues_of (Flat [5; 5]%Z)) !! q = Some cq).
Proof.
  apply (grid_parser_ignores_bad_clues (Flat [5; 5]%Z) [(0, 5%Z)] [] 1 5).
  - exact I.
  - reflexivity.
Defined.

(** C4 (the code at the failing input).  [solved] is the grid that
    [grid_parser] makes of a solved Sudoku: every cell is locked and its
    candidate set is the singleton of its value.  [solve] at level 1
    leaves it unchanged.  [solve] at level 2 takes the sole candidate out
    of every cell, whatever the pop order: the grid is not the same after. *)
Theorem solve_level_2_empties_domains (choice : gset nat → nat) :
  grid_parser (Flat solved_seed) = Some solved ∧
  Forall (λ c, locked c = true ∧ domain c = {[value c]}) solved ∧
  solve choice 1 solved = solved ∧
  solve choice 2 solved = (λ c, set_domain c ∅) <$> solved.
Proof.
  assert (well_numbered solved) as Hwn by (vm_compute; reflexivity).
  assert (all_locked solved) as Hall
    by (apply (bool_decide_unpack _); vm_compute; exact I).
  rewrite (solve_any_order choice pop_first 1%Z solved Hwn Hall).
  rewrite (solve_any_order choice pop_first 2%Z solved Hwn Hall).
  split; [vm_compute; reflexivity|].
  split; [apply (bool_decide_unpack _); vm_compute; exact I|].
  split; vm_compute; reflexivity.
Qed.

(** The puzzle of the tests: the cell 40 is unknown after [grid_parser];
    [solve] at level 1 fills it but leaves others unknown, the cell 6 for
    one; [solve] at level 2 fills the grid with [solved_seed]. *)
Example solve_test_puzzle :
  value <$> seeded (Flat test_puzzle) !! 40 = Some 0%Z ∧
  value <$> solve pop_first 1 (seeded (Flat test_puzzle)) !! 40 = Some 3%Z ∧
  value <$> solve pop_first 1 (seeded (Flat test_puzzle)) !! 6 = Some 0%Z ∧
  value <$> solve pop_first 2 (seeded (Flat test_puzzle)) = solved_seed.
Proof. repeat split; vm_compute; reflexivity. Qed.

(** * More of the code: what the methods of [Cell] and [Sudoku] guarantee *)

(** ** The methods of Cell that change a domain *)

Lemma set_domain_same c : set_domain c (domain c) = c.
Proof. by destruct c. Qed.

Lemma shrunk_size_eq (d d' : gset Z) : d' ⊆ d → size d = size d' ↔ d' = d.
Proof.
  intros Hsub. split; [|by intros ->].
  intros Hs. apply set_subseteq_size_eq; [done|lia].
Qed.

Lemma shrunk_flag (c : Cell) (d' : gset Z) :
  d' ⊆ domain c → negb (size (domain c) =? size d') = true ↔ d' ≠ domain c.
Proof.
  intros Hsub. rewrite negb_true_iff, Nat.eqb_neq.
  by rewrite (shrunk_size_eq _ _ Hsub).
Qed.

Lemma reduce_domain_flag c values :
  (reduce_domain c values).2 = true ↔ domain (reduce_domain c values).1 ≠ domain c.
Proof. apply shrunk_flag. set_solver. Qed.

Lemma reduce_domain_unchanged c values :
  (reduce_domain c values).2 = false → (reduce_domain c values).1 = c.
Proof.
  intros Hb. destruct (decide (domain (reduce_domain c values).1 = domain c)) as [Hd|Hne].
  - unfold reduce_domain in *. cbn [fst domain set_domain] in *.
    rewrite Hd. apply set_domain_same.
  - apply reduce_domain_flag in Hne. congruence.
Qed.

(** X1.  [remove_value], [update_domain] and [reduce_domain] return true
    exactly when they have changed the domain (comparing the sizes is
    enough, since they only take candidates away); they touch nothing
    else of the cell, and [remove_value] of [v] is [reduce_domain] of
    the list [[v]]. *)
Theorem domain_methods_report_change (c : Cell) (values : list Z) (v : Z) :
  ((update_domain c values).2 = true ↔ domain (update_domain c values).1 ≠ domain c) ∧
  ((reduce_domain c values).2 = true ↔ domain (reduce_domain c values).1 ≠ domain c) ∧
  ((remove_value c v).2 = true ↔ domain (remove_value c v).1 ≠ domain c) ∧
  (update_domain c values).1 = set_domain c (domain c ∩ list_to_set values) ∧
  (reduce_domain c values).1 = set_domain c (domain c ∖ list_to_set values) ∧
  remove_value c v = reduce_domain c [v].
Proof.
  split; [apply shrunk_flag; set_solver|]. split; [apply reduce_domain_flag|].
  assert (remove_value c v = reduce_domain c [v]) as Hrm.
  { unfold remove_value, reduce_domain.
    assert (list_to_set [v] = ({[v]} : gset Z)) as -> by set_solver.
    case_decide as Hv.
    - f_equal. symmetry. apply shrunk_flag; set_solver.
    - assert (domain c ∖ {[v]} = domain c) as -> by set_solver.
      rewrite set_domain_same. f_equal. rewrite Nat.eqb_refl. done. }
  split; [|done]. rewrite Hrm. apply reduce_domain_flag.
Qed.

(** ** The units of the grid *)

Lemma filter_none {A} (P : A → Prop) `{∀ x, Decision (P x)} (l : list A) :
  (∀ x, x ∈ l → ¬ P x) → filter P l = [].
Proof.
  induction l as [|x l IH]; intros Hn; [done|].
  rewrite filter_cons_False by (apply Hn; left).
  apply IH. intros y Hy. apply Hn. by right.
Qed.

Lemma views_by_index g i :
  well_numbered g →
  line g i = filter (λ p, Nat.eqb i (p / 9)) (seq 0 81) ∧
  column g i = filter (λ p, Nat.eqb i (p mod 9)) (seq 0 81) ∧
  square g i = filter (λ p, Nat.eqb (p / 9 / 3 * 3 + p mod 9 / 3) i) (seq 0 81).
Proof.
  intros H. unfold line, column, square, cell_square, cell_line, cell_column.
  split; [|split].
  - apply (cells_where_numbered (λ p, Nat.eqb i (p / 9)) g H).
  - apply (cells_where_numbered (λ p, Nat.eqb i (p mod 9)) g H).
  - apply (cells_where_numbered (λ p, Nat.eqb (p / 9 / 3 * 3 + p mod 9 / 3) i) g H).
Qed.

(** The cells of line, column and square [i], written out. *)
Definition line_cells (i : nat) : list nat := seq (9 * i) 9.
Definition column_cells (i : nat) : list nat := (λ r, 9 * r + i) <$> seq 0 9.
Definition square_cells (i : nat) : list nat :=
  (λ k, 9 * (3 * (i / 3) + k / 3) + 3 * (i mod 3) + k mod 3) <$> seq 0 9.

Lemma views_in_range :
  Forall (λ i,
            filter (λ p, Nat.eqb i (p / 9)) (seq 0 81) = line_cells i ∧
            filter (λ p, Nat.eqb i (p mod 9)) (seq 0 81) = column_cells i ∧
            filter (λ p, Nat.eqb (p / 9 / 3 * 3 + p mod 9 / 3) i) (seq 0 81)
            = square_cells i) (seq 0 9).
Proof. apply (bool_decide_unpack _). vm_compute. exact I. Qed.

Lemma cell_coordinates_bound p :
  p < 81 → p / 9 < 9 ∧ p mod 9 < 9 ∧ p / 9 / 3 * 3 + p mod 9 / 3 < 9.
Proof.
  intros Hp.
  assert (p / 9 < 9) by (apply Nat.Div0.div_lt_upper_bound; lia).
  assert (p mod 9 < 9) by (apply Nat.mod_upper_bound; lia).
  assert (p / 9 / 3 < 3) by (apply Nat.Div0.div_lt_upper_bound; lia).
  assert (p mod 9 / 3 < 3) by (apply Nat.Div0.div_lt_upper_bound; lia).
  lia.
Qed.

(** X2.  On a grid of 81 cells numbered by position, [line(i)],
    [column(i)] and [square(i)] are, for [i] in 0..8, the nine cells of
    that line, column or 3x3 square in increasing order; for any other
    [i] they are the empty list (no exception).  A cell is in [line(i)]
    exactly when [i] is its [line()], and likewise for columns and
    squares. *)
Theorem views_are_the_units (g : Grid) (i : nat) :
  well_numbered g →
  (i < 9 → line g i = line_cells i ∧ column g i = column_cells i ∧
           square g i = square_cells i) ∧
  (9 ≤ i → line g i = [] ∧ column g i = [] ∧ square g i = []) ∧
  (∀ p cell, g !! p = Some cell →
     (p ∈ line g i ↔ cell_line cell = i) ∧
     (p ∈ column g i ↔ cell_column cell = i) ∧
     (p ∈ square g i ↔ cell_square cell = i)).
Proof.
  intros Hwn. destruct (views_by_index g i Hwn) as (Hl & Hc & Hs).
  split; [|split].
  - intros Hi. rewrite Hl, Hc, Hs.
    pose proof views_in_range as Hall. rewrite Forall_forall in Hall.
    apply Hall, elem_of_seq. lia.
  - intros Hi. rewrite Hl, Hc, Hs.
    split; [|split]; apply filter_none; intros p Hp%elem_of_seq Heq;
      apply Is_true_true, Nat.eqb_eq in Heq;
      pose proof (cell_coordinates_bound p ltac:(lia)); lia.
  - intros p cell Hp. destruct (well_numbered_lookup g p cell Hwn Hp) as [Hid Hp81].
    rewrite Hl, Hc, Hs. unfold cell_square, cell_line, cell_column. rewrite Hid.
    rewrite !list_elem_of_filter, !elem_of_seq, !Is_true_true, !Nat.eqb_eq.
    repeat split; intros; try tauto; try lia; destruct_and?; done.
Qed.

Lemma views_are_the_units_witness :
  (4 < 9 → line reset 4 = line_cells 4 ∧ column reset 4 = column_cells 4 ∧
           square reset 4 = square_cells 4) ∧
  (9 ≤ 4 → line reset 4 = [] ∧ column reset 4 = [] ∧ square reset 4 = []) ∧
  (∀ p cell, reset !! p = Some cell →
     (p ∈ line reset 4 ↔ cell_line cell = 4) ∧
     (p ∈ column reset 4 ↔ cell_column cell = 4) ∧
     (p ∈ square reset 4 ↔ cell_square cell = 4)).
Proof. apply (views_are_the_units reset 4). reflexivity. Defined.

(** ** propagate, exactly *)

Lemma propagate_step_other v acc n p :
  p ≠ n → (propagate_step v acc n).1 !! p = acc.1 !! p.
Proof.
  intros Hp. unfold propagate_step. destruct (acc.1 !! n) as [nc|]; [|done].
  destruct (locked nc); [done|]. case_decide; [|done]. cbn [fst].
  by rewrite list_lookup_insert_ne.
Qed.

Lemma propagate_fold_other v l acc p :
  p ∉ l → (foldl (propagate_step v) acc l).1 !! p = acc.1 !! p.
Proof.
  revert acc. induction l as [|n l IH]; intros acc Hp; [done|].
  apply not_elem_of_cons in Hp as [Hn Hp]. simpl.
  rewrite IH by done. by apply propagate_step_other.
Qed.

(** What a turn of the loop of [propagate] makes of the cell it visits. *)
Definition struck (v : Z) (cp : Cell) : Cell :=
  if locked cp then cp else set_domain cp (domain cp ∖ {[v]}).

(** The cell is reported by [propagate]: it is not locked, it has the
    value among its candidates, and one candidate is left without it. *)
Definition forced_by (v : Z) (cp : Cell) : Prop :=
  locked cp = false ∧ v ∈ domain cp ∧ size (domain cp ∖ {[v]}) = 1.

Lemma propagate_step_visited v acc n nc :
  acc.1 !! n = Some nc →
  (propagate_step v acc n).1 !! n = Some (struck v nc) ∧
  (∀ p, p ∈ (propagate_step v acc n).2 ↔ p ∈ acc.2 ∨ (p = n ∧ forced_by v nc)).
Proof.
  intros Hn. unfold propagate_step, struck, forced_by. rewrite Hn.
  destruct (locked nc) eqn:Hl; [split; [done|]; intros p; naive_solver|].
  case_decide as Hv; cbn [fst snd].
  - split; [apply list_lookup_insert_eq; by eapply lookup_lt_Some|].
    intros p. case_decide; set_solver.
  - split; [|intros p; naive_solver].
    rewrite Hn. f_equal. assert (domain nc ∖ {[v]} = domain nc) as -> by set_solver.
    symmetry. apply set_domain_same.
Qed.

Lemma propagate_fold_exact (g : Grid) v l acc :
  NoDup l → (∀ p, p ∈ l → acc.1 !! p = g !! p) →
  (∀ p cp, p ∈ l → g !! p = Some cp →
     (foldl (propagate_step v) acc l).1 !! p = Some (struck v cp)) ∧
  (∀ p, p ∈ (foldl (propagate_step v) acc l).2 ↔
        p ∈ acc.2 ∨ (p ∈ l ∧ ∃ cp, g !! p = Some cp ∧ forced_by v cp)).
Proof.
  revert acc. induction l as [|n l IH]; intros acc Hnd Hacc.
  { split; [intros p cp Hp; by apply elem_of_nil in Hp|].
    intros p. simpl. split; [auto|]. intros [?|[Hp _]]; [done|by apply elem_of_nil in Hp]. }
  apply NoDup_cons in Hnd as [Hn Hnd]. simpl.
  destruct (IH (propagate_step v acc n) Hnd) as [IHg IHs].
  { intros p Hp. rewrite propagate_step_other; [apply Hacc; by right|].
    intros ->. done. }
  split.
  - intros p cp Hp Hcp. apply elem_of_cons in Hp as [->|Hp]; [|by apply IHg].
    rewrite propagate_fold_other by done.
    apply propagate_step_visited. rewrite Hacc; [done|left].
  - intros p. rewrite IHs. destruct (g !! n) as [nc|] eqn:Hgn.
    + destruct (propagate_step_visited v acc n nc) as [_ Hset].
      { rewrite Hacc; [done|left]. }
      rewrite Hset, elem_of_cons. split.
      * intros [[?|[-> ?]]|[? ?]]; [by left|right|right]; eauto.
      * intros [?|[[->|?] (cp & Hcp & ?)]]; [by left; left| |by right; eauto].
        left; right. split; [done|]. congruence.
    + assert (propagate_step v acc n = acc) as ->.
      { unfold propagate_step. rewrite Hacc by left. by rewrite Hgn. }
      rewrite elem_of_cons. split.
      * intros [?|[? ?]]; [by left|right; eauto].
      * intros [?|[[->|?] (cp & Hcp & ?)]]; [by left|congruence|right; eauto].
Qed.

Lemma neighbors_same_unit g c p :
  well_numbered g → c < 81 → p ∈ neighbors g c ↔ p < 81 ∧ same_unit p c.
Proof.
  intros Hwn Hc. by rewrite (neighbors_numbered g c Hwn Hc), units_of_same_unit.
Qed.

Lemma propagate_cells (g : Grid) (c : nat) (cell : Cell) :
  well_numbered g → g !! c = Some cell →
  (∀ p cp, g !! p = Some cp →
     (propagate g c).1 !! p
     = Some (if decide (same_unit p c) then struck (value cell) cp else cp)) ∧
  (∀ p, p ∈ (propagate g c).2 ↔
        ∃ cp, g !! p = Some cp ∧ same_unit p c ∧ forced_by (value cell) cp).
Proof.
  intros Hwn Hc.
  assert (c < 81) as Hc81 by (by eapply well_numbered_lookup).
  destruct (propagate_fold_exact g (value cell) (neighbors g c) (g, ∅)) as [Hg Hs].
  { unfold neighbors. rewrite Hc. apply NoDup_elements. }
  { done. }
  assert (∀ p cp, g !! p = Some cp → p ∈ neighbors g c ↔ same_unit p c) as Hnb.
  { intros p cp Hp. rewrite (neighbors_same_unit g c p Hwn Hc81).
    assert (p < 81) by (by eapply well_numbered_lookup). tauto. }
  unfold propagate. rewrite Hc. split.
  - intros p cp Hp. case_decide as Hsu.
    + apply Hg; [by eapply Hnb|done].
    + rewrite propagate_fold_other; [done|]. by rewrite (Hnb p cp Hp).
  - intros p. rewrite Hs. split.
    + intros [Hp|[Hp (cp & Hcp & Hf)]]; [set_solver|].
      exists cp. split; [done|]. split; [by eapply Hnb|done].
    + intros (cp & Hcp & Hsu & Hf). right. split; [by eapply Hnb|eauto].
Qed.

(** X3.  On a grid of 81 cells numbered by position, [propagate(cell)]
    takes the value of the cell out of the domain of every cell of its
    line, column and square that is not locked, and changes nothing else:
    no locked cell, no cell outside those units, no value, no lock.  The
    set it returns holds exactly the cells that are not locked, had the
    value among their candidates and are left with one candidate. *)
Theorem propagate_exact (g : Grid) (c : nat) (cell : Cell) :
  well_numbered g → g !! c = Some cell →
  (∀ p cp, g !! p = Some cp →
     (propagate g c).1 !! p
     = Some (if decide (same_unit p c) then struck (value cell) cp else cp)) ∧
  (∀ p, p ∈ (propagate g c).2 ↔
        ∃ cp, g !! p = Some cp ∧ same_unit p c ∧ forced_by (value cell) cp).
Proof. apply propagate_cells. Qed.

(** The grid in which [grid_parser] calls [propagate] on the cell 7, while
    it reads [1; 2; 3; 4; 5; 6; 7; 8]: the cell 7 has just been locked on
    8, which is still a candidate of the 13 cells of its line, column and
    square that are not locked.  [propagate] takes it out of them, leaves
    [eight_clues] and reports the cell 8, left with the candidate 9
    alone. *)
Definition fresh_eighth : Grid :=
  Eval vm_compute in
    <[7 := {| idnum := 7; value := 8; domain := {[8%Z]}; locked := true |}]>
      (seeded (Flat [1; 2; 3; 4; 5; 6; 7]%Z)).

Lemma propagate_exact_witness :
  fresh_eighth !! 8
  = Some {| idnum := 8; value := 0; domain := {[8%Z; 9%Z]}; locked := false |} ∧
  propagate fresh_eighth 7 = (eight_clues, {[8]}) ∧
  (∀ p cp, fresh_eighth !! p = Some cp →
     (propagate fresh_eighth 7).1 !! p
     = Some (if decide (same_unit p 7)
             then struck (value {| idnum := 7; value := 8; domain := {[8%Z]};
                                   locked := true |}) cp
             else cp)) ∧
  (∀ p, p ∈ (propagate fresh_eighth 7).2 ↔
        ∃ cp, fresh_eighth !! p = Some cp ∧ same_unit p 7 ∧
              forced_by (value {| idnum := 7; value := 8; domain := {[8%Z]};
                                  locked := true |}) cp).
Proof.
  split; [vm_compute; reflexivity|]. split; [vm_compute; reflexivity|].
  apply (propagate_exact fresh_eighth 7); vm_compute; reflexivity.
Defined.

(** X4.  [propagate] a second time on the same cell changes nothing and
    returns the empty set. *)
Theorem propagate_twice (g : Grid) (c : nat) :
  well_numbered g →
  propagate (propagate g c).1 c = ((propagate g c).1, ∅).
Proof.
  intros Hwn. destruct (g !! c) as [cell|] eqn:Hc.
  2:{ unfold propagate at 2 3. rewrite Hc. cbn [fst]. unfold propagate. by rewrite Hc. }
  assert (c < 81) as Hc81 by (by eapply well_numbered_lookup).
  pose proof (propagate_erodes g c) as He.
  destruct (erodes_lookup _ _ _ _ He Hc) as (cell' & Hc' & _ & Hv & _).
  assert (well_numbered (propagate g c).1) as Hwn'
    by (eapply settles_well_numbered; [by apply erodes_settles|done]).
  apply (propagate_nothing _ c cell' Hc').
  intros n nc Hn Hnc. rewrite (neighbors_numbered _ c Hwn' Hc81) in Hn.
  rewrite <- (neighbors_numbered g c Hwn Hc81) in Hn.
  destruct (locked nc) eqn:Hl; [by left|right]. rewrite Hv.
  by apply (propagate_clears g c cell n Hc Hn nc Hnc).
Qed.

Lemma propagate_twice_witness :
  fresh_eighth !! 8
  = Some {| idnum := 8; value := 0; domain := {[8%Z; 9%Z]}; locked := false |} ∧
  propagate fresh_eighth 7 = (eight_clues, {[8]}) ∧
  propagate (propagate fresh_eighth 7).1 7 = ((propagate fresh_eighth 7).1, ∅).
Proof.
  split; [vm_compute; reflexivity|]. split; [vm_compute; reflexivity|].
  apply (propagate_twice fresh_eighth 7). vm_compute. reflexivity.
Defined.

(** ** What the solver never does, and what set_values leaves behind *)

Lemma settles_candidates g g' : settles g g' → candidates_left g' ≤ candidates_left g.
Proof.
  unfold candidates_left. induction 1 as [|c c' g g' (_&Hd&_) _ IH]; csimpl; [done|].
  pose proof (subseteq_size _ _ Hd). lia.
Qed.

(** X5.  [set_values], [find_unique], [find_pairs] and [solve] never give
    a candidate back to a cell, never unlock a cell, never renumber or
    add or drop a cell, and never change the value of a locked cell whose
    domain holds nothing but that value: between the call and the return
    every cell [settles].  So the number of candidates left and the
    number of cells that are not locked never go up. *)
Theorem solver_only_settles (choice : gset nat → nat) (lvl : Z) (g : Grid)
    (cells : gset nat) (related_cells : list nat) :
  settles g (set_values choice g cells).1 ∧
  settles g (find_unique choice g related_cells).1 ∧
  settles g (find_pairs choice g related_cells).1 ∧
  settles g (solve choice lvl g) ∧
  length (solve choice lvl g) = length g ∧
  candidates_left (solve choice lvl g) ≤ candidates_left g ∧
  unsettled (solve choice lvl g) ≤ unsettled g.
Proof.
  pose proof (solve_settles choice lvl g) as Hs.
  split; [apply set_values_settles|]. split; [apply find_unique_settles|].
  split; [apply find_pairs_settles|]. split; [done|].
  split; [by apply settles_length|].
  split; [by apply settles_candidates|by apply settles_unsettled].
Qed.

Section Closed.

Variable choice : gset nat → nat.

(** Every cell with exactly one candidate is in the worklist, or is a
    cell of [g0], outside [cells0], that has not changed. *)
Definition singles_pending (g0 : Grid) (cells0 : gset nat)
    (s : Grid * gset nat * bool) : Prop :=
  ∀ p cell', s.1.1 !! p = Some cell' → size (domain cell') = 1 →
    p ∈ s.1.2 ∨ (g0 !! p = Some cell' ∧ p ∉ cells0).

Lemma set_values_turn_pending g0 cells0 s :
  singles_pending g0 cells0 s → singles_pending g0 cells0 (set_values_turn choice s).
Proof.
  intros HI. unfold set_values_turn.
  destruct (set_pop choice s.1.2) as [[c cells]|] eqn:Hpop; [|done].
  apply set_pop_Some in Hpop as [Hc ->].
  destruct (cell_update_value s.1.1 c).2 eqn:Hb; cbn [fst snd].
  - destruct (cell_update_value_true _ _ Hb) as (cell & v & Hcell & Hv & Hg1).
    intros p cell' Hp Hs. cbn [fst snd] in *.
    destruct (propagate_reports _ _ _ _ Hp) as [Hsame|Hrep].
    + rewrite Hg1 in Hsame. destruct (decide (p = c)) as [->|Hpc].
      * rewrite list_lookup_insert_eq in Hsame by (by eapply lookup_lt_Some).
        injection Hsame as <-. cbn [domain] in Hs. by rewrite size_empty in Hs.
      * rewrite list_lookup_insert_ne in Hsame by done.
        destruct (HI p cell' Hsame Hs) as [?|?]; [left; set_solver|by right].
    + left. specialize (Hrep Hs). set_solver.
  - rewrite (cell_update_value_false _ _ Hb). intros p cell' Hp Hs. cbn [fst snd] in *.
    destruct (HI p cell' Hp Hs) as [Hin|?]; [left|by right].
    assert (p ≠ c); [|set_solver]. intros ->.
    assert ((cell_update_value s.1.1 c).2 = true); [|congruence].
    apply cell_update_value_true_iff. eauto.
Qed.

Lemma set_values_loop_pending g0 cells0 fuel s :
  singles_pending g0 cells0 s →
  singles_pending g0 cells0 (set_values_loop choice fuel s).
Proof.
  revert s. induction fuel as [|fuel IH]; intros s HI; [done|].
  rewrite set_values_loop_S. by apply IH, set_values_turn_pending.
Qed.

Lemma set_values_closed (g : Grid) (cells : gset nat) (p : nat) (cell' : Cell) :
  (set_values choice g cells).1 !! p = Some cell' → size (domain cell') = 1 →
  g !! p = Some cell' ∧ p ∉ cells.
Proof.
  intros Hp Hs.
  pose proof (set_values_loop_pending g cells (size cells + candidates_left g)
                (g, cells, false)) as HI.
  destruct (HI ltac:(intros q cq Hq _; cbn [fst snd] in *;
                     destruct (decide (q ∈ cells)); [by left|by right])
               p cell' Hp Hs) as [Hin|?]; [|done].
  rewrite (set_values_loop_drains choice _ (g, cells, false)) in Hin by done.
  set_solver.
Qed.

(** X6.  After [set_values] no cell that was in the worklist has exactly
    one candidate: a cell that has exactly one candidate after the call is
    a cell outside the worklist that the call has not touched. *)
Theorem set_values_closes (g : Grid) (cells : gset nat) (p : nat) (cell' : Cell) :
  (set_values choice g cells).1 !! p = Some cell' → size (domain cell') = 1 →
  g !! p = Some cell' ∧ p ∉ cells.
Proof. apply set_values_closed. Qed.

End Closed.

Lemma set_values_closes_witness :
  eight_clues !! 8 = Some {| idnum := 8; value := 0; domain := {[9%Z]}; locked := false |} ∧
  8 ∉ ({[0]} : gset nat).
Proof.
  apply (set_values_closes pop_first eight_clues {[0]} 8); vm_compute; reflexivity.
Defined.

(** ** The results of the techniques tell whether the grid has changed *)

(** Candidates left plus cells that are not locked: what every change
    of the solver takes from. *)
Definition work_left (g : Grid) : nat := candidates_left g + unsettled g.

Lemma settles_work_left g g' : settles g g' → work_left g' ≤ work_left g.
Proof.
  intros Hs. unfold work_left.
  pose proof (settles_candidates _ _ Hs). pose proof (settles_unsettled _ _ Hs). lia.
Qed.

Section Flags.

Variable choice : gset nat → nat.

Lemma set_values_turn_change s :
  (set_values_turn choice s).2 = s.2 ∧ (set_values_turn choice s).1.1 = s.1.1 ∨
  (set_values_turn choice s).2 = true ∧
  candidates_left (set_values_turn choice s).1.1 < candidates_left s.1.1.
Proof.
  unfold set_values_turn. destruct (set_pop choice s.1.2) as [[c cells]|]; [|by left].
  destruct (cell_update_value s.1.1 c).2 eqn:Hb; cbn [fst snd].
  - right. split; [done|].
    pose proof (cell_update_value_candidates _ _ Hb).
    pose proof (propagate_candidates (cell_update_value s.1.1 c).1 c). lia.
  - left. by rewrite (cell_update_value_false _ _ Hb).
Qed.

Lemma set_values_loop_change fuel s :
  (set_values_loop choice fuel s).2 = s.2 ∧ (set_values_loop choice fuel s).1.1 = s.1.1 ∨
  (set_values_loop choice fuel s).2 = true ∧
  candidates_left (set_values_loop choice fuel s).1.1 < candidates_left s.1.1.
Proof.
  revert s. induction fuel as [|fuel IH]; intros s; [by left|].
  rewrite set_values_loop_S.
  destruct (IH (set_values_turn choice s)) as [[-> ->]|[-> Hlt]];
    destruct (set_values_turn_change s) as [[? ?]|[? ?]]; [by left|by right|right..];
    (split; [done|congruence || lia]).
Qed.

Lemma set_values_change g cells :
  (set_values choice g cells).2 = false ∧ (set_values choice g cells).1 = g ∨
  (set_values choice g cells).2 = true ∧
  candidates_left (set_values choice g cells).1 < candidates_left g.
Proof. apply (set_values_loop_change _ (g, cells, false)). Qed.

Lemma set_values_nothing g : set_values choice g ∅ = (g, false).
Proof.
  unfold set_values. by rewrite (set_values_loop_empty choice _ (g, ∅, false)).
Qed.

Lemma unsettled_lock (g : Grid) p cell newc :
  g !! p = Some cell → locked newc = true →
  unsettled (<[p := newc]> g) + (if locked cell then 0 else 1) = unsettled g.
Proof.
  intros Hp Hl. unfold unsettled.
  pose proof (sum_list_insert (λ c, if locked c then 0 else 1) g p cell newc Hp) as H.
  cbn beta in H. rewrite Hl in H. lia.
Qed.

Lemma force_unique_change g0 related_cells acc v :
  acc = (g0, ∅, false) ∨ acc.2 = true ∧ unsettled acc.1.1 < unsettled g0 →
  force_unique acc (val_entry g0 related_cells v) = (g0, ∅, false) ∨
  (force_unique acc (val_entry g0 related_cells v)).2 = true ∧
  unsettled (force_unique acc (val_entry g0 related_cells v)).1.1 < unsettled g0.
Proof.
  intros Hacc. unfold force_unique, val_entry. cbn [fst snd].
  destruct (filter _ related_cells) as [|c [|]] eqn:Hf; try done.
  destruct (acc.1.1 !! c) as [cell|] eqn:Hc; [|done]. cbn [fst snd].
  right. split; [done|].
  rewrite (erodes_unsettled _ _ (propagate_erodes _ c)).
  pose proof (unsettled_lock acc.1.1 c cell
                {| idnum := idnum cell; value := v; domain := {[v]}; locked := true |}
                Hc eq_refl) as Hu.
  destruct Hacc as [->|[_ Hlt]]; [|lia].
  cbn [fst snd] in *.
  assert (c ∈ filter (λ case, holds_candidate g0 v case) related_cells) as Hin
    by (rewrite Hf; left).
  apply list_elem_of_filter in Hin as [Hh _].
  apply Is_true_true, holds_candidate_true in Hh as (c0 & Hc0 & Hl0 & _).
  rewrite Hc in Hc0. injection Hc0 as <-. rewrite Hl0 in Hu. lia.
Qed.

Lemma force_unique_fold_change g0 related_cells l acc :
  acc = (g0, ∅, false) ∨ acc.2 = true ∧ unsettled acc.1.1 < unsettled g0 →
  foldl force_unique acc (val_entry g0 related_cells <$> l) = (g0, ∅, false) ∨
  (foldl force_unique acc (val_entry g0 related_cells <$> l)).2 = true ∧
  unsettled (foldl force_unique acc (val_entry g0 related_cells <$> l)).1.1 < unsettled g0.
Proof.
  revert acc. induction l as [|v l IH]; intros acc Hacc; [done|].
  csimpl. apply IH. by apply force_unique_change.
Qed.

Lemma find_unique_locks g related_cells :
  find_unique choice g related_cells = (g, false) ∨
  (find_unique choice g related_cells).2 = true ∧
  unsettled (find_unique choice g related_cells).1 < unsettled g.
Proof.
  unfold find_unique.
  destruct (force_unique_fold_change g related_cells digits (g, ∅, false)) as [Hn|[Hb Hlt]];
    [by left|..]; rewrite <- dico_val_entries in *.
  - left. rewrite Hn. cbn [fst snd]. by rewrite set_values_nothing.
  - right. rewrite Hb, orb_true_r. split; [done|]. cbn [fst].
    pose proof (set_values_settles choice
                  (foldl force_unique (g, ∅, false) (dico_val g related_cells)).1.1
                  (foldl force_unique (g, ∅, false) (dico_val g related_cells)).1.2) as Hs'.
    pose proof (settles_unsettled _ _ Hs'). lia.
Qed.

Lemma find_unique_change g related_cells :
  find_unique choice g related_cells = (g, false) ∨
  (find_unique choice g related_cells).2 = true ∧
  work_left (find_unique choice g related_cells).1 < work_left g.
Proof.
  destruct (find_unique_locks g related_cells) as [?|[? ?]]; [by left|right].
  split; [done|]. unfold work_left.
  pose proof (settles_candidates _ _ (find_unique_settles choice g related_cells)). lia.
Qed.

Lemma reduce_others_change key pair_list acc case :
  reduce_others key pair_list acc case = acc ∨
  (reduce_others key pair_list acc case).2 = true ∧
  candidates_left (reduce_others key pair_list acc case).1 < candidates_left acc.1.
Proof.
  unfold reduce_others. case_decide; [by left|].
  destruct (acc.1 !! case) as [c|] eqn:Hc; [|by left].
  cbn [fst snd]. destruct (reduce_domain c (elements key)).2 eqn:Hb.
  - right. split; [done|]. unfold candidates_left.
    pose proof (sum_list_insert (λ c, size (domain c)) acc.1 case c
                  (reduce_domain c (elements key)).1 Hc) as Hsum.
    cbn beta in Hsum.
    assert (size (domain (reduce_domain c (elements key)).1) < size (domain c)); [|lia].
    apply subset_size. split; [simpl; set_solver|].
    intros Hsub. apply (proj1 (reduce_domain_flag c (elements key)) Hb).
    apply leibniz_equiv. simpl in *. set_solver.
  - left. destruct acc as [g b]. cbn [fst snd] in *. f_equal.
    rewrite (reduce_domain_unchanged _ _ Hb). by apply list_insert_id.
Qed.

(** One change report after another. *)
Definition changed_or_same (acc res : Grid * bool) : Prop :=
  res = acc ∨ res.2 = true ∧ candidates_left res.1 < candidates_left acc.1.

Lemma changed_or_same_trans a b c :
  changed_or_same a b → changed_or_same b c → changed_or_same a c.
Proof.
  intros [->|[? ?]] [->|[? ?]]; [by left|by right|by right|right]. split; [done|lia].
Qed.

Lemma reduce_pair_change related_cells acc kl :
  changed_or_same acc (reduce_pair related_cells acc kl).
Proof.
  unfold reduce_pair. case_decide; [|by left].
  generalize related_cells. intros l. revert acc.
  induction l as [|x l IH]; intros acc; [by left|]. simpl.
  eapply changed_or_same_trans; [apply reduce_others_change|apply IH].
Qed.

Lemma reduce_pair_fold_change related_cells l acc :
  changed_or_same acc (foldl (reduce_pair related_cells) acc l).
Proof.
  revert acc. induction l as [|x l IH]; intros acc; [by left|]. simpl.
  eapply changed_or_same_trans; [apply reduce_pair_change|apply IH].
Qed.

Lemma find_pairs_change g related_cells :
  find_pairs choice g related_cells = (g, false) ∨
  (find_pairs choice g related_cells).2 = true ∧
  work_left (find_pairs choice g related_cells).1 < work_left g.
Proof.
  unfold find_pairs.
  pose proof (reduce_pair_fold_settles related_cells (dico_paires g related_cells) (g, false))
    as Hs.
  pose proof (reduce_pair_fold_change related_cells (dico_paires g related_cells) (g, false))
    as Hch.
  set (s := foldl (reduce_pair related_cells) (g, false) (dico_paires g related_cells)) in *.
  pose proof (set_values_settles choice s.1 (list_to_set related_cells)) as Hs'.
  cbn [fst snd] in *.
  destruct (set_values_change s.1 (list_to_set related_cells)) as [[Hb Hg]|[Hb Hlt]].
  - destruct Hch as [->|[Hsb Hlt]].
    + left. cbn [fst snd] in *. by rewrite Hb, Hg.
    + right. rewrite Hsb, orb_true_r. split; [done|]. rewrite Hg. unfold work_left.
      pose proof (settles_unsettled _ _ Hs). cbn [fst] in *. lia.
  - right. rewrite Hb. split; [done|]. unfold work_left.
    pose proof (settles_unsettled _ _ Hs'). pose proof (settles_unsettled _ _ Hs).
    pose proof (settles_candidates _ _ Hs). cbn [fst] in *. lia.
Qed.

(** X7.  [set_values], [find_unique] and [find_pairs] return False
    exactly when they leave the grid as it was.  When [find_unique]
    returns True the grid has fewer cells that are not locked; when
    [set_values] or [find_pairs] returns True the grid has fewer
    candidates, or as many and fewer cells that are not locked. *)
Theorem techniques_report_change (g : Grid) (cells : gset nat) (related_cells : list nat) :
  ((set_values choice g cells).2 = false ↔ (set_values choice g cells).1 = g) ∧
  ((find_unique choice g related_cells).2 = false ↔
   (find_unique choice g related_cells).1 = g) ∧
  ((find_pairs choice g related_cells).2 = false ↔
   (find_pairs choice g related_cells).1 = g) ∧
  ((set_values choice g cells).2 = true →
   candidates_left (set_values choice g cells).1 < candidates_left g) ∧
  ((find_unique choice g related_cells).2 = true →
   unsettled (find_unique choice g related_cells).1 < unsettled g) ∧
  ((find_pairs choice g related_cells).2 = true →
   work_left (find_pairs choice g related_cells).1 < work_left g).
Proof.
  assert (∀ (m : Grid → nat) (r : Grid * bool),
            r = (g, false) ∨ r.2 = true ∧ m r.1 < m g →
            (r.2 = false ↔ r.1 = g) ∧ (r.2 = true → m r.1 < m g)) as Hboth.
  { intros m r [->|[Hb Hlt]]; [split; [done|by intros [=]]|].
    split; [|done]. split; [congruence|]. intros Hg. rewrite Hg in Hlt. lia. }
  destruct (Hboth candidates_left (set_values choice g cells)) as [H1 H1'].
  { destruct (set_values_change g cells) as [[Hb Hg]|[Hb Hlt]]; [left|by right].
    destruct (set_values choice g cells). simpl in *. congruence. }
  destruct (Hboth unsettled (find_unique choice g related_cells)
              (find_unique_locks g related_cells)) as [H2 H2'].
  destruct (Hboth work_left (find_pairs choice g related_cells)
              (find_pairs_change g related_cells)) as [H3 H3'].
  done.
Qed.

End Flags.

(** ** The rounds of [solve] *)

(** What a run of calls does to (grid, results): nothing, with no new
    True in the results, or a True and a smaller measure [m]. *)
Definition progress (m : Grid → nat) (a b : Grid * list bool) : Prop :=
  (b.1 = a.1 ∧ any b.2 = any a.2) ∨ (any b.2 = true ∧ m b.1 < m a.1).

Lemma progress_refl m a : progress m a a.
Proof. by left. Qed.

Lemma progress_trans m a b c : progress m a b → progress m b c → progress m a c.
Proof.
  unfold progress. intros [[Hg Ha]|[Ha Hlt]] [[Hg' Ha']|[Ha' Hlt']].
  - left. split; congruence.
  - right. split; [done|]. by rewrite <- Hg.
  - right. split; [congruence|]. by rewrite Hg'.
  - right. split; [done|lia].
Qed.

Lemma any_snoc results b : any (results ++ [b]) = any results || b.
Proof. unfold any. rewrite existsb_app. simpl. by rewrite orb_false_r. Qed.

Lemma call_progress m technique view acc i :
  (∀ g related_cells,
     technique g related_cells = (g, false) ∨
     (technique g related_cells).2 = true ∧ m (technique g related_cells).1 < m g) →
  progress m acc (call technique view acc i).
Proof.
  intros Ht. unfold call, progress. cbn [fst snd]. rewrite any_snoc.
  destruct (Ht acc.1 (view acc.1 i)) as [->|[-> ?]]; [left|right].
  - by rewrite orb_false_r.
  - by rewrite orb_true_r.
Qed.

Section Rounds.

Variable choice : gset nat → nat.

Lemma sweep_unique_progress m view acc :
  (∀ g related_cells,
     find_unique choice g related_cells = (g, false) ∨
     (find_unique choice g related_cells).2 = true ∧
     m (find_unique choice g related_cells).1 < m g) →
  progress m acc (sweep_unique choice view acc).
Proof.
  intros Hu. unfold sweep_unique. generalize (seq 0 9). intros l. revert acc.
  induction l as [|i l IH]; intros acc; [apply progress_refl|]. simpl.
  eapply progress_trans; [by apply call_progress|apply IH].
Qed.

Lemma sweep_unique_pairs_progress view acc :
  progress work_left acc (sweep_unique_pairs choice view acc).
Proof.
  unfold sweep_unique_pairs. generalize (seq 0 9). intros l. revert acc.
  induction l as [|i l IH]; intros acc; [apply progress_refl|]. simpl.
  eapply progress_trans; [|apply IH].
  eapply progress_trans; apply call_progress.
  - apply find_unique_change.
  - apply find_pairs_change.
Qed.

Lemma solve_round_progress lvl g :
  progress work_left (g, []) (solve_round choice lvl g).
Proof.
  unfold solve_round. repeat case_decide; [| |apply progress_refl].
  - repeat (eapply progress_trans; [|apply sweep_unique_progress, find_unique_change]).
    apply progress_refl.
  - repeat (eapply progress_trans; [|apply sweep_unique_pairs_progress]).
    apply progress_refl.
Qed.

Lemma solve_round_locks g : progress unsettled (g, []) (solve_round choice 1 g).
Proof.
  unfold solve_round. rewrite decide_True by done.
  repeat (eapply progress_trans; [|apply sweep_unique_progress, find_unique_locks]).
  apply progress_refl.
Qed.

Lemma solve_loop_S budget lvl g :
  solve_loop choice (S budget) lvl g
  = if any (solve_round choice lvl g).2
    then solve_loop choice budget lvl (solve_round choice lvl g).1
    else (solve_round choice lvl g).1.
Proof. done. Qed.

Lemma solve_loop_settles budget lvl g : settles g (solve_loop choice budget lvl g).
Proof.
  revert g. induction budget as [|n IH]; intros g; [reflexivity|]. rewrite solve_loop_S.
  destruct (any _); [|apply solve_round_settles].
  etrans; [apply solve_round_settles|apply IH].
Qed.

(** X8.  A round of [solve] has no True among its results exactly when
    it leaves the grid as it was, and [solve] returns the grid unchanged
    exactly when its first round does.  Otherwise the grid it returns has
    fewer candidates, or as many and fewer cells that are not locked. *)
Theorem solve_stops_when_unchanged (lvl : Z) (g : Grid) :
  (any (solve_round choice lvl g).2 = false ↔ (solve_round choice lvl g).1 = g) ∧
  (solve choice lvl g = g ↔ (solve_round choice lvl g).1 = g) ∧
  (solve choice lvl g ≠ g → work_left (solve choice lvl g) < work_left g).
Proof.
  pose proof (solve_round_progress lvl g) as Hr. unfold progress in Hr.
  cbn [fst snd] in Hr. change (any []) with false in Hr.
  assert (any (solve_round choice lvl g).2 = true →
          work_left (solve choice lvl g) < work_left g) as Hless.
  { intros Hany. destruct Hr as [[_ ?]|[_ Hlt]]; [congruence|].
    unfold solve. rewrite solve_loop_S, Hany.
    pose proof (settles_work_left _ _
                  (solve_loop_settles 80 lvl (solve_round choice lvl g).1)). lia. }
  assert (any (solve_round choice lvl g).2 = false → solve choice lvl g = g) as Hsame.
  { intros Hany. destruct Hr as [[? _]|[? _]]; [|congruence].
    unfold solve. by rewrite solve_loop_S, Hany. }
  split; [|split].
  - split; [intros Hany; destruct Hr as [[? _]|[? _]]; congruence|].
    intros Hg. destruct Hr as [[_ ?]|[_ Hlt]]; [done|]. rewrite Hg in Hlt. lia.
  - split.
    + intros Hg. destruct (any (solve_round choice lvl g).2) eqn:Hany.
      * specialize (Hless eq_refl). rewrite Hg in Hless. lia.
      * destruct Hr as [[? _]|[? _]]; congruence.
    + intros Hg. apply Hsame. destruct Hr as [[_ ?]|[_ Hlt]]; [done|].
      rewrite Hg in Hlt. lia.
  - intros Hne. destruct (any (solve_round choice lvl g).2) eqn:Hany; [by apply Hless|].
    destruct Hne. by apply Hsame.
Qed.

Lemma solve_loop_1_stable budget g :
  unsettled g ≤ budget →
  solve_round choice 1 (solve_loop choice budget 1 g)
  = (solve_loop choice budget 1 g, (solve_round choice 1 (solve_loop choice budget 1 g)).2) ∧
  any (solve_round choice 1 (solve_loop choice budget 1 g)).2 = false.
Proof.
  revert g. induction budget as [|n IH]; intros g Hn.
  - cbn [solve_loop].
    pose proof (solve_round_locks g) as [[Hg Ha]|[_ Hlt]]; [|cbn [fst] in Hlt; lia].
    cbn [fst snd] in *. split; [|done]. rewrite <- Hg at 2. by destruct (solve_round _ _ _).
  - rewrite solve_loop_S.
    pose proof (solve_round_locks g) as [[Hg Ha]|[Ha Hlt]]; cbn [fst snd] in *.
    + change (any []) with false in Ha. rewrite Ha, Hg.
      split; [|done]. rewrite <- Hg at 2. by destruct (solve_round _ _ _).
    + rewrite Ha. apply IH. lia.
Qed.

(** X9.  At level 1 the limit of 81 rounds is never what stops [solve].
    A round with a True among its results leaves fewer cells that are not
    locked than it found: it locks at least one more cell.  So, on a grid
    of at most 81 cells, a further round on the grid that [solve] returns
    changes nothing and has no True among its 27 results, and solving
    again returns the same grid. *)
Theorem solve_level_1_reaches_fixed_point (g : Grid) :
  length g ≤ 81 →
  (any (solve_round choice 1 g).2 = true →
   unsettled (solve_round choice 1 g).1 < unsettled g) ∧
  (solve_round choice 1 (solve choice 1 g)).1 = solve choice 1 g ∧
  (solve_round choice 1 (solve choice 1 g)).2 = replicate 27 false ∧
  solve choice 1 (solve choice 1 g) = solve choice 1 g.
Proof.
  intros Hlen. split.
  { intros Htrue. destruct (solve_round_locks g) as [[_ Hany]|[_ Hlt]]; [|done].
    cbn [snd] in Hany. change (any []) with false in Hany. congruence. }
  assert (∃ s, s = solve choice 1 g ∧ (solve_round choice 1 s).1 = s ∧
               any (solve_round choice 1 s).2 = false) as (s & <- & Hg & Hany).
  { exists (solve choice 1 g). split; [done|]. unfold solve.
    pose proof (unsettled_le_length g).
    destruct (solve_loop_1_stable 81 g) as [Hfix Hany]; [lia|].
    split; [by rewrite Hfix|done]. }
  split; [done|]. split.
  - assert (length (solve_round choice 1 s).2 = 27) as Hl.
    { unfold solve_round. rewrite decide_True by done.
      assert (∀ view acc, length (sweep_unique choice view acc).2 = length acc.2 + 9) as Hs.
      { intros view acc. unfold sweep_unique.
        change 9 with (length (seq 0 9)) at 2. generalize (seq 0 9). intros l. revert acc.
        induction l as [|i l IHl]; intros acc; cbn [foldl length]; [lia|].
        rewrite IHl. unfold call. cbn [snd]. rewrite length_app. cbn [length]. lia. }
      rewrite !Hs. cbn [snd length]. lia. }
    revert Hl Hany. generalize (solve_round choice 1 s).2.
    intros l <- Hany. induction l as [|b l IHl]; [done|].
    cbn [any existsb] in Hany. apply orb_false_iff in Hany as [Hb Hany].
    cbn [length replicate]. unfold id in Hb. rewrite Hb. f_equal. by apply IHl.
  - unfold solve. rewrite solve_loop_S, Hany. exact Hg.
Qed.

End Rounds.

(** On the puzzle of the tests 55 cells are not locked; the first round at
    level 1 leaves 49 of them and [solve] 38. *)
Lemma solve_level_1_reaches_fixed_point_witness :
  length (seeded (Flat test_puzzle)) ≤ 81 ∧
  unsettled (seeded (Flat test_puzzle)) = 55 ∧
  unsettled (solve_round pop_first 1 (seeded (Flat test_puzzle))).1 = 49 ∧
  unsettled (solve pop_first 1 (seeded (Flat test_puzzle))) = 38 ∧
  (any (solve_round pop_first 1 (seeded (Flat test_puzzle))).2 = true →
   unsettled (solve_round pop_first 1 (seeded (Flat test_puzzle))).1
   < unsettled (seeded (Flat test_puzzle))) ∧
  (solve_round pop_first 1 (solve pop_first 1 (seeded (Flat test_puzzle)))).1
  = solve pop_first 1 (seeded (Flat test_puzzle)) ∧
  (solve_round pop_first 1 (solve pop_first 1 (seeded (Flat test_puzzle)))).2
  = replicate 27 false ∧
  solve pop_first 1 (solve pop_first 1 (seeded (Flat test_puzzle)))
  = solve pop_first 1 (seeded (Flat test_puzzle)).
Proof.
  split; [vm_compute; lia|]. split; [vm_compute; reflexivity|].
  split; [vm_compute; reflexivity|]. split; [vm_compute; reflexivity|].
  apply (solve_level_1_reaches_fixed_point pop_first (seeded (Flat test_puzzle))).
  vm_compute. lia.
Defined.

(** ** What [grid_parser] loads *)

Lemma full_domain_digits v : v ∈ full_domain ↔ (1 ≤ v ≤ 9)%Z.
Proof.
  unfold full_domain. rewrite elem_of_list_to_set, !elem_of_cons, elem_of_nil. lia.
Qed.

Lemma same_unit_sym p q : same_unit p q → same_unit q p.
Proof. unfold same_unit. intros [?|[?|?]]; auto. Qed.

Lemma same_unit_refl p : same_unit p p.
Proof. by left. Qed.

(** A grid as [grid_parser] leaves it: a locked cell holds a digit, which
    is its only candidate and the value of no other locked cell of its
    line, column and square; a cell that is not locked has value 0 and
    its candidates are exactly the digits that no locked cell of its
    line, column and square holds. *)
Definition loaded (g : Grid) : Prop :=
  ∀ p cp, g !! p = Some cp →
    (locked cp = true →
       (1 ≤ value cp ≤ 9)%Z ∧ domain cp = {[value cp]} ∧
       ∀ q cq, g !! q = Some cq → locked cq = true → q ≠ p → same_unit p q →
               value cq ≠ value cp) ∧
    (locked cp = false →
       value cp = 0%Z ∧
       ∀ v, v ∈ domain cp ↔
            (1 ≤ v ≤ 9)%Z ∧
            ∀ q cq, g !! q = Some cq → locked cq = true → same_unit p q → value cq ≠ v).

Lemma loaded_reset : loaded reset.
Proof.
  assert (∀ q cq, reset !! q = Some cq → cq = new_cell q) as Hnew.
  { intros q cq Hq. unfold reset in Hq. rewrite list_lookup_fmap in Hq.
    destruct (seq 0 81 !! q) as [i|] eqn:Hi; [|done].
    apply lookup_seq in Hi as [-> _]. by injection Hq as <-. }
  intros p cp Hp. rewrite (Hnew p cp Hp). split; [done|]. intros _. split; [done|].
  intros v. cbn [domain new_cell]. rewrite full_domain_digits. split; [|tauto].
  intros Hv. split; [done|]. intros q cq Hq Hl. by rewrite (Hnew q cq Hq) in Hl.
Qed.

Lemma well_numbered_insert (g : Grid) c cell newc :
  well_numbered g → g !! c = Some cell → idnum newc = idnum cell →
  well_numbered (<[c := newc]> g).
Proof.
  unfold well_numbered. intros Hwn Hc Hid.
  rewrite list_fmap_insert, Hid, list_insert_id; [done|].
  by rewrite list_lookup_fmap, Hc.
Qed.

(** The cells after a cell has been locked and propagated. *)
Lemma lock_propagate_cells (g : Grid) c cell newc :
  well_numbered g → g !! c = Some cell → idnum newc = idnum cell → locked newc = true →
  ∀ q cq, g !! q = Some cq →
    (propagate (<[c := newc]> g) c).1 !! q
    = Some (if decide (q = c) then newc
            else if decide (same_unit q c) then struck (value newc) cq else cq).
Proof.
  intros Hwn Hc Hid Hl q cq Hq.
  assert (<[c := newc]> g !! c = Some newc) as Hc1
    by (apply list_lookup_insert_eq; by eapply lookup_lt_Some).
  pose proof (well_numbered_insert g c cell newc Hwn Hc Hid) as Hwn1.
  destruct (propagate_cells _ c newc Hwn1 Hc1) as [Hcells _].
  case_decide as Hqc.
  - subst q. rewrite (Hcells c newc Hc1), decide_True by apply same_unit_refl.
    unfold struck. by rewrite Hl.
  - rewrite (Hcells q cq); [done|]. by rewrite list_lookup_insert_ne.
Qed.

(** The cells after a clue that [grid_parser] accepts. *)
Lemma parse_clue_cells (g : Grid) p v cell :
  well_numbered g → g !! p = Some cell → locked cell = false →
  (0 < v ≤ 9)%Z → v ∈ domain cell →
  ∀ q cq, g !! q = Some cq →
    parse_clue g p v !! q
    = Some (if decide (q = p)
            then {| idnum := idnum cell; value := v; domain := {[v]}; locked := true |}
            else if decide (same_unit q p) then struck v cq else cq).
Proof.
  intros Hwn Hp Hl Hv Hin q cq Hq. unfold parse_clue.
  rewrite Hp, Hl, !decide_True by done.
  by rewrite (lock_propagate_cells g p cell
                {| idnum := idnum cell; value := v; domain := {[v]}; locked := true |}
                Hwn Hp eq_refl eq_refl q cq Hq).
Qed.

Lemma struck_locked v c : locked (struck v c) = locked c.
Proof. unfold struck. by destruct (locked c) eqn:Hl. Qed.

Lemma struck_value v c : value (struck v c) = value c.
Proof. unfold struck. by destruct (locked c). Qed.

Lemma struck_domain v c :
  domain (struck v c) = if locked c then domain c else domain c ∖ {[v]}.
Proof. unfold struck. by destruct (locked c). Qed.

Lemma parse_clue_loaded g p v : well_numbered g → loaded g → loaded (parse_clue g p v).
Proof.
  intros Hwn Hld.
  destruct (g !! p) as [cell|] eqn:Hp; [|by unfold parse_clue; rewrite Hp].
  destruct (decide (0 < v ≤ 9)%Z) as [Hv|Hv];
    [|by unfold parse_clue; rewrite Hp, decide_False].
  destruct (locked cell) eqn:Hl; [by unfold parse_clue; rewrite Hp, Hl; case_decide|].
  destruct (decide (v ∈ domain cell)) as [Hin|Hin];
    [|by unfold parse_clue; rewrite Hp, Hl, decide_True, decide_False].
  pose proof (parse_clue_cells g p v cell Hwn Hp Hl Hv Hin) as Hcells.
  set (newc := {| idnum := idnum cell; value := v; domain := {[v]}; locked := true |}) in *.
  assert (length (parse_clue g p v) = length g) as Hlen
    by apply settles_length, parse_clue_settles.
  destruct (Hld p cell Hp) as [_ Hopen]. destruct (Hopen Hl) as [_ Hdom].
  apply Hdom in Hin as [_ Hfree].
  (* the locked cells after the clue: the ones before, and [p] *)
  assert (∀ q cq', parse_clue g p v !! q = Some cq' → locked cq' = true →
            (q = p ∧ value cq' = v) ∨
            (q ≠ p ∧ ∃ cq, g !! q = Some cq ∧ locked cq = true ∧ cq' = cq)) as Hback.
  { intros q cq' Hq' Hlq'.
    destruct (lookup_lt_is_Some_2 g q) as [cq Hq];
      [rewrite <- Hlen; by eapply lookup_lt_Some|].
    rewrite (Hcells q cq Hq) in Hq'. injection Hq' as <-.
    case_decide as Hqp; [by left|right]. split; [done|]. exists cq. split; [done|].
    case_decide; [|done]. rewrite struck_locked in Hlq'. split; [done|].
    unfold struck. by rewrite Hlq'. }
  assert (∀ q cq, g !! q = Some cq → locked cq = true →
            q ≠ p ∧ parse_clue g p v !! q = Some cq) as Hforth.
  { intros q cq Hq Hlq. assert (q ≠ p) as Hqp by (intros ->; congruence).
    split; [done|]. rewrite (Hcells q cq Hq), decide_False by done.
    case_decide; [|done]. unfold struck. by rewrite Hlq. }
  intros q cq' Hq'.
  destruct (lookup_lt_is_Some_2 g q) as [cq Hq];
    [rewrite <- Hlen; by eapply lookup_lt_Some|].
  pose proof Hq' as Hq''. rewrite (Hcells q cq Hq) in Hq''. injection Hq'' as Hcq'.
  destruct (Hld q cq Hq) as [Hlocked Hunlocked].
  destruct (decide (q = p)) as [->|Hqp].
  - subst cq'. split; [|done]. intros _. cbn [value domain newc].
    split; [lia|]. split; [done|].
    intros q cq2 Hq2 Hlq2 Hne Hsu.
    destruct (Hback q cq2 Hq2 Hlq2) as [[? _]|(_ & cq0 & Hq0 & Hlq0 & ->)]; [done|].
    by eapply Hfree.
  - split.
    + intros Hlq'.
      assert (locked cq = true) as Hlq
        by (subst cq'; case_decide; [by rewrite struck_locked in Hlq'|done]).
      assert (cq' = cq) as -> by (subst cq'; case_decide; [unfold struck; by rewrite Hlq|done]).
      destruct (Hlocked Hlq) as (Hrange & Hd & Hconf). split; [done|]. split; [done|].
      intros q2 cq2 Hq2 Hlq2 Hne Hsu.
      destruct (Hback q2 cq2 Hq2 Hlq2) as [[-> ->]|(_ & cq0 & Hq0 & Hlq0 & ->)].
      * intros Heq. eapply (Hfree q cq Hq Hlq); [by apply same_unit_sym|done].
      * by eapply Hconf.
    + intros Hlq'.
      assert (locked cq = false) as Hlq
        by (subst cq'; case_decide; [by rewrite struck_locked in Hlq'|done]).
      destruct (Hunlocked Hlq) as [Hval Hd].
      split; [subst cq'; case_decide; [by rewrite struck_value|done]|].
      intros v'.
      assert (v' ∈ domain cq' ↔ v' ∈ domain cq ∧ (same_unit q p → v' ≠ v)) as ->.
      { subst cq'. case_decide as Hsu.
        - rewrite struck_domain, Hlq. set_solver.
        - tauto. }
      rewrite Hd. split.
      * intros [[Hrange Hfree'] Hne]. split; [done|].
        intros q2 cq2 Hq2 Hlq2 Hsu.
        destruct (Hback q2 cq2 Hq2 Hlq2) as [[-> ->]|(_ & cq0 & Hq0 & Hlq0 & ->)].
        -- intros Heq. by apply Hne.
        -- by eapply Hfree'.
      * intros [Hrange Hfree']. split; [split; [done|]|].
        -- intros q2 cq2 Hq2 Hlq2 Hsu. destruct (Hforth q2 cq2 Hq2 Hlq2) as [_ Hq2'].
           by eapply Hfree'.
        -- intros Hsu Heq. subst v'.
           assert (parse_clue g p v !! p = Some newc) as Hp'
             by (by rewrite (Hcells p cell Hp), decide_True).
           by eapply (Hfree' p newc Hp').
Qed.

Lemma parse_clues_loaded g clues :
  well_numbered g → loaded g →
  well_numbered (parse_clues g clues) ∧ loaded (parse_clues g clues).
Proof.
  revert g. induction clues as [|pv clues IH]; intros g Hwn Hld; [done|].
  simpl. apply IH.
  - eapply settles_well_numbered; [apply parse_clue_settles|done].
  - by apply parse_clue_loaded.
Qed.

Lemma parse_pos_None clues : foldl parse_pos None clues = None.
Proof. induction clues as [|pv clues IH]; [done|]. simpl. exact IH. Qed.

Lemma parse_pos_Some clues g0 g :
  foldl parse_pos (Some g0) clues = Some g → g = parse_clues g0 clues.
Proof.
  revert g0. induction clues as [|pv clues IH]; intros g0; [by intros [= <-]|].
  simpl. case_decide; [apply IH|]. by rewrite parse_pos_None.
Qed.

(** X10.  Whatever the seed, when [grid_parser] returns, the grid is a
    consistent partial Sudoku: 81 cells numbered by position; a locked cell
    holds a digit of 1..9 that is its only candidate and that no other
    locked cell of its line, column or square holds; a cell that is not
    locked has value 0, and its candidates are exactly the digits that no
    locked cell of its line, column and square holds. *)
Theorem grid_parser_loads_consistent_grid (s : seed) (g : Grid) :
  grid_parser s = Some g → well_numbered g ∧ loaded g.
Proof.
  rewrite grid_parser_clues. intros ->%parse_pos_Some.
  apply parse_clues_loaded; [apply well_numbered_reset|apply loaded_reset].
Qed.

Lemma grid_parser_loads_consistent_grid_witness :
  well_numbered (seeded (Flat test_puzzle)) ∧ loaded (seeded (Flat test_puzzle)).
Proof.
  apply (grid_parser_loads_consistent_grid (Flat test_puzzle)). vm_compute. reflexivity.
Defined.

(** ** The two formats of the seed *)

Lemma mjoin_cons {A} (x : list A) (xs : list (list A)) : mjoin (x :: xs) = x ++ mjoin xs.
Proof. done. Qed.

Lemma row_clues_imap i row : row_clues (i, row) = imap (λ j v, (i * 9 + j, v)) row.
Proof. unfold row_clues, enumerate. cbn [fst snd]. by rewrite fmap_imap. Qed.

(** The rows [input_list[i:i+9]] of a list of integers, read one after
    the other, are the list itself up to its 81st entry. *)
Lemma chunks_clues n (l : list Z) k :
  mjoin ((λ i, row_clues (k + i, take 9 (drop (i * 9) l))) <$> seq 0 n)
  = imap (λ j v, (k * 9 + j, v)) (take (n * 9) l).
Proof.
  revert l k. induction n as [|n IH]; intros l k; [done|].
  cbn [seq]. rewrite fmap_cons, mjoin_cons, <- fmap_S_seq, <- list_fmap_compose.
  rewrite (list_fmap_ext _ (λ i, row_clues (k + 1 + i, take 9 (drop (i * 9) (drop 9 l))))).
  2:{ intros _ i _. cbn [compose]. rewrite drop_drop.
      replace (k + S i) with (k + 1 + i) by lia.
      by replace (S i * 9) with (9 + i * 9) by lia. }
  rewrite IH, row_clues_imap. cbn [drop].
  replace (S n * 9) with (9 + n * 9) by lia.
  rewrite <- (take_take_drop l 9 (n * 9)), imap_app.
  f_equal; [apply imap_ext; intros; f_equal; lia|].
  destruct (decide (9 ≤ length l)) as [Hl|Hl].
  - apply imap_ext. intros j v _. rewrite length_take. f_equal. lia.
  - rewrite (drop_ge l 9) by lia. by rewrite take_nil.
Qed.

Lemma clues_of_flat l : clues_of (Flat l) = enumerate (take 81 l).
Proof.
  unfold clues_of.
  change (enumerate (seed_rows (Flat l)))
    with ((λ i, (0 + i, take 9 (drop (i * 9) l))) <$> seq 0 9).
  rewrite <- list_fmap_compose. apply (chunks_clues 9 l 0).
Qed.

Lemma rows_clues rows k :
  Forall (λ row : list Z, length row = 9) rows →
  mjoin (row_clues <$> imap (λ i row, (k + i, row)) rows)
  = imap (λ j v, (k * 9 + j, v)) (mjoin rows).
Proof.
  intros Hrows. revert k. induction Hrows as [|row rows Hrow _ IH]; intros k; [done|].
  cbn [imap]. rewrite fmap_cons, !mjoin_cons, imap_app, row_clues_imap. f_equal.
  - apply imap_ext. intros. f_equal. lia.
  - rewrite (imap_ext _ (λ i row, (k + 1 + i, row)))
      by (intros; cbn [compose]; f_equal; lia).
    rewrite IH. apply imap_ext. intros. rewrite Hrow. f_equal. lia.
Qed.

Lemma length_rows rows :
  Forall (λ row : list Z, length row = 9) rows → length (mjoin rows) = length rows * 9.
Proof.
  induction 1 as [|row rows Hrow _ IH]; [done|].
  rewrite mjoin_cons, length_app. cbn [length]. lia.
Qed.

Lemma parse_pos_raises g clues :
  length g = 81 →
  foldl parse_pos (Some g) clues = None ↔ ∃ pv, pv ∈ clues ∧ 81 ≤ pv.1.
Proof.
  revert g. induction clues as [|pv clues IH]; intros g Hlen.
  { simpl. split; [done|]. intros (pv & Hpv & _). by apply elem_of_nil in Hpv. }
  simpl. case_decide as Hpv.
  - rewrite IH by (by rewrite (settles_length _ _ (parse_clue_settles g pv.1 pv.2))).
    split; intros (pv' & Hin & Hge).
    + exists pv'. split; [by right|done].
    + exists pv'. split; [|done]. apply elem_of_cons in Hin as [->|Hin]; [lia|done].
  - rewrite parse_pos_None. split; [|done]. intros _. exists pv. split; [left|lia].
Qed.

Lemma clues_of_nested rows pv :
  pv ∈ clues_of (Nested rows) ↔
  ∃ i row j, rows !! i = Some row ∧ row !! j = Some pv.2 ∧ pv.1 = i * 9 + j.
Proof.
  unfold clues_of. cbn [seed_rows]. rewrite list_elem_of_join. split.
  - intros (cl & Hpv & Hcl).
    apply list_elem_of_fmap in Hcl as ([i row] & -> & Hrow).
    apply elem_of_lookup_imap in Hrow as (i' & row' & [= -> ->] & Hi).
    rewrite row_clues_imap in Hpv.
    apply elem_of_lookup_imap in Hpv as (j & v & -> & Hj).
    exists i', row', j. done.
  - intros (i & row & j & Hi & Hj & Hp). exists (row_clues (i, row)). split.
    + rewrite row_clues_imap. apply elem_of_lookup_imap. exists j, pv.2.
      split; [|done]. destruct pv; cbn [fst snd] in *. by subst.
    + apply list_elem_of_fmap. exists (i, row). split; [done|].
      apply elem_of_lookup_imap. by exists i, row.
Qed.

(** X12.  The two formats of the seed.  A list of integers never makes
    [grid_parser] raise, whatever its length, and its entries from the
    82nd on are not read.  A list of lists makes it raise (IndexError)
    exactly when a row that is not empty reaches beyond the last cell,
    entry [j] of row [i] going to cell [i * 9 + j]; at most 9 rows of 9
    integers are read as the list of their 81 integers in a row. *)
Theorem grid_parser_formats (l : list Z) (rows : list (list Z)) :
  grid_parser (Flat l) = Some (parse_clues reset (enumerate (take 81 l))) ∧
  grid_parser (Flat l) = grid_parser (Flat (take 81 l)) ∧
  (grid_parser (Nested rows) = None ↔
   ∃ i row, rows !! i = Some row ∧ row ≠ [] ∧ 81 < i * 9 + length row) ∧
  (length rows ≤ 9 → Forall (λ row, length row = 9) rows →
   grid_parser (Nested rows) = grid_parser (Flat (mjoin rows))).
Proof.
  assert (∀ l', grid_parser (Flat l') = Some (parse_clues reset (enumerate (take 81 l'))))
    as Hflat.
  { intros l'. rewrite (grid_parser_returns (Flat l') I). by rewrite clues_of_flat. }
  split; [apply Hflat|]. split; [|split].
  - rewrite !Hflat. by rewrite take_take.
  - rewrite grid_parser_clues, parse_pos_raises by done. split.
    + intros (pv & (i & row & j & Hi & Hj & Hp)%clues_of_nested & Hge).
      exists i, row. split; [done|]. apply lookup_lt_Some in Hj.
      split; [intros ->; simpl in Hj; lia|lia].
    + intros (i & row & Hi & Hne & Hlen).
      destruct (lookup_lt_is_Some_2 row (length row - 1)) as [v Hv].
      { destruct row; [done|simpl; lia]. }
      exists (i * 9 + (length row - 1), v). split; [|cbn [fst]; lia].
      apply clues_of_nested. by exists i, row, (length row - 1).
  - intros Hlen Hrows. rewrite !grid_parser_clues, clues_of_flat.
    rewrite take_ge by (rewrite length_rows by done; lia).
    do 2 f_equal. unfold clues_of. cbn [seed_rows]. apply (rows_clues rows 0 Hrows).
Qed.

(** ** Which clues of a list of integers are kept *)

(** A cell that is locked after a clue was locked before, or is the cell
    of the clue, which has been accepted. *)
Lemma parse_clue_locked_back g p v q cq' :
  well_numbered g → parse_clue g p v !! q = Some cq' → locked cq' = true →
  (g !! q = Some cq') ∨
  (q = p ∧ value cq' = v ∧ (0 < v ≤ 9)%Z ∧
   ∃ cell, g !! p = Some cell ∧ locked cell = false ∧ v ∈ domain cell).
Proof.
  intros Hwn Hq' Hlq'.
  destruct (g !! p) as [cell|] eqn:Hp; [|left; by unfold parse_clue in Hq'; rewrite Hp in Hq'].
  destruct (decide (0 < v ≤ 9)%Z) as [Hv|Hv];
    [|left; by unfold parse_clue in Hq'; rewrite Hp, decide_False in Hq'].
  destruct (locked cell) eqn:Hl;
    [left; unfold parse_clue in Hq'; rewrite Hp, Hl in Hq'; by case_decide|].
  destruct (decide (v ∈ domain cell)) as [Hin|Hin];
    [|left; by unfold parse_clue in Hq'; rewrite Hp, Hl, decide_True, decide_False in Hq'].
  assert (length (parse_clue g p v) = length g) as Hlen
    by apply settles_length, parse_clue_settles.
  destruct (lookup_lt_is_Some_2 g q) as [cq Hq];
    [rewrite <- Hlen; by eapply lookup_lt_Some|].
  rewrite (parse_clue_cells g p v cell Hwn Hp Hl Hv Hin q cq Hq) in Hq'.
  injection Hq' as <-. case_decide as Hqp.
  - right. subst q. repeat split; [lia..|]. by exists cell.
  - left. case_decide; [|done]. rewrite struck_locked in Hlq'.
    unfold struck. by rewrite Hlq'.
Qed.

Lemma enumerate_snoc {A} (l : list A) x : enumerate (l ++ [x]) = enumerate l ++ [(length l, x)].
Proof. unfold enumerate. rewrite imap_app. cbn [imap]. by rewrite Nat.add_0_r. Qed.

Lemma parse_clues_snoc g clues p v :
  parse_clues g (clues ++ [(p, v)]) = parse_clue (parse_clues g clues) p v.
Proof. unfold parse_clues. by rewrite foldl_app. Qed.

(** The grid after the first [n] entries of a list of integers. *)
Lemma flat_prefix (l : list Z) n :
  n ≤ length l → n ≤ 81 →
  well_numbered (parse_clues reset (enumerate (take n l))) ∧
  loaded (parse_clues reset (enumerate (take n l))) ∧
  (∀ p cp, parse_clues reset (enumerate (take n l)) !! p = Some cp → locked cp = true →
           p < n ∧ l !! p = Some (value cp)) ∧
  (∀ p cp v, parse_clues reset (enumerate (take n l)) !! p = Some cp → p < n →
             l !! p = Some v → (1 ≤ v ≤ 9)%Z →
             (∀ q cq, q < p → same_unit p q →
                      parse_clues reset (enumerate (take n l)) !! q = Some cq →
                      locked cq = true → value cq ≠ v) →
             locked cp = true).
Proof.
  induction n as [|n IH]; intros Hn Hn81.
  { rewrite take_0. cbn [enumerate imap parse_clues foldl].
    split; [apply well_numbered_reset|]. split; [apply loaded_reset|].
    split; [|intros; lia].
    intros p cp Hp Hl. unfold reset in Hp. rewrite list_lookup_fmap in Hp.
    destruct (seq 0 81 !! p); simplify_eq/=. }
  destruct IH as (Hwn & Hld & Hlocked & Hkept); [lia..|].
  destruct (lookup_lt_is_Some_2 l n) as [x Hx]; [lia|].
  rewrite (take_S_r l n x Hx), enumerate_snoc, parse_clues_snoc.
  rewrite length_take, Nat.min_l by lia.
  set (g := parse_clues reset (enumerate (take n l))) in *.
  assert (settles g (parse_clue g n x)) as Hs by apply parse_clue_settles.
  split; [by eapply settles_well_numbered|]. split; [by apply parse_clue_loaded|].
  assert (∀ q cq, parse_clue g n x !! q = Some cq → locked cq = true → q < n →
                  g !! q = Some cq) as Hbefore.
  { intros q cq Hq Hlq Hlt.
    destruct (parse_clue_locked_back g n x q cq Hwn Hq Hlq) as [?|[-> _]]; [done|lia]. }
  split.
  - intros p cp Hp Hl.
    destruct (parse_clue_locked_back g n x p cp Hwn Hp Hl) as [Hp0|(-> & Hv & _)].
    + destruct (Hlocked p cp Hp0 Hl). split; [lia|done].
    + split; [lia|]. by rewrite Hv.
  - intros p cp v Hp Hlt Hv Hrange Hfree.
    destruct (decide (p = n)) as [->|Hpn].
    + rewrite Hx in Hv. injection Hv as ->.
      destruct (lookup_lt_is_Some_2 g n) as [cell Hcell].
      { rewrite <- (settles_length _ _ Hs). by eapply lookup_lt_Some. }
      assert (locked cell = false) as Hlc.
      { destruct (locked cell) eqn:Hlc; [|done]. destruct (Hlocked n cell Hcell Hlc). lia. }
      assert (v ∈ domain cell) as Hin.
      { destruct (Hld n cell Hcell) as [_ Hopen]. destruct (Hopen Hlc) as [_ Hdom].
        apply Hdom. split; [done|]. intros q cq Hq Hlq Hsu.
        destruct (Hlocked q cq Hq Hlq) as [Hqn _].
        apply (Hfree q cq Hqn Hsu); [|done]. by apply parse_clue_locked. }
      rewrite (parse_clue_cells g n v cell Hwn Hcell Hlc ltac:(lia) Hin n cell Hcell) in Hp.
      rewrite decide_True in Hp by done. by injection Hp as <-.
    + destruct (lookup_lt_is_Some_2 g p) as [cp0 Hp0].
      { rewrite <- (settles_length _ _ Hs). by eapply lookup_lt_Some. }
      assert (locked cp0 = true) as Hl0.
      { apply (Hkept p cp0 v Hp0 ltac:(lia) Hv Hrange).
        intros q cq Hlt' Hsu Hq Hlq. apply (Hfree q cq Hlt' Hsu); [|done].
        by apply parse_clue_locked. }
      rewrite (parse_clue_locked g n x p cp0 Hp0 Hl0) in Hp. by injection Hp as <-.
Qed.

(** X11.  Reading a list of integers, the first come is served: the cell
    at position [p] is locked exactly when entry [p] of the list is a
    digit of 1..9 that no locked cell before it on its line, column or
    square holds, and then its value is that entry.  So when no two cells
    of a line, column or square are given the same digit, the locked cells
    are exactly the entries in 1..9. *)
Theorem grid_parser_first_come (l : list Z) (g : Grid) :
  grid_parser (Flat l) = Some g →
  (∀ p cp, g !! p = Some cp →
     (locked cp = true → l !! p = Some (value cp)) ∧
     (locked cp = true ↔
      ∃ v, l !! p = Some v ∧ (1 ≤ v ≤ 9)%Z ∧
           ∀ q cq, q < p → same_unit p q → g !! q = Some cq → locked cq = true →
                   value cq ≠ v)) ∧
  ((∀ p q v, p ≠ q → same_unit p q → l !! p = Some v → l !! q = Some v →
             ¬ (1 ≤ v ≤ 9)%Z) →
   ∀ p cp, g !! p = Some cp →
     (locked cp = true ↔ ∃ v, l !! p = Some v ∧ (1 ≤ v ≤ 9)%Z)).
Proof.
  rewrite (grid_parser_returns (Flat l) I), clues_of_flat. intros [= <-].
  destruct (flat_prefix (take 81 l) (length (take 81 l))) as (Hwn & Hld & Hlocked & Hkept);
    [lia|rewrite length_take; lia|].
  rewrite (take_ge (take 81 l)) in Hwn, Hld, Hlocked, Hkept by done.
  set (g := parse_clues reset (enumerate (take 81 l))) in *.
  assert (∀ p cp, g !! p = Some cp → l !! p = take 81 l !! p) as Htake.
  { intros p cp Hp. destruct (well_numbered_lookup g p cp Hwn Hp).
    by rewrite lookup_take_lt. }
  assert (∀ p cp, g !! p = Some cp →
            (locked cp = true → l !! p = Some (value cp)) ∧
            (locked cp = true ↔
             ∃ v, l !! p = Some v ∧ (1 ≤ v ≤ 9)%Z ∧
                  ∀ q cq, q < p → same_unit p q → g !! q = Some cq → locked cq = true →
                          value cq ≠ v)) as Hfirst.
  { intros p cp Hp. rewrite (Htake p cp Hp). split; [intros Hl; by apply (Hlocked p cp)|].
    split.
    - intros Hl. exists (value cp). destruct (Hlocked p cp Hp Hl) as [_ Hv].
      destruct (Hld p cp Hp) as [Hlk _]. destruct (Hlk Hl) as (Hrange & _ & Hconf).
      split; [done|]. split; [done|].
      intros q cq Hlt Hsu Hq Hlq. apply (Hconf q cq Hq Hlq); [lia|done].
    - intros (v & Hv & Hrange & Hfree). apply (Hkept p cp v Hp); [|done..].
      apply lookup_lt_Some in Hv. lia. }
  split; [exact Hfirst|].
  intros Hvalid p cp Hp. destruct (Hfirst p cp Hp) as [_ ->]. split.
  - intros (v & Hv & Hrange & _). by exists v.
  - intros (v & Hv & Hrange). exists v. split; [done|]. split; [done|].
    intros q cq Hlt Hsu Hq Hlq Heq.
    destruct (Hfirst q cq Hq) as [Hvq _]. specialize (Hvq Hlq). rewrite Heq in Hvq.
    apply (Hvalid p q v); [lia|done..].
Qed.

Lemma grid_parser_first_come_witness :
  (∀ p cp, seeded (Flat test_puzzle) !! p = Some cp →
     (locked cp = true → test_puzzle !! p = Some (value cp)) ∧
     (locked cp = true ↔
      ∃ v, test_puzzle !! p = Some v ∧ (1 ≤ v ≤ 9)%Z ∧
           ∀ q cq, q < p → same_unit p q → seeded (Flat test_puzzle) !! q = Some cq →
                   locked cq = true → value cq ≠ v)) ∧
  ((∀ p q v, p ≠ q → same_unit p q → test_puzzle !! p = Some v → test_puzzle !! q = Some v →
             ¬ (1 ≤ v ≤ 9)%Z) →
   ∀ p cp, seeded (Flat test_puzzle) !! p = Some cp →
     (locked cp = true ↔ ∃ v, test_puzzle !! p = Some v ∧ (1 ≤ v ≤ 9)%Z)).
Proof.
  apply (grid_parser_first_come test_puzzle). vm_compute. reflexivity.
Defined.

(** ** Soundness: the solver only writes digits of the solution *)

#[global] Instance same_unit_dec p q : Decision (same_unit p q).
Proof. unfold same_unit. apply _. Defined.

(** A filled grid, as the list of its 81 digits: cells that share a
    line, a column or a square hold different digits of 1..9. *)
Definition solution (sol : list Z) : Prop :=
  length sol = 81 ∧ Forall (λ v, (1 ≤ v ≤ 9)%Z) sol ∧
  Forall (λ p, Forall (λ q, p ≠ q → same_unit p q → sol !! p ≠ sol !! q) (seq 0 81))
         (seq 0 81).

#[global] Instance solution_dec sol : Decision (solution sol).
Proof. unfold solution. apply _. Defined.

(** The grid has nothing against the solution: a locked cell holds the
    digit of the solution (and no other candidate), a cell that is not
    locked has it among its candidates. *)
Definition agrees (sol : list Z) (g : Grid) : Prop :=
  ∀ p cp, g !! p = Some cp →
    (locked cp = true → sol !! p = Some (value cp) ∧ domain cp ⊆ {[value cp]}) ∧
    (locked cp = false → ∃ v, sol !! p = Some v ∧ v ∈ domain cp).

Definition sound (sol : list Z) (g : Grid) : Prop :=
  well_numbered g ∧ propagated g ∧ agrees sol g.

(** The nine cells of a line, a column or a square. *)
Definition unit_cells (U : list nat) : Prop :=
  NoDup U ∧ length U = 9 ∧ Forall (λ p, p < 81 ∧ Forall (λ q, same_unit p q) U) U.

#[global] Instance unit_cells_dec U : Decision (unit_cells U).
Proof. unfold unit_cells. apply _. Defined.

Lemma units_in_range :
  Forall (λ i, unit_cells (line_cells i) ∧ unit_cells (column_cells i) ∧
               unit_cells (square_cells i)) (seq 0 9).
Proof. apply (bool_decide_unpack _). vm_compute. exact I. Qed.

Lemma views_unit_cells g i :
  well_numbered g → i < 9 →
  unit_cells (line g i) ∧ unit_cells (column g i) ∧ unit_cells (square g i).
Proof.
  intros Hwn Hi. destruct (views_by_index g i Hwn) as (-> & -> & ->).
  pose proof views_in_range as Hv. pose proof units_in_range as Hu.
  rewrite Forall_forall in Hv, Hu.
  destruct (Hv i) as (-> & -> & ->); [apply elem_of_seq; lia|].
  apply Hu, elem_of_seq. lia.
Qed.

Lemma unit_cells_elem U p q :
  unit_cells U → p ∈ U → q ∈ U → p < 81 ∧ q < 81 ∧ same_unit p q.
Proof.
  intros (_ & _ & HU) Hp Hq. rewrite Forall_forall in HU.
  destruct (HU p Hp) as [Hp81 Hsu]. destruct (HU q Hq) as [Hq81 _].
  rewrite Forall_forall in Hsu. auto.
Qed.

Lemma solution_lookup sol p :
  solution sol → p < 81 → ∃ v, sol !! p = Some v ∧ (1 ≤ v ≤ 9)%Z.
Proof.
  intros (Hlen & Hrange & _) Hp.
  destruct (lookup_lt_is_Some_2 sol p) as [v Hv]; [lia|].
  exists v. split; [done|]. rewrite Forall_forall in Hrange.
  apply Hrange. by eapply list_elem_of_lookup_2.
Qed.

Lemma solution_differ sol p q v :
  solution sol → p < 81 → q < 81 → p ≠ q → same_unit p q →
  sol !! p = Some v → sol !! q ≠ Some v.
Proof.
  intros (_ & _ & Hall) Hp Hq Hne Hsu Hv Hw. rewrite Forall_forall in Hall.
  specialize (Hall p ltac:(apply elem_of_seq; lia)). rewrite Forall_forall in Hall.
  apply (Hall q ltac:(apply elem_of_seq; lia) Hne Hsu). congruence.
Qed.

Lemma digits_range v : v ∈ digits ↔ (1 ≤ v ≤ 9)%Z.
Proof. unfold digits. rewrite !elem_of_cons, elem_of_nil. lia. Qed.

(** Every digit is somewhere in every unit of a solution. *)
Lemma unit_holds_digit sol U k :
  solution sol → unit_cells U → (1 ≤ k ≤ 9)%Z → ∃ p, p ∈ U ∧ sol !! p = Some k.
Proof.
  intros Hsol HU Hk. pose proof HU as (Hnd & Hlen & _).
  assert (∀ p, p ∈ U → sol !! p = Some (default 0%Z (sol !! p)) ∧
                        (1 ≤ default 0%Z (sol !! p) ≤ 9)%Z) as Hval.
  { intros p Hp. destruct (unit_cells_elem U p p HU Hp Hp) as (Hp81 & _).
    destruct (solution_lookup sol p Hsol Hp81) as (v & -> & Hv). done. }
  assert ((λ p, default 0%Z (sol !! p)) <$> U ≡ₚ digits) as Hperm.
  { apply submseteq_length_Permutation; [|by rewrite length_fmap, Hlen].
    apply NoDup_submseteq.
    - apply NoDup_fmap_2_strong; [|done]. intros p q Hp Hq Heq.
      destruct (decide (p = q)) as [|Hne]; [done|]. exfalso.
      destruct (unit_cells_elem U p q HU Hp Hq) as (Hp81 & Hq81 & Hsu).
      destruct (Hval p Hp) as [Hvp _]. destruct (Hval q Hq) as [Hvq _].
      apply (solution_differ sol p q _ Hsol Hp81 Hq81 Hne Hsu Hvp). by rewrite Heq.
    - intros v (p & -> & Hp)%list_elem_of_fmap. apply digits_range. by apply Hval. }
  assert (k ∈ (λ p, default 0%Z (sol !! p)) <$> U) as (p & -> & Hp)%list_elem_of_fmap
    by (rewrite Hperm; by apply digits_range).
  exists p. split; [done|]. by apply Hval.
Qed.

Lemma sound_reset sol : solution sol → sound sol reset.
Proof.
  intros Hsol. split; [apply well_numbered_reset|]. split; [apply propagated_reset|].
  intros p cp Hp. destruct (well_numbered_lookup reset p cp well_numbered_reset Hp) as [_ Hp81].
  unfold reset in Hp. rewrite list_lookup_fmap in Hp.
  destruct (seq 0 81 !! p) as [i|]; [|done]. injection Hp as <-.
  split; [done|]. intros _.
  destruct (solution_lookup sol p Hsol Hp81) as (v & Hv & Hrange).
  exists v. split; [done|]. by apply full_domain_digits.
Qed.

(** Locking a cell on the digit of the solution and propagating it. *)
Lemma lock_propagate_sound sol (g : Grid) c cell v d :
  solution sol → sound sol g → g !! c = Some cell → sol !! c = Some v → d ⊆ {[v]} →
  sound sol (propagate
               (<[c := {| idnum := idnum cell; value := v; domain := d; locked := true |}]> g)
               c).1.
Proof.
  intros Hsol (Hwn & Hprop & Hag) Hc Hv Hd.
  set (newc := {| idnum := idnum cell; value := v; domain := d; locked := true |}).
  pose proof (lock_propagate_cells g c cell newc Hwn Hc eq_refl eq_refl) as Hcells.
  cbn [value newc] in Hcells. fold newc in Hcells.
  assert (well_numbered (propagate (<[c := newc]> g) c).1) as Hwn2.
  { eapply settles_well_numbered; [apply erodes_settles, propagate_erodes|].
    by eapply well_numbered_insert. }
  pose proof (proj2 (well_numbered_lookup g c cell Hwn Hc)) as Hc81.
  assert (∀ q cq2, (propagate (<[c := newc]> g) c).1 !! q = Some cq2 →
            ∃ cq, g !! q = Some cq ∧
                  ((q = c ∧ cq2 = newc) ∨
                   (q ≠ c ∧ locked cq2 = locked cq ∧ value cq2 = value cq ∧
                    domain cq2 ⊆ domain cq ∧
                    (locked cq = true → cq2 = cq) ∧
                    (locked cq = false → same_unit q c → v ∉ domain cq2) ∧
                    (∀ w, w ∈ domain cq → (same_unit q c → w ≠ v) → w ∈ domain cq2))))
    as Hback.
  { intros q cq2 Hq2. destruct (lookup_lt_is_Some_2 g q) as [cq Hq].
    { apply lookup_lt_Some in Hq2. rewrite (well_numbered_length _ Hwn2) in Hq2.
      by rewrite (well_numbered_length _ Hwn). }
    exists cq. split; [done|]. rewrite (Hcells q cq Hq) in Hq2. injection Hq2 as <-.
    destruct (decide (q = c)) as [Hqc|Hqc]; [by left|right]. split; [done|].
    destruct (decide (same_unit q c)) as [Hsu|Hsu].
    - rewrite struck_locked, struck_value, struck_domain.
      destruct (locked cq) eqn:Hl.
      + repeat split; [done| |done|done]. intros _. unfold struck. by rewrite Hl.
      + repeat split; [set_solver|done|set_solver|]. intros w Hw Hne. set_solver.
    - repeat split; [done..|]. auto. }
  split; [done|]. split.
  - intros q cq2 p cp2 Hq2 Hlq Hp2 Hlp Hsu.
    destruct (Hback q cq2 Hq2) as (cq & Hq & Hcq).
    destruct (Hback p cp2 Hp2) as (cp & Hp & [[-> ->]|(Hpc & Hl & _ & Hsub & _ & Hout & _)]);
      [done|].
    rewrite Hl in Hlp.
    destruct Hcq as [[-> ->]|(Hqc & Hl' & Hv' & _)]; [by apply Hout|].
    rewrite Hl' in Hlq. rewrite Hv'.
    pose proof (Hprop q cq p cp Hq Hlq Hp Hlp Hsu). set_solver.
  - intros p cp2 Hp2.
    destruct (Hback p cp2 Hp2) as (cp & Hp & [[-> ->]|(Hpc & Hl & Hval & Hsub & Hsame & _ & Hin)]);
      [by split|].
    destruct (Hag p cp Hp) as [Hlocked Hopen].
    pose proof (proj2 (well_numbered_lookup g p cp Hwn Hp)) as Hp81.
    rewrite Hl. split.
    + intros Hlp. rewrite (Hsame Hlp). auto.
    + intros Hlp. destruct (Hopen Hlp) as (w & Hw & Hinw). exists w. split; [done|].
      apply Hin; [done|]. intros Hsu ->.
      by apply (solution_differ sol c p v Hsol Hc81 Hp81 ltac:(done)
                  (same_unit_sym _ _ Hsu) Hv).
Qed.


(** Taking away candidates that are not the digit of the solution. *)
Lemma reduce_domain_sound sol (g : Grid) p cp values :
  sound sol g → g !! p = Some cp →
  (locked cp = false → ∀ w, sol !! p = Some w → w ∉ values) →
  sound sol (<[p := (reduce_domain cp values).1]> g).
Proof.
  intros (Hwn & Hprop & Hag) Hp Hout.
  assert (∀ q cq', <[p := (reduce_domain cp values).1]> g !! q = Some cq' →
            ∃ cq, g !! q = Some cq ∧ locked cq' = locked cq ∧ value cq' = value cq ∧
                  domain cq' ⊆ domain cq ∧
                  (q ≠ p → cq' = cq) ∧
                  (q = p → domain cq' = domain cq ∖ list_to_set values)) as Hback.
  { intros q cq' Hq'. destruct (decide (q = p)) as [->|Hqp].
    - rewrite list_lookup_insert_eq in Hq' by (by eapply lookup_lt_Some).
      injection Hq' as <-. exists cp. split; [done|].
      cbn [reduce_domain fst set_domain locked value domain].
      repeat split; [set_solver|done].
    - rewrite list_lookup_insert_ne in Hq' by done. exists cq'.
      repeat split; [done..|by intros ->]. }
  split; [by eapply well_numbered_insert|]. split.
  - intros q cq' r cr' Hq' Hlq Hr' Hlr Hsu.
    destruct (Hback q cq' Hq') as (cq & Hq & Hl1 & Hv1 & _).
    destruct (Hback r cr' Hr') as (cr & Hr & Hl2 & _ & Hd2 & _).
    rewrite Hv1. pose proof (Hprop q cq r cr Hq ltac:(congruence) Hr ltac:(congruence) Hsu).
    set_solver.
  - intros q cq' Hq'. destruct (Hback q cq' Hq') as (cq & Hq & Hl & Hv & Hd & Hne & Heq).
    destruct (Hag q cq Hq) as [Hlocked Hopen]. rewrite Hl, Hv. split.
    + intros Hlq. destruct (Hlocked Hlq). split; [done|]. set_solver.
    + intros Hlq. destruct (Hopen Hlq) as (w & Hw & Hin). exists w. split; [done|].
      destruct (decide (q = p)) as [->|Hqp]; [|by rewrite (Hne Hqp)].
      rewrite (Heq eq_refl). apply elem_of_difference. split; [done|].
      rewrite elem_of_list_to_set. rewrite Hp in Hq. injection Hq as <-. by apply Hout.
Qed.

Section Soundness.

Variable choice : gset nat → nat.
Variable sol : list Z.
Hypothesis Hsol : solution sol.

Lemma set_values_turn_sound s : sound sol s.1.1 → sound sol (set_values_turn choice s).1.1.
Proof.
  intros Hs. unfold set_values_turn.
  destruct (set_pop choice s.1.2) as [[c cells]|]; [|done].
  destruct (cell_update_value s.1.1 c).2 eqn:Hb; cbn [fst snd];
    [|by rewrite (cell_update_value_false _ _ Hb)].
  destruct (cell_update_value_true _ _ Hb) as (cell & v & Hc & Hd & ->).
  apply lock_propagate_sound; [done..| |done].
  destruct Hs as (_ & _ & Hag). destruct (Hag c cell Hc) as [Hlocked Hopen].
  destruct (locked cell) eqn:Hl.
  - destruct (Hlocked eq_refl) as [Hv Hsub]. rewrite Hv. f_equal.
    rewrite Hd in Hsub. assert (v ∈ ({[value cell]} : gset Z)) as Hin by set_solver.
    by apply elem_of_singleton in Hin.
  - destruct (Hopen eq_refl) as (w & Hw & Hin). rewrite Hw. f_equal.
    rewrite Hd in Hin. by apply elem_of_singleton in Hin.
Qed.

Lemma set_values_loop_sound fuel s :
  sound sol s.1.1 → sound sol (set_values_loop choice fuel s).1.1.
Proof.
  revert s. induction fuel as [|fuel IH]; intros s Hs; [done|].
  rewrite set_values_loop_S. by apply IH, set_values_turn_sound.
Qed.

Lemma set_values_sound g cells : sound sol g → sound sol (set_values choice g cells).1.
Proof. intros Hs. by apply (set_values_loop_sound _ (g, cells, false)). Qed.

(** A digit that a single open cell of a unit can take is the digit of
    the solution there. *)
Lemma hidden_single_sound g U k u :
  sound sol g → unit_cells U → (1 ≤ k ≤ 9)%Z →
  filter (λ case, holds_candidate g k case) U = [u] → sol !! u = Some k.
Proof.
  intros (Hwn & Hprop & Hag) HU Hk Hf.
  assert (u ∈ filter (λ case, holds_candidate g k case) U) as Hu by (rewrite Hf; left).
  apply list_elem_of_filter in Hu as [Hhu HuU].
  apply Is_true_true, holds_candidate_true in Hhu as (cu & Hcu & Hlu & Hinu).
  destruct (unit_holds_digit sol U k Hsol HU Hk) as (p & HpU & Hp).
  destruct (unit_cells_elem U u p HU HuU HpU) as (Hu81 & Hp81 & Hsu).
  destruct (well_numbered_lookup_lt g p Hwn Hp81) as (cp & Hcp & _).
  destruct (Hag p cp Hcp) as [Hlocked Hopen]. destruct (locked cp) eqn:Hlp.
  - destruct (Hlocked eq_refl) as [Hv _]. rewrite Hp in Hv. injection Hv as ->.
    by destruct (Hprop p cp u cu Hcp Hlp Hcu Hlu Hsu).
  - destruct (Hopen eq_refl) as (w & Hw & Hin). rewrite Hp in Hw. injection Hw as <-.
    assert (p ∈ filter (λ case, holds_candidate g k case) U) as Hpf.
    { apply list_elem_of_filter. split; [|done].
      apply Is_true_true, holds_candidate_true. by exists cp. }
    rewrite Hf in Hpf. apply list_elem_of_singleton in Hpf. by subst p.
Qed.

Lemma force_unique_sound g0 U acc k :
  sound sol g0 → unit_cells U → (1 ≤ k ≤ 9)%Z →
  sound sol acc.1.1 → sound sol (force_unique acc (val_entry g0 U k)).1.1.
Proof.
  intros Hg0 HU Hk Hacc. unfold force_unique, val_entry. cbn [fst snd].
  destruct (filter _ U) as [|u [|]] eqn:Hf; try done.
  destruct (acc.1.1 !! u) as [cell|] eqn:Hu; [|done]. cbn [fst snd].
  apply lock_propagate_sound; [done..| |done].
  exact (hidden_single_sound g0 U k u Hg0 HU Hk Hf).
Qed.

Lemma force_unique_fold_sound g0 U l acc :
  sound sol g0 → unit_cells U → Forall (λ k, (1 ≤ k ≤ 9)%Z) l →
  sound sol acc.1.1 →
  sound sol (foldl force_unique acc (val_entry g0 U <$> l)).1.1.
Proof.
  intros Hg0 HU Hl. revert acc. induction Hl as [|k l Hk _ IH]; intros acc Hacc; [done|].
  csimpl. apply IH. by apply force_unique_sound.
Qed.

Lemma find_unique_sound g U :
  sound sol g → unit_cells U → sound sol (find_unique choice g U).1.
Proof.
  intros Hg HU. unfold find_unique. cbn [fst]. apply set_values_sound.
  rewrite dico_val_entries. apply force_unique_fold_sound; [done..| |done].
  apply Forall_forall. intros k. apply digits_range.
Qed.

(** Two cells of a unit with the same two candidates take them both:
    the digit of the solution of any other cell of the unit is neither. *)
Lemma naked_pair_sound g U key a b p w :
  sound sol g → unit_cells U →
  filter (λ case, pair_cell g key case) U = [a; b] →
  p ∈ U → p ∉ [a; b] → sol !! p = Some w → w ∉ key.
Proof.
  intros (Hwn & Hprop & Hag) HU Hf HpU Hpab Hw Hin.
  pose proof HU as (Hnd & _).
  assert (NoDup [a; b]) as Hab by (rewrite <- Hf; by apply NoDup_filter).
  apply NoDup_cons in Hab as [Hab _]. rewrite list_elem_of_singleton in Hab.
  assert (∀ x, x ∈ [a; b] →
            x ∈ U ∧ ∃ wx, sol !! x = Some wx ∧ wx ∈ key ∧ size key = 2) as Hpair.
  { intros x Hx. rewrite <- Hf in Hx. apply list_elem_of_filter in Hx as [Hx HxU].
    split; [done|]. apply Is_true_true, pair_cell_true in Hx as (cx & Hcx & Hsz & Hd).
    destruct (Hag x cx Hcx) as [Hlocked Hopen]. destruct (locked cx) eqn:Hl.
    - destruct (Hlocked eq_refl) as [_ Hsub]. apply subseteq_size in Hsub.
      rewrite size_singleton in Hsub. lia.
    - destruct (Hopen eq_refl) as (wx & Hwx & Hinx). exists wx. subst key. done. }
  destruct (Hpair a ltac:(left)) as (HaU & wa & Hwa & Hina & Hsz).
  destruct (Hpair b ltac:(right; left)) as (HbU & wb & Hwb & Hinb & _).
  destruct (unit_cells_elem U a b HU HaU HbU) as (Ha81 & Hb81 & Hsab).
  destruct (unit_cells_elem U a p HU HaU HpU) as (_ & Hp81 & Hsap).
  destruct (unit_cells_elem U b p HU HbU HpU) as (_ & _ & Hsbp).
  assert (wa ≠ wb) as Hne.
  { intros ->. by apply (solution_differ sol a b wb Hsol Ha81 Hb81 Hab Hsab Hwa). }
  assert (key = {[wa]} ∪ {[wb]}) as Hkey.
  { symmetry. apply set_subseteq_size_eq; [set_solver|].
    rewrite size_union by set_solver. rewrite !size_singleton. lia. }
  rewrite Hkey in Hin.
  apply elem_of_union in Hin as [Hin%elem_of_singleton|Hin%elem_of_singleton]; subst w.
  - apply (solution_differ sol a p wa Hsol Ha81 Hp81); [|done..].
    intros ->. apply Hpab. left.
  - apply (solution_differ sol b p wb Hsol Hb81 Hp81); [|done..].
    intros ->. apply Hpab. right. left.
Qed.

Lemma reduce_others_sound key pair_list acc case :
  sound sol acc.1 →
  (case ∉ pair_list → ∀ w, sol !! case = Some w → w ∉ key) →
  sound sol (reduce_others key pair_list acc case).1.
Proof.
  intros Hacc Hout. unfold reduce_others. case_decide as Hin; [done|].
  destruct (acc.1 !! case) as [c|] eqn:Hc; [|done]. cbn [fst].
  apply reduce_domain_sound; [done..|].
  intros _ w Hw. rewrite elem_of_elements. by apply Hout.
Qed.

Lemma dico_entry_unique {A B} (l : list (A * B)) k x y :
  NoDup l.*1 → (k, x) ∈ l → (k, y) ∈ l → x = y.
Proof.
  induction l as [|[k' z] l IH]; intros Hnd Hx Hy; [by apply elem_of_nil in Hx|].
  rewrite fmap_cons in Hnd. apply NoDup_cons in Hnd as [Hk Hnd]. cbn [fst] in Hk.
  apply elem_of_cons in Hx as [Hx|Hx]; apply elem_of_cons in Hy as [Hy|Hy].
  - congruence.
  - injection Hx as -> ->. destruct Hk. by apply (list_elem_of_fmap_2 fst) in Hy.
  - injection Hy as -> ->. destruct Hk. by apply (list_elem_of_fmap_2 fst) in Hx.
  - by apply IH.
Qed.

Lemma dico_paires_lists g U kl :
  kl ∈ dico_paires g U → kl.2 = filter (λ case, pair_cell g kl.1 case) U.
Proof.
  intros Hkl. destruct (dico_paires_entries g U) as [Hnd Hall].
  destruct (Hall kl.1) as [Hnone Hsome].
  destruct (decide (filter (λ case, pair_cell g kl.1 case) U = [])) as [He|Hne].
  - destruct (Hnone He). by apply list_elem_of_fmap_2.
  - apply (dico_entry_unique (dico_paires g U) kl.1); [done| |by apply Hsome].
    by destruct kl.
Qed.

Lemma reduce_pair_sound g0 U acc kl :
  sound sol g0 → unit_cells U → kl ∈ dico_paires g0 U →
  sound sol acc.1 → sound sol (reduce_pair U acc kl).1.
Proof.
  intros Hg0 HU Hkl Hacc. unfold reduce_pair. case_decide as Hlen; [|done].
  pose proof (dico_paires_lists g0 U kl Hkl) as Hlist.
  destruct kl.2 as [|a [|b [|]]] eqn:Hab; try done. symmetry in Hlist.
  assert (∀ l, (∀ case, case ∈ l → case ∈ U) →
            sound sol (foldl (reduce_others kl.1 [a; b]) acc l).1) as Hfold.
  { intros l. revert acc Hacc. induction l as [|case l IH]; intros acc Hacc Hl; [done|].
    cbn [foldl]. apply IH; [|intros; apply Hl; by right].
    apply reduce_others_sound; [done|]. intros Hout w Hw.
    apply (naked_pair_sound g0 U kl.1 a b case w); [done..|apply Hl; left|done|done]. }
  by apply Hfold.
Qed.

Lemma find_pairs_sound g U :
  sound sol g → unit_cells U → sound sol (find_pairs choice g U).1.
Proof.
  intros Hg HU. unfold find_pairs. cbn [fst]. apply set_values_sound.
  assert (∀ l acc, (∀ kl, kl ∈ l → kl ∈ dico_paires g U) → sound sol acc.1 →
            sound sol (foldl (reduce_pair U) acc l).1) as Hfold.
  { induction l as [|kl l IH]; intros acc Hl Hacc; [done|].
    cbn [foldl]. apply IH; [intros; apply Hl; by right|].
    apply (reduce_pair_sound g); [done..|apply Hl; left|done]. }
  by apply Hfold.
Qed.

(** The lines, columns and squares that [solve] hands to the techniques. *)
Definition unit_view (view : Grid → nat → list nat) : Prop :=
  ∀ g i, well_numbered g → i < 9 → unit_cells (view g i).

Lemma line_unit_view : unit_view line.
Proof. intros g i Hwn Hi. by apply views_unit_cells. Qed.

Lemma column_unit_view : unit_view column.
Proof. intros g i Hwn Hi. by apply views_unit_cells. Qed.

Lemma square_unit_view : unit_view square.
Proof. intros g i Hwn Hi. by apply views_unit_cells. Qed.

Lemma call_sound technique view acc i :
  (∀ g U, sound sol g → unit_cells U → sound sol (technique g U).1) →
  unit_view view → i < 9 → sound sol acc.1 → sound sol (call technique view acc i).1.
Proof.
  intros Ht Hview Hi Hacc. unfold call. cbn [fst]. apply Ht; [done|].
  apply Hview; [apply Hacc|done].
Qed.

Lemma sweep_unique_sound view acc :
  unit_view view → sound sol acc.1 → sound sol (sweep_unique choice view acc).1.
Proof.
  intros Hview. unfold sweep_unique.
  assert (Forall (λ i, i < 9) (seq 0 9)) as Hl by (apply Forall_seq; lia).
  revert acc. induction Hl as [|i l Hi _ IH]; intros acc Hacc; [done|].
  cbn [foldl]. apply IH. apply call_sound; [apply find_unique_sound|done..].
Qed.

Lemma sweep_unique_pairs_sound view acc :
  unit_view view → sound sol acc.1 → sound sol (sweep_unique_pairs choice view acc).1.
Proof.
  intros Hview. unfold sweep_unique_pairs.
  assert (Forall (λ i, i < 9) (seq 0 9)) as Hl by (apply Forall_seq; lia).
  revert acc. induction Hl as [|i l Hi _ IH]; intros acc Hacc; [done|].
  cbn [foldl]. apply IH. apply call_sound; [apply find_pairs_sound|done..|].
  apply call_sound; [apply find_unique_sound|done..].
Qed.

Lemma solve_round_sound lvl g : sound sol g → sound sol (solve_round choice lvl g).1.
Proof.
  intros Hg. unfold solve_round. repeat case_decide; [| |done].
  - repeat apply sweep_unique_sound;
      [apply square_unit_view|apply column_unit_view|apply line_unit_view|done].
  - repeat apply sweep_unique_pairs_sound;
      [apply square_unit_view|apply column_unit_view|apply line_unit_view|done].
Qed.

Lemma solve_loop_sound budget lvl g :
  sound sol g → sound sol (solve_loop choice budget lvl g).
Proof.
  revert g. induction budget as [|n IH]; intros g Hg; [done|]. rewrite solve_loop_S.
  destruct (any _); [apply IH|]; by apply solve_round_sound.
Qed.

Lemma parse_clue_sound g p v :
  ((1 ≤ v ≤ 9)%Z → sol !! p = Some v) → sound sol g → sound sol (parse_clue g p v).
Proof.
  intros Hv Hg. unfold parse_clue. destruct (g !! p) as [cell|] eqn:Hp; [|done].
  case_decide as Hrange; [|done]. destruct (locked cell); [done|].
  case_decide; [|done]. apply lock_propagate_sound; [done..|apply Hv; lia|done].
Qed.

Lemma parse_clues_sound g clues :
  Forall (λ pv, (1 ≤ pv.2 ≤ 9)%Z → sol !! pv.1 = Some pv.2) clues →
  sound sol g → sound sol (parse_clues g clues).
Proof.
  intros Hall. revert g. induction Hall as [|pv clues Hpv _ IH]; intros g Hg; [done|].
  cbn [parse_clues foldl]. apply IH. by apply parse_clue_sound.
Qed.

Lemma grid_parser_sound l g :
  (∀ p v, l !! p = Some v → (1 ≤ v ≤ 9)%Z → sol !! p = Some v) →
  grid_parser (Flat l) = Some g → sound sol g.
Proof.
  intros Hl. rewrite (grid_parser_returns (Flat l) I), clues_of_flat. intros [= <-].
  apply parse_clues_sound; [|by apply sound_reset].
  apply Forall_forall. intros [p v] Hpv Hv. cbn [fst snd] in *. apply Hl; [|done].
  apply elem_of_lookup_imap in Hpv as (p' & v' & [= -> ->] & Hp).
  by apply lookup_take_Some in Hp as [? _].
Qed.

(** X13.  The techniques are sound.  Take a filled grid [sol] that obeys
    the rule of the game, and a grid of 81 cells numbered by position, in
    which the value of a locked cell is out of the candidates of the open
    cells of its units, whose locked cells hold the digit of [sol] and
    whose open cells have it among their candidates.  Then the same holds
    after [set_values] on any worklist, after [find_unique] and
    [find_pairs] on any line, column or square, and after [solve] at any
    level: no technique locks a cell on a digit other than the one of
    [sol], and none takes that digit away from an open cell. *)
Theorem techniques_are_sound (lvl : Z) (g : Grid) (cells : gset nat) (i : nat) :
  sound sol g → i < 9 →
  sound sol (set_values choice g cells).1 ∧
  sound sol (find_unique choice g (line g i)).1 ∧
  sound sol (find_unique choice g (column g i)).1 ∧
  sound sol (find_unique choice g (square g i)).1 ∧
  sound sol (find_pairs choice g (line g i)).1 ∧
  sound sol (find_pairs choice g (column g i)).1 ∧
  sound sol (find_pairs choice g (square g i)).1 ∧
  sound sol (solve choice lvl g).
Proof.
  intros Hg Hi. pose proof Hg as (Hwn & _).
  destruct (views_unit_cells g i Hwn Hi) as (Hl & Hc & Hs).
  split; [by apply set_values_sound|].
  do 3 (split; [by apply find_unique_sound|]).
  do 3 (split; [by apply find_pairs_sound|]).
  by apply solve_loop_sound.
Qed.

(** X14.  The solver is sound on a puzzle that has a solution.  If the
    list of integers handed to [grid_parser] agrees with a filled grid
    [sol] that obeys the rule of the game (each of its entries in 1..9 is
    the digit of [sol] at that position), then in the grid that [solve]
    leaves, at any level and whatever the order in which cells are
    popped, every locked cell holds the digit of [sol] and every open
    cell still has the digit of [sol] among its candidates.  So the
    digits the solver writes are the same in every solution of the
    puzzle, and when all the cells are locked the grid is [sol]. *)
Theorem solve_is_sound (lvl : Z) (l : list Z) (g : Grid) :
  (∀ p v, l !! p = Some v → (1 ≤ v ≤ 9)%Z → sol !! p = Some v) →
  grid_parser (Flat l) = Some g →
  (∀ p cp, solve choice lvl g !! p = Some cp →
     (locked cp = true → sol !! p = Some (value cp)) ∧
     (locked cp = false → ∃ v, sol !! p = Some v ∧ v ∈ domain cp)) ∧
  (all_locked (solve choice lvl g) → value <$> solve choice lvl g = sol).
Proof.
  intros Hl Hg.
  assert (sound sol (solve choice lvl g)) as (Hwn & _ & Hag)
    by (by eapply solve_loop_sound, grid_parser_sound).
  split.
  - intros p cp Hp. destruct (Hag p cp Hp) as [Hlocked Hopen].
    split; [intros Hlp; by apply Hlocked|done].
  - intros Hall. apply list_eq. intros p. rewrite list_lookup_fmap.
    destruct (solve choice lvl _ !! p) as [cp|] eqn:Hp; cbn [fmap option_fmap option_map].
    + unfold all_locked in Hall. rewrite Forall_forall in Hall.
      destruct (Hag p cp Hp) as [Hlocked _]. symmetry. apply Hlocked, Hall.
      by eapply list_elem_of_lookup_2.
    + symmetry. apply lookup_ge_None. apply lookup_ge_None in Hp.
      destruct Hsol as [-> _]. by rewrite <- (well_numbered_length _ Hwn).
Qed.

End Soundness.

Lemma agree_by_entries (l sol : list Z) :
  Forall (λ pv, (1 ≤ pv.2 ≤ 9)%Z → sol !! pv.1 = Some pv.2) (enumerate l) →
  ∀ p v, l !! p = Some v → (1 ≤ v ≤ 9)%Z → sol !! p = Some v.
Proof.
  intros Hall p v Hp Hv. rewrite Forall_forall in Hall.
  apply (Hall (p, v)); [|done]. apply elem_of_lookup_imap. by exists p, v.
Qed.

Lemma techniques_are_sound_witness :
  sound solved_seed (set_values pop_first (seeded (Flat test_puzzle)) {[0]}).1 ∧
  sound solved_seed
    (find_unique pop_first (seeded (Flat test_puzzle)) (line (seeded (Flat test_puzzle)) 4)).1 ∧
  sound solved_seed
    (find_unique pop_first (seeded (Flat test_puzzle)) (column (seeded (Flat test_puzzle)) 4)).1 ∧
  sound solved_seed
    (find_unique pop_first (seeded (Flat test_puzzle)) (square (seeded (Flat test_puzzle)) 4)).1 ∧
  sound solved_seed
    (find_pairs pop_first (seeded (Flat test_puzzle)) (line (seeded (Flat test_puzzle)) 4)).1 ∧
  sound solved_seed
    (find_pairs pop_first (seeded (Flat test_puzzle)) (column (seeded (Flat test_puzzle)) 4)).1 ∧
  sound solved_seed
    (find_pairs pop_first (seeded (Flat test_puzzle)) (square (seeded (Flat test_puzzle)) 4)).1 ∧
  sound solved_seed (solve pop_first 2 (seeded (Flat test_puzzle))).
Proof.
  assert (solution solved_seed) as Hsol by (apply (bool_decide_unpack _); vm_compute; exact I).
  apply (techniques_are_sound pop_first solved_seed Hsol 2 (seeded (Flat test_puzzle)) {[0]} 4);
    [|lia].
  apply (grid_parser_sound solved_seed Hsol test_puzzle); [|vm_compute; reflexivity].
  apply agree_by_entries, (bool_decide_unpack _). vm_compute. exact I.
Defined.

Lemma solve_is_sound_witness :
  (∀ p cp, solve pop_first 2 (seeded (Flat test_puzzle)) !! p = Some cp →
     (locked cp = true → solved_seed !! p = Some (value cp)) ∧
     (locked cp = false → ∃ v, solved_seed !! p = Some v ∧ v ∈ domain cp)) ∧
  (all_locked (solve pop_first 2 (seeded (Flat test_puzzle))) →
   value <$> solve pop_first 2 (seeded (Flat test_puzzle)) = solved_seed).
Proof.
  assert (solution solved_seed) as Hsol by (apply (bool_decide_unpack _); vm_compute; exact I).
  apply (solve_is_sound pop_first solved_seed Hsol 2 test_puzzle (seeded (Flat test_puzzle)));
    [|vm_compute; reflexivity].
  apply agree_by_entries, (bool_decide_unpack _). vm_compute. exact I.
Defined.

(** ** The order in which cells are popped does not matter

    [cells.pop()] takes an arbitrary cell out of the worklist.  On a grid
    that is sound for some solution the grid that [set_values] leaves is
    the same for every pop order: the cells that [update_value] empties
    are the same, only the order changes. *)

(** The cell at [c] has been emptied by [update_value] since [g0]. *)
Definition fired (g0 g : Grid) (c : nat) : Prop :=
  ∃ c0 cs, g0 !! c = Some c0 ∧ g !! c = Some cs ∧ domain c0 ≠ ∅ ∧ domain cs = ∅.

(** The grid [g] is [g0] after the cells that have fired were locked on
    the digit of the solution and propagated. *)
Definition shaped (sol : list Z) (g0 g : Grid) : Prop :=
  ∀ p c0 cs, g0 !! p = Some c0 → g !! p = Some cs →
    (fired g0 g p →
       cs = {| idnum := idnum c0; value := default 0%Z (sol !! p);
               domain := ∅; locked := true |}) ∧
    (¬ fired g0 g p →
       idnum cs = idnum c0 ∧ value cs = value c0 ∧ locked cs = locked c0 ∧
       (locked c0 = true → domain cs = domain c0) ∧
       (locked c0 = false →
          ∀ v, v ∈ domain cs ↔
               v ∈ domain c0 ∧
               ¬ ∃ c, fired g0 g c ∧ same_unit p c ∧ sol !! c = Some v)).

Lemma fired_dec g0 g c : fired g0 g c ∨ ¬ fired g0 g c.
Proof.
  unfold fired. destruct (g0 !! c) as [c0|]; [|right; by intros (? & ? & ? & _)].
  destruct (g !! c) as [cs|]; [|right; by intros (? & ? & _ & ? & _)].
  destruct (decide (domain c0 ≠ ∅ ∧ domain cs = ∅)) as [?|Hn]; [left; by exists c0, cs|].
  right. intros (? & ? & [= <-] & [= <-] & ? & ?). tauto.
Qed.

Lemma cell_eq (c c' : Cell) :
  idnum c = idnum c' → value c = value c' → domain c = domain c' → locked c = locked c' →
  c = c'.
Proof. destruct c, c'; simpl; congruence. Qed.

Lemma shaped_same sol g0 g g' :
  length g = length g0 → length g' = length g0 →
  shaped sol g0 g → shaped sol g0 g' →
  (∀ c, fired g0 g c ↔ fired g0 g' c) → g = g'.
Proof.
  intros Hlen Hlen' Hsh Hsh' Hf. apply list_eq. intros p.
  destruct (g !! p) as [cs|] eqn:Hp.
  - destruct (lookup_lt_is_Some_2 g0 p) as [c0 Hc0];
      [rewrite <- Hlen; by eapply lookup_lt_Some|].
    destruct (lookup_lt_is_Some_2 g' p) as [cs' Hp'];
      [rewrite Hlen', <- Hlen; by eapply lookup_lt_Some|].
    rewrite Hp'. f_equal.
    destruct (Hsh p c0 cs Hc0 Hp) as [Hfired Hnot].
    destruct (Hsh' p c0 cs' Hc0 Hp') as [Hfired' Hnot'].
    destruct (fired_dec g0 g p) as [Hfp|Hfp].
    + rewrite (Hfired Hfp), (Hfired' (proj1 (Hf p) Hfp)). done.
    + destruct (Hnot Hfp) as (Hi & Hv & Hl & Hdl & Hdo).
      destruct (Hnot' (λ H, Hfp (proj2 (Hf p) H))) as (Hi' & Hv' & Hl' & Hdl' & Hdo').
      apply cell_eq; [congruence..| |congruence].
      destruct (locked c0) eqn:Hl0; [by rewrite Hdl, Hdl'|].
      apply set_eq. intros v. rewrite (Hdo eq_refl), (Hdo' eq_refl).
      split; intros [? Hn]; (split; [done|]); intros (c & Hc & ?); apply Hn; exists c;
        (split; [by apply Hf|done]).
  - symmetry. apply lookup_ge_None. apply lookup_ge_None in Hp. lia.
Qed.

Section PopOrder.

Variable sol : list Z.
Hypothesis Hsol : solution sol.
Variable g0 : Grid.
Variable cells0 : gset nat.

(** Every cell of the worklist was there at the start, or has lost to a
    cell that has fired a candidate that it had at the start. *)
Definition justified (s : Grid * gset nat * bool) : Prop :=
  ∀ p, p ∈ s.1.2 →
    p ∈ cells0 ∨
    ∃ c0 c v, g0 !! p = Some c0 ∧ locked c0 = false ∧ fired g0 s.1.1 c ∧
              same_unit p c ∧ sol !! c = Some v ∧ v ∈ domain c0.

Definition run_inv (s : Grid * gset nat * bool) : Prop :=
  sound sol s.1.1 ∧ settles g0 s.1.1 ∧ shaped sol g0 s.1.1 ∧ justified s.

Lemma single_candidate_sol (g : Grid) c cell v :
  sound sol g → g !! c = Some cell → domain cell = {[v]} → sol !! c = Some v.
Proof.
  intros (_ & _ & Hag) Hc Hd. destruct (Hag c cell Hc) as [Hlocked Hopen].
  destruct (locked cell) eqn:Hl.
  - destruct (Hlocked eq_refl) as [Hv Hsub]. rewrite Hv. f_equal.
    rewrite Hd in Hsub. assert (v ∈ ({[value cell]} : gset Z)) as Hin by set_solver.
    by apply elem_of_singleton in Hin.
  - destruct (Hopen eq_refl) as (w & Hw & Hin). rewrite Hw. f_equal.
    rewrite Hd in Hin. by apply elem_of_singleton in Hin.
Qed.

(** The grid after the cell at [c], which has the single candidate [v],
    has fired. *)
Lemma fire_cells (g : Grid) c cell v :
  sound sol g → g !! c = Some cell → domain cell = {[v]} →
  sol !! c = Some v ∧
  (propagate (<[c := {| idnum := idnum cell; value := v; domain := ∅; locked := true |}]> g)
             c).1 !! c
  = Some {| idnum := idnum cell; value := v; domain := ∅; locked := true |} ∧
  ∀ q cq, q ≠ c → g !! q = Some cq →
    ∃ cq',
      (propagate (<[c := {| idnum := idnum cell; value := v; domain := ∅; locked := true |}]> g)
                 c).1 !! q = Some cq' ∧
      idnum cq' = idnum cq ∧ value cq' = value cq ∧ locked cq' = locked cq ∧
      (locked cq = true → cq' = cq) ∧
      (locked cq = false → ∀ w, w ∈ domain cq' ↔ w ∈ domain cq ∧ (same_unit q c → w ≠ v)).
Proof.
  intros Hs Hc Hd. pose proof Hs as (Hwn & _).
  set (newc := {| idnum := idnum cell; value := v; domain := ∅; locked := true |}).
  pose proof (lock_propagate_cells g c cell newc Hwn Hc eq_refl eq_refl) as Hcells.
  cbn [value newc] in Hcells. fold newc in Hcells.
  split; [by eapply single_candidate_sol|]. split.
  - by rewrite (Hcells c cell Hc), decide_True.
  - intros q cq Hqc Hq. rewrite (Hcells q cq Hq), decide_False by done.
    destruct (decide (same_unit q c)) as [Hsu|Hsu].
    + eexists. split; [done|]. unfold struck.
      destruct (locked cq) eqn:Hlq; cbn [set_domain idnum value locked domain];
        repeat split; try done; try congruence.
      all: set_solver.
    + exists cq. repeat split; try done. all: tauto.
Qed.

Lemma sound_open_candidate (g : Grid) p cp :
  sound sol g → g !! p = Some cp → locked cp = false → domain cp ≠ ∅.
Proof.
  intros (_ & _ & Hag) Hp Hl. destruct (Hag p cp Hp) as [_ Hopen].
  destruct (Hopen Hl) as (w & _ & Hin). set_solver.
Qed.

Lemma fire_fired (g : Grid) c cell v q :
  sound sol g → settles g0 g → g !! c = Some cell → domain cell = {[v]} →
  fired g0
    (propagate (<[c := {| idnum := idnum cell; value := v; domain := ∅; locked := true |}]> g)
               c).1 q
  ↔ fired g0 g q ∨ q = c.
Proof.
  intros Hs Hset Hc Hd. pose proof Hs as (Hwn & _ & Hag).
  destruct (fire_cells g c cell v Hs Hc Hd) as (Hv & Hc' & Hother).
  pose proof (proj2 (well_numbered_lookup g c cell Hwn Hc)) as Hc81.
  split.
  - intros (c0 & cs' & Hq0 & Hq' & Hne & He).
    destruct (decide (q = c)) as [|Hqc]; [by right|left].
    destruct (settles_lookup _ _ _ _ Hset Hq0) as (cq & Hq & _).
    destruct (Hother q cq Hqc Hq) as (cq' & Hq'' & _ & _ & Hl & Hlocked & Hopen).
    rewrite Hq' in Hq''. injection Hq'' as <-.
    destruct (locked cq) eqn:Hlq.
    + rewrite (Hlocked eq_refl) in He. by exists c0, cq.
    + exfalso. destruct (Hag q cq Hq) as [_ Hop]. destruct (Hop Hlq) as (w & Hw & Hin).
      assert (w ∈ domain cs'); [|set_solver]. apply (Hopen eq_refl). split; [done|].
      intros Hsu ->.
      pose proof (proj2 (well_numbered_lookup g q cq Hwn Hq)) as Hq81.
      by apply (solution_differ sol c q v Hsol Hc81 Hq81 ltac:(done)
                  (same_unit_sym _ _ Hsu) Hv).
  - intros [(c0 & cs & Hq0 & Hq & Hne & He) | ->].
    + assert (q ≠ c) as Hqc.
      { intros ->. rewrite Hc in Hq. injection Hq as <-. rewrite Hd in He. set_solver. }
      destruct (Hother q cs Hqc Hq) as (cq' & Hq' & _ & _ & _ & Hlocked & _).
      destruct (locked cs) eqn:Hl; [|by destruct (sound_open_candidate g q cs Hs Hq Hl)].
      rewrite (Hlocked eq_refl) in Hq'. by exists c0, cs.
    + destruct (Forall2_lookup_r _ _ _ _ _ Hset Hc) as (c0 & Hc0 & _ & Hsub & _).
      exists c0, {| idnum := idnum cell; value := v; domain := ∅; locked := true |}.
      repeat split; [done..|]. rewrite Hd in Hsub. set_solver.
Qed.

Lemma fire_shaped (g : Grid) c cell v :
  sound sol g → settles g0 g → shaped sol g0 g → g !! c = Some cell → domain cell = {[v]} →
  shaped sol g0
    (propagate (<[c := {| idnum := idnum cell; value := v; domain := ∅; locked := true |}]> g)
               c).1.
Proof.
  intros Hs Hset Hsh Hc Hd.
  destruct (fire_cells g c cell v Hs Hc Hd) as (Hv & Hc' & Hother).
  assert (∀ q, fired g0
                 (propagate
                    (<[c := {| idnum := idnum cell; value := v; domain := ∅;
                               locked := true |}]> g) c).1 q
               ↔ fired g0 g q ∨ q = c) as Hff
    by (intros q; by apply fire_fired).
  assert (¬ fired g0 g c) as Hnc.
  { intros (c0 & cs & _ & Hcs & _ & He). rewrite Hc in Hcs. injection Hcs as <-.
    rewrite Hd in He. set_solver. }
  intros p c0 cs' Hp0 Hp'.
  destruct (decide (p = c)) as [->|Hpc].
  - rewrite Hc' in Hp'. injection Hp' as <-.
    destruct (Hsh c c0 cell Hp0 Hc) as [_ Hnot]. destruct (Hnot Hnc) as (Hi & _).
    split; [intros _; by rewrite Hi, Hv|]. intros Hn. destruct Hn. apply Hff; auto.
  - destruct (settles_lookup _ _ _ _ Hset Hp0) as (cq & Hq & _).
    destruct (Hother p cq Hpc Hq) as (cq' & Hq' & Hi & Hval & Hl & Hlocked & Hopen).
    rewrite Hp' in Hq'. injection Hq' as <-.
    destruct (Hsh p c0 cq Hp0 Hq) as [Hfired Hnot]. split.
    + intros [Hf|?]%Hff; [|done]. rewrite <- (Hfired Hf).
      apply Hlocked. by rewrite (Hfired Hf).
    + intros Hn. assert (¬ fired g0 g p) as Hn0 by (intros ?; apply Hn, Hff; auto).
      destruct (Hnot Hn0) as (Hi0 & Hv0 & Hl0 & Hdl & Hdo).
      split; [congruence|]. split; [congruence|]. split; [congruence|]. split.
      * intros Hlc. rewrite Hlocked by congruence. by apply Hdl.
      * intros Hlc w. rewrite (Hopen ltac:(congruence)), (Hdo Hlc). split.
        -- intros [[Hin Hno] Hne]. split; [done|]. intros (c' & Hc'f & Hsu & Hw).
           apply Hff in Hc'f as [Hc'f | ->]; [apply Hno; eauto|].
           rewrite Hv in Hw. injection Hw as <-. by apply Hne.
        -- intros [Hin Hno]. split; [split; [done|]|].
           ++ intros (c' & Hc'f & Hsu & Hw). apply Hno. exists c'.
              split; [apply Hff; auto|done].
           ++ intros Hsu ->. apply Hno. exists c. split; [apply Hff; auto|done].
Qed.

Variable choice : gset nat → nat.

(** A turn of the loop of [set_values]: nothing fires, or the popped
    cell, which has a single candidate, does. *)
Lemma set_values_turn_cases s :
  ((set_values_turn choice s).1.1 = s.1.1 ∧ (set_values_turn choice s).1.2 ⊆ s.1.2) ∨
  ∃ c cell v,
    c ∈ s.1.2 ∧ s.1.1 !! c = Some cell ∧ domain cell = {[v]} ∧
    (set_values_turn choice s).1.1
    = (propagate
         (<[c := {| idnum := idnum cell; value := v; domain := ∅; locked := true |}]> s.1.1)
         c).1 ∧
    (set_values_turn choice s).1.2
    = s.1.2 ∖ {[c]} ∪
      (propagate
         (<[c := {| idnum := idnum cell; value := v; domain := ∅; locked := true |}]> s.1.1)
         c).2.
Proof.
  unfold set_values_turn.
  destruct (set_pop choice s.1.2) as [[c cells]|] eqn:Hpop; [|by left].
  apply set_pop_Some in Hpop as [Hc ->].
  destruct (cell_update_value s.1.1 c).2 eqn:Hb; cbn [fst snd].
  - right. destruct (cell_update_value_true _ _ Hb) as (cell & v & Hcell & Hv & ->).
    by exists c, cell, v.
  - left. rewrite (cell_update_value_false _ _ Hb). split; [done|set_solver].
Qed.

Lemma fired_mono (g g' : Grid) c :
  settles g g' → fired g0 g c → fired g0 g' c.
Proof.
  intros Hset (c0 & cs & Hc0 & Hcs & Hne & He).
  destruct (settles_lookup _ _ _ _ Hset Hcs) as (cs' & Hcs' & _ & Hsub & _).
  exists c0, cs'. repeat split; [done..|]. set_solver.
Qed.

Lemma set_values_turn_inv s : run_inv s → run_inv (set_values_turn choice s).
Proof.
  intros (Hs & Hset & Hsh & Hj).
  pose proof (set_values_turn_sound choice sol Hsol s Hs) as Hs'.
  pose proof (set_values_turn_settles choice s) as Hstep.
  assert (settles g0 (set_values_turn choice s).1.1) as Hset' by (by etrans).
  split; [done|]. split; [done|].
  destruct (set_values_turn_cases s) as [[Hg HW]|(c & cell & v & HcW & Hc & Hd & Hg & HW)].
  - rewrite Hg in *. split; [done|]. intros p Hp. rewrite Hg. apply Hj. set_solver.
  - split; [rewrite Hg; by apply fire_shaped|].
    intros p Hp. rewrite HW in Hp. apply elem_of_union in Hp as [Hp|Hp].
    + destruct (Hj p ltac:(set_solver)) as [?|(c0 & c' & w & ? & ? & Hf & ?)]; [by left|right].
      exists c0, c', w. do 2 (split; [done|]).
      split; [exact (fired_mono _ _ _ Hstep Hf)|done].
    + right. pose proof Hs as (Hwn & _).
      set (newc := {| idnum := idnum cell; value := v; domain := ∅; locked := true |}) in *.
      assert (<[c := newc]> s.1.1 !! c = Some newc) as Hc1
        by (apply list_lookup_insert_eq; by eapply lookup_lt_Some).
      destruct (propagate_cells _ c newc
                  (well_numbered_insert s.1.1 c cell newc Hwn Hc eq_refl) Hc1) as [_ Hrep].
      apply Hrep in Hp as (cp & Hcp & Hsu & Hlp & Hin & _). cbn [value newc] in Hin.
      assert (p ≠ c) as Hpc.
      { intros ->. rewrite Hc1 in Hcp. by injection Hcp as <-. }
      rewrite list_lookup_insert_ne in Hcp by done.
      destruct (Forall2_lookup_r _ _ _ _ _ Hset Hcp) as (c0 & Hc0 & _ & Hsub & Hl0 & _).
      exists c0, c, v. split; [done|]. split.
      { destruct (locked c0) eqn:Hlc0; [|done]. specialize (Hl0 eq_refl). congruence. }
      split; [rewrite Hg; apply fire_fired; auto|]. split; [done|].
      split; [exact (single_candidate_sol s.1.1 c cell v Hs Hc Hd)|]. set_solver.
Qed.

Lemma set_values_loop_inv fuel s : run_inv s → run_inv (set_values_loop choice fuel s).
Proof.
  revert s. induction fuel as [|fuel IH]; intros s Hs; [done|].
  rewrite set_values_loop_S. by apply IH, set_values_turn_inv.
Qed.

(** A grid [r] that another run from [g0] and [cells0] has left. *)
Definition closed_run (r : Grid) : Prop :=
  sound sol r ∧ settles g0 r ∧ shaped sol g0 r ∧
  ∀ p cell', r !! p = Some cell' → size (domain cell') = 1 →
             g0 !! p = Some cell' ∧ p ∉ cells0.

(** Whatever fires in a run has fired in any other run that is over. *)
Lemma set_values_turn_fired r s :
  closed_run r → run_inv s →
  (∀ c, fired g0 s.1.1 c → fired g0 r c) →
  ∀ c, fired g0 (set_values_turn choice s).1.1 c → fired g0 r c.
Proof.
  intros (Hr & Hrset & Hrsh & Hclosed) (Hs & Hset & Hsh & Hj) Hsub.
  destruct (set_values_turn_cases s) as [[Hg HW]|(c & cell & v & HcW & Hc & Hd & Hg & HW)];
    [by rewrite Hg|].
  intros q. rewrite Hg, (fire_fired s.1.1 c cell v q Hs Hset Hc Hd).
  intros [? | ->]; [by apply Hsub|].
  pose proof Hs as (Hwn & _ & Hag). pose proof Hr as (Hwnr & _ & Hagr).
  pose proof (single_candidate_sol s.1.1 c cell v Hs Hc Hd) as Hv.
  destruct (Forall2_lookup_r _ _ _ _ _ Hset Hc) as (c0 & Hc0 & _ & Hsub0 & Hl0 & _).
  destruct (settles_lookup _ _ _ _ Hrset Hc0) as (cr & Hcr & _).
  assert (domain c0 ≠ ∅) as Hne0 by (rewrite Hd in Hsub0; set_solver).
  destruct (decide (domain cr = ∅)) as [He|He]; [by exists c0, cr|]. exfalso.
  assert (¬ fired g0 r c) as Hnr.
  { intros (c0' & cr' & _ & Hcr' & _ & He'). rewrite Hcr in Hcr'. by injection Hcr' as <-. }
  assert (¬ fired g0 s.1.1 c) as Hns.
  { intros (c0' & cs' & _ & Hcs' & _ & He'). rewrite Hc in Hcs'. injection Hcs' as <-.
    rewrite Hd in He'. set_solver. }
  destruct (Hrsh c c0 cr Hc0 Hcr) as [_ Hrnot].
  destruct (Hrnot Hnr) as (_ & _ & Hlr & Hrdl & Hrdo).
  destruct (Hsh c c0 cell Hc0 Hc) as [_ Hsnot].
  destruct (Hsnot Hns) as (_ & _ & Hls & Hsdl & Hsdo).
  assert (domain cr = {[v]}) as Hdr.
  { destruct (locked c0) eqn:Hlc0.
    - rewrite (Hrdl eq_refl), <- (Hsdl eq_refl). done.
    - apply set_eq. intros w. rewrite elem_of_singleton. split.
      + intros Hw. apply (Hrdo eq_refl) in Hw as [Hw0 Hno].
        assert (w ∈ domain cell) as Hwc; [|rewrite Hd in Hwc; set_solver].
        apply (Hsdo eq_refl). split; [done|].
        intros (c' & Hc' & ?). apply Hno. exists c'. split; [by apply Hsub|done].
      + intros ->. destruct (Hagr c cr Hcr) as [_ Hop].
        destruct (Hop ltac:(congruence)) as (w & Hw & Hin). congruence. }
  destruct (Hclosed c cr Hcr) as [Hsame Hout]; [by rewrite Hdr, size_singleton|].
  rewrite Hc0 in Hsame. injection Hsame as ->.
  destruct (Hj c HcW) as [?|(c0' & c' & w & Hc0' & Hlc & Hf' & Hsu & Hw & Hin)]; [done|].
  rewrite Hc0 in Hc0'. injection Hc0' as <-. rewrite Hdr in Hin.
  apply elem_of_singleton in Hin as ->.
  assert (c' ≠ c) as Hne by (intros ->; done).
  destruct Hf' as (? & cs' & _ & Hcs' & _).
  pose proof (proj2 (well_numbered_lookup _ c cell Hwn Hc)) as Hc81.
  pose proof (proj2 (well_numbered_lookup _ c' cs' Hwn Hcs')) as Hc'81.
  by apply (solution_differ sol c c' v Hsol Hc81 Hc'81 ltac:(done) Hsu Hv).
Qed.

Lemma set_values_loop_fired r fuel s :
  closed_run r → run_inv s →
  (∀ c, fired g0 s.1.1 c → fired g0 r c) →
  ∀ c, fired g0 (set_values_loop choice fuel s).1.1 c → fired g0 r c.
Proof.
  intros Hr. revert s. induction fuel as [|fuel IH]; intros s Hs Hsub; [done|].
  rewrite set_values_loop_S. apply IH; [by apply set_values_turn_inv|].
  by apply set_values_turn_fired.
Qed.

End PopOrder.

Section AnyPopOrder.

Variables choice choice' : gset nat → nat.
Variable sol : list Z.
Hypothesis Hsol : solution sol.

Lemma shaped_start g : shaped sol g g.
Proof.
  assert (∀ c, ¬ fired g g c) as Hno.
  { intros c (c0 & cs & Hc0 & Hcs & Hne & He). rewrite Hc0 in Hcs. by injection Hcs as <-. }
  intros p c0 cs Hp0 Hp. rewrite Hp0 in Hp. injection Hp as <-.
  split; [intros ?; by destruct (Hno p)|]. intros _. do 4 (split; [done|]).
  intros _ v. split; [|tauto].
  intros Hv. split; [done|]. intros (c & ? & _). by destruct (Hno c).
Qed.

Lemma run_inv_start g cells : sound sol g → run_inv sol g cells (g, cells, false).
Proof.
  intros Hg. split; [done|]. split; [reflexivity|]. split; [apply shaped_start|].
  intros p Hp. by left.
Qed.

Lemma set_values_closed_run ch g cells :
  sound sol g → closed_run sol g cells (set_values ch g cells).1.
Proof.
  intros Hg.
  destruct (set_values_loop_inv sol Hsol g cells ch (size cells + candidates_left g)
              (g, cells, false) (run_inv_start g cells Hg)) as (Hs & Hset & Hsh & _).
  split; [done|]. split; [done|]. split; [done|].
  intros p cell'. apply set_values_closed.
Qed.

Lemma set_values_fired_sub ch ch' g cells c :
  sound sol g →
  fired g (set_values ch g cells).1 c → fired g (set_values ch' g cells).1 c.
Proof.
  intros Hg. apply (set_values_loop_fired sol Hsol g cells ch _ _ (g, cells, false)).
  - by apply set_values_closed_run.
  - by apply run_inv_start.
  - intros c' (c0 & cs & Hc0 & Hcs & Hne & He). cbn [fst] in Hcs.
    rewrite Hc0 in Hcs. by injection Hcs as <-.
Qed.

Lemma set_values_pop_order g cells :
  sound sol g → set_values choice g cells = set_values choice' g cells.
Proof.
  intros Hg.
  destruct (set_values_closed_run choice g cells Hg) as (_ & Hset & Hsh & _).
  destruct (set_values_closed_run choice' g cells Hg) as (_ & Hset' & Hsh' & _).
  assert ((set_values choice g cells).1 = (set_values choice' g cells).1) as Heq.
  { apply (shaped_same sol g); [by apply settles_length..|done|done|].
    intros c. split; by apply set_values_fired_sub. }
  destruct (set_values_change choice g cells) as [[Hb H1]|[Hb H1]];
    destruct (set_values_change choice' g cells) as [[Hb' H2]|[Hb' H2]];
    destruct (set_values choice g cells) as [r b], (set_values choice' g cells) as [r' b'];
    cbn [fst snd] in *; subst; try done; lia.
Qed.

Lemma find_unique_pop_order g U :
  sound sol g → unit_cells U → find_unique choice g U = find_unique choice' g U.
Proof.
  intros Hg HU. unfold find_unique. rewrite set_values_pop_order; [done|].
  rewrite dico_val_entries. apply force_unique_fold_sound; [done..| |done].
  apply Forall_forall. intros k. apply digits_range.
Qed.

Lemma reduce_pairs_sound g U :
  sound sol g → unit_cells U →
  sound sol (foldl (reduce_pair U) (g, false) (dico_paires g U)).1.
Proof.
  intros Hg HU.
  assert (∀ l acc, (∀ kl, kl ∈ l → kl ∈ dico_paires g U) → sound sol acc.1 →
            sound sol (foldl (reduce_pair U) acc l).1) as Hfold.
  { induction l as [|kl l IH]; intros acc Hl Hacc; [done|].
    cbn [foldl]. apply IH; [intros; apply Hl; by right|].
    apply (reduce_pair_sound sol Hsol g); [done..|apply Hl; left|done]. }
  by apply Hfold.
Qed.

Lemma find_pairs_pop_order g U :
  sound sol g → unit_cells U → find_pairs choice g U = find_pairs choice' g U.
Proof.
  intros Hg HU. unfold find_pairs. rewrite set_values_pop_order; [done|].
  by apply reduce_pairs_sound.
Qed.

Lemma call_pop_order technique technique' view acc i :
  (∀ g U, sound sol g → unit_cells U → technique g U = technique' g U) →
  unit_view view → i < 9 → sound sol acc.1 →
  call technique view acc i = call technique' view acc i.
Proof.
  intros Ht Hview Hi Hacc. unfold call. rewrite Ht; [done..|].
  apply Hview; [apply Hacc|done].
Qed.

Lemma sweep_unique_pop_order view acc :
  unit_view view → sound sol acc.1 →
  sweep_unique choice view acc = sweep_unique choice' view acc.
Proof.
  intros Hview. unfold sweep_unique.
  assert (Forall (λ i, i < 9) (seq 0 9)) as Hl by (apply Forall_seq; lia).
  revert acc. induction Hl as [|i l Hi _ IH]; intros acc Hacc; [done|].
  cbn [foldl].
  rewrite <- (call_pop_order (find_unique choice) (find_unique choice') view acc i
                find_unique_pop_order Hview Hi Hacc).
  apply IH. by apply call_sound; [apply (find_unique_sound choice sol Hsol)|..].
Qed.

Lemma sweep_unique_pairs_pop_order view acc :
  unit_view view → sound sol acc.1 →
  sweep_unique_pairs choice view acc = sweep_unique_pairs choice' view acc.
Proof.
  intros Hview. unfold sweep_unique_pairs.
  assert (Forall (λ i, i < 9) (seq 0 9)) as Hl by (apply Forall_seq; lia).
  revert acc. induction Hl as [|i l Hi _ IH]; intros acc Hacc; [done|].
  cbn [foldl].
  assert (sound sol (call (find_unique choice) view acc i).1) as Hu
    by (by apply call_sound; [apply (find_unique_sound choice sol Hsol)|..]).
  rewrite <- (call_pop_order (find_unique choice) (find_unique choice') view acc i
                find_unique_pop_order Hview Hi Hacc).
  rewrite <- (call_pop_order (find_pairs choice) (find_pairs choice') view _ i
                find_pairs_pop_order Hview Hi Hu).
  apply IH. by apply call_sound; [apply (find_pairs_sound choice sol Hsol)|..].
Qed.

Lemma solve_round_pop_order lvl g :
  sound sol g → solve_round choice lvl g = solve_round choice' lvl g.
Proof.
  intros Hg. unfold solve_round. repeat case_decide; [| |done].
  - rewrite <- (sweep_unique_pop_order line (g, [])) by (done || apply line_unit_view).
    rewrite <- (sweep_unique_pop_order column).
    + apply sweep_unique_pop_order; [apply square_unit_view|].
      apply (sweep_unique_sound choice sol Hsol); [apply column_unit_view|].
      by apply (sweep_unique_sound choice sol Hsol); [apply line_unit_view|].
    + apply column_unit_view.
    + by apply (sweep_unique_sound choice sol Hsol); [apply line_unit_view|].
  - rewrite <- (sweep_unique_pairs_pop_order line (g, [])) by (done || apply line_unit_view).
    rewrite <- (sweep_unique_pairs_pop_order column).
    + apply sweep_unique_pairs_pop_order; [apply square_unit_view|].
      apply (sweep_unique_pairs_sound choice sol Hsol); [apply column_unit_view|].
      by apply (sweep_unique_pairs_sound choice sol Hsol); [apply line_unit_view|].
    + apply column_unit_view.
    + by apply (sweep_unique_pairs_sound choice sol Hsol); [apply line_unit_view|].
Qed.

Lemma solve_loop_pop_order budget lvl g :
  sound sol g → solve_loop choice budget lvl g = solve_loop choice' budget lvl g.
Proof.
  revert g. induction budget as [|n IH]; intros g Hg; [done|].
  rewrite !solve_loop_S, <- (solve_round_pop_order lvl g Hg).
  destruct (any _); [|done]. apply IH. by apply solve_round_sound.
Qed.

(** X16.  The pop order does not matter.  On a grid that is sound for a
    filled grid [sol] that obeys the rule of the game, [set_values] on
    any worklist, [find_unique] and [find_pairs] on any line, column or
    square, and [solve] at any level leave the same grid and return the
    same result whatever cell each [cells.pop()] takes out of the
    worklist. *)
Theorem pop_order_does_not_matter (lvl : Z) (g : Grid) (cells : gset nat) (i : nat) :
  sound sol g → i < 9 →
  set_values choice g cells = set_values choice' g cells ∧
  find_unique choice g (line g i) = find_unique choice' g (line g i) ∧
  find_unique choice g (column g i) = find_unique choice' g (column g i) ∧
  find_unique choice g (square g i) = find_unique choice' g (square g i) ∧
  find_pairs choice g (line g i) = find_pairs choice' g (line g i) ∧
  find_pairs choice g (column g i) = find_pairs choice' g (column g i) ∧
  find_pairs choice g (square g i) = find_pairs choice' g (square g i) ∧
  solve choice lvl g = solve choice' lvl g.
Proof.
  intros Hg Hi. pose proof Hg as (Hwn & _).
  destruct (views_unit_cells g i Hwn Hi) as (Hl & Hc & Hs).
  split; [by apply set_values_pop_order|].
  do 3 (split; [by apply find_unique_pop_order|]).
  do 3 (split; [by apply find_pairs_pop_order|]).
  by apply solve_loop_pop_order.
Qed.

(** X17.  The solver is deterministic on a puzzle that has a solution:
    if the list of integers handed to [grid_parser] agrees with a filled
    grid that obeys the rule of the game, the grid that [solve] leaves
    does not depend on the cells that [cells.pop()] takes out of the
    worklists. *)
Theorem solve_is_deterministic (lvl : Z) (l : list Z) (g : Grid) :
  (∀ p v, l !! p = Some v → (1 ≤ v ≤ 9)%Z → sol !! p = Some v) →
  grid_parser (Flat l) = Some g →
  solve choice lvl g = solve choice' lvl g.
Proof.
  intros Hl Hg. apply solve_loop_pop_order. by eapply grid_parser_sound.
Qed.

End AnyPopOrder.

(** Another pop order: the last element of the set. *)
Definition pop_last (cells : gset nat) : nat := default 0 (last (elements cells)).

Lemma pop_order_does_not_matter_witness :
  set_values pop_first (seeded (Flat test_puzzle)) {[0]}
  = set_values pop_last (seeded (Flat test_puzzle)) {[0]} ∧
  find_unique pop_first (seeded (Flat test_puzzle)) (line (seeded (Flat test_puzzle)) 4)
  = find_unique pop_last (seeded (Flat test_puzzle)) (line (seeded (Flat test_puzzle)) 4) ∧
  find_unique pop_first (seeded (Flat test_puzzle)) (column (seeded (Flat test_puzzle)) 4)
  = find_unique pop_last (seeded (Flat test_puzzle)) (column (seeded (Flat test_puzzle)) 4) ∧
  find_unique pop_first (seeded (Flat test_puzzle)) (square (seeded (Flat test_puzzle)) 4)
  = find_unique pop_last (seeded (Flat test_puzzle)) (square (seeded (Flat test_puzzle)) 4) ∧
  find_pairs pop_first (seeded (Flat test_puzzle)) (line (seeded (Flat test_puzzle)) 4)
  = find_pairs pop_last (seeded (Flat test_puzzle)) (line (seeded (Flat test_puzzle)) 4) ∧
  find_pairs pop_first (seeded (Flat test_puzzle)) (column (seeded (Flat test_puzzle)) 4)
  = find_pairs pop_last (seeded (Flat test_puzzle)) (column (seeded (Flat test_puzzle)) 4) ∧
  find_pairs pop_first (seeded (Flat test_puzzle)) (square (seeded (Flat test_puzzle)) 4)
  = find_pairs pop_last (seeded (Flat test_puzzle)) (square (seeded (Flat test_puzzle)) 4) ∧
  solve pop_first 2 (seeded (Flat test_puzzle)) = solve pop_last 2 (seeded (Flat test_puzzle)).
Proof.
  assert (solution solved_seed) as Hsol by (apply (bool_decide_unpack _); vm_compute; exact I).
  apply (pop_order_does_not_matter pop_first pop_last solved_seed Hsol 2
           (seeded (Flat test_puzzle)) {[0]} 4); [|lia].
  apply (grid_parser_sound solved_seed Hsol test_puzzle); [|vm_compute; reflexivity].
  apply agree_by_entries, (bool_decide_unpack _). vm_compute. exact I.
Defined.

Lemma solve_is_deterministic_witness :
  solve pop_first 2 (seeded (Flat test_puzzle)) = solve pop_last 2 (seeded (Flat test_puzzle)).
Proof.
  assert (solution solved_seed) as Hsol by (apply (bool_decide_unpack _); vm_compute; exact I).
  apply (solve_is_deterministic pop_first pop_last solved_seed Hsol 2 test_puzzle
           (seeded (Flat test_puzzle))); [|vm_compute; reflexivity].
  apply agree_by_entries, (bool_decide_unpack _). vm_compute. exact I.
Defined.

(** ** What the solver never does, on any puzzle

    With or without a solution, the grid stays well formed: the solver
    never locks two cells of a line, a column or a square on the same
    digit. *)

(** A locked cell holds a digit and no other candidate; a cell that is
    not locked has value 0 and digits for candidates. *)
Definition tidy (g : Grid) : Prop :=
  ∀ p cp, g !! p = Some cp →
    (locked cp = true → (1 ≤ value cp ≤ 9)%Z ∧ domain cp ⊆ {[value cp]}) ∧
    (locked cp = false → value cp = 0%Z ∧ ∀ v, v ∈ domain cp → (1 ≤ v ≤ 9)%Z).

(** No two locked cells of a line, a column or a square hold the same
    digit. *)
Definition distinct (g : Grid) : Prop :=
  ∀ p cp q cq, g !! p = Some cp → g !! q = Some cq →
    locked cp = true → locked cq = true → p ≠ q → same_unit p q → value cp ≠ value cq.

Definition wellformed (g : Grid) : Prop :=
  well_numbered g ∧ propagated g ∧ tidy g ∧ distinct g.

Lemma loaded_wellformed g : well_numbered g → loaded g → wellformed g.
Proof.
  intros Hwn Hld. split; [done|]. split; [|split].
  - intros q cq p cp Hq Hlq Hp Hlp Hsu Hin.
    destruct (Hld p cp Hp) as [_ Hopen]. destruct (Hopen Hlp) as [_ Hdom].
    apply Hdom in Hin as [_ Hfree]. by apply (Hfree q cq).
  - intros p cp Hp. destruct (Hld p cp Hp) as [Hlocked Hopen]. split.
    + intros Hl. destruct (Hlocked Hl) as (Hv & -> & _). done.
    + intros Hl. destruct (Hopen Hl) as [Hv Hdom]. split; [done|].
      intros v Hin. by apply Hdom in Hin as [? _].
  - intros p cp q cq Hp Hq Hlp Hlq Hne Hsu.
    destruct (Hld q cq Hq) as [Hlocked _]. destruct (Hlocked Hlq) as (_ & _ & Hconf).
    apply (Hconf p cp Hp Hlp Hne). by apply same_unit_sym.
Qed.

(** The cells after the cell at [c] has been locked and propagated, seen
    from the new grid. *)
Lemma lock_propagate_back (g : Grid) c cell newc q cq2 :
  well_numbered g → g !! c = Some cell → idnum newc = idnum cell → locked newc = true →
  (propagate (<[c := newc]> g) c).1 !! q = Some cq2 →
  ∃ cq, g !! q = Some cq ∧
        ((q = c ∧ cq2 = newc) ∨
         (q ≠ c ∧ locked cq2 = locked cq ∧ value cq2 = value cq ∧
          domain cq2 ⊆ domain cq ∧
          (locked cq = true → cq2 = cq) ∧
          (locked cq = false → same_unit q c → value newc ∉ domain cq2))).
Proof.
  intros Hwn Hc Hid Hl Hq2.
  assert (well_numbered (propagate (<[c := newc]> g) c).1) as Hwn2.
  { eapply settles_well_numbered; [apply erodes_settles, propagate_erodes|].
    by eapply well_numbered_insert. }
  destruct (lookup_lt_is_Some_2 g q) as [cq Hq].
  { apply lookup_lt_Some in Hq2. rewrite (well_numbered_length _ Hwn2) in Hq2.
    by rewrite (well_numbered_length _ Hwn). }
  exists cq. split; [done|].
  rewrite (lock_propagate_cells g c cell newc Hwn Hc Hid Hl q cq Hq) in Hq2.
  injection Hq2 as <-.
  destruct (decide (q = c)) as [Hqc|Hqc]; [by left|right]. split; [done|].
  destruct (decide (same_unit q c)) as [Hsu|Hsu]; [|by repeat split].
  rewrite struck_locked, struck_value, struck_domain. unfold struck.
  destruct (locked cq) eqn:Hlq; repeat split; try done; set_solver.
Qed.

(** Locking a cell on a digit that no locked cell of its units holds. *)
Lemma lock_propagate_wellformed (g : Grid) c cell v d :
  wellformed g → g !! c = Some cell → (1 ≤ v ≤ 9)%Z → d ⊆ {[v]} →
  (∀ q cq, g !! q = Some cq → locked cq = true → q ≠ c → same_unit c q → value cq ≠ v) →
  wellformed
    (propagate (<[c := {| idnum := idnum cell; value := v; domain := d; locked := true |}]> g)
               c).1.
Proof.
  intros (Hwn & Hprop & Htidy & Hdist) Hc Hv Hd Hfree.
  set (newc := {| idnum := idnum cell; value := v; domain := d; locked := true |}).
  pose proof (λ q cq2, lock_propagate_back g c cell newc q cq2 Hwn Hc eq_refl eq_refl) as Hback.
  cbn [value newc] in Hback. fold newc in Hback.
  split.
  { eapply settles_well_numbered; [apply erodes_settles, propagate_erodes|].
    by eapply well_numbered_insert. }
  split; [|split].
  - intros q cq2 p cp2 Hq2 Hlq Hp2 Hlp Hsu.
    destruct (Hback q cq2 Hq2) as (cq & Hq & Hcq).
    destruct (Hback p cp2 Hp2) as (cp & Hp & [[-> ->]|(Hpc & Hl & _ & Hsub & _ & Hout)]);
      [done|].
    rewrite Hl in Hlp.
    destruct Hcq as [[-> ->]|(Hqc & Hl' & Hv' & _)]; [by apply Hout|].
    rewrite Hl' in Hlq. rewrite Hv'.
    pose proof (Hprop q cq p cp Hq Hlq Hp Hlp Hsu). set_solver.
  - intros p cp2 Hp2.
    destruct (Hback p cp2 Hp2) as (cp & Hp & [[-> ->]|(Hpc & Hl & Hval & Hsub & _)]);
      [by split|].
    destruct (Htidy p cp Hp) as [Hlocked Hopen]. rewrite Hl, Hval. split.
    + intros Hlp. destruct (Hlocked Hlp). split; [done|]. set_solver.
    + intros Hlp. destruct (Hopen Hlp) as [? Hdom]. split; [done|].
      intros w Hw. apply Hdom. set_solver.
  - intros p cp2 q cq2 Hp2 Hq2 Hlp Hlq Hne Hsu.
    destruct (Hback p cp2 Hp2) as (cp & Hp & [[-> ->]|(Hpc & Hl & Hval & _)]);
      destruct (Hback q cq2 Hq2) as (cq & Hq & [[-> ->]|(Hqc & Hl' & Hval' & _)]).
    + done.
    + rewrite Hval'. cbn [value newc]. intros Heq.
      apply (Hfree q cq Hq); [congruence|done|done|done].
    + rewrite Hval. cbn [value newc].
      apply (Hfree p cp Hp); [congruence|done|by apply same_unit_sym].
    + rewrite Hval, Hval'. apply (Hdist p cp q cq); congruence.
Qed.

(** Taking candidates away. *)
Lemma reduce_domain_wellformed (g : Grid) p cp values :
  wellformed g → g !! p = Some cp → wellformed (<[p := (reduce_domain cp values).1]> g).
Proof.
  intros (Hwn & Hprop & Htidy & Hdist) Hp.
  assert (∀ q cq', <[p := (reduce_domain cp values).1]> g !! q = Some cq' →
            ∃ cq, g !! q = Some cq ∧ locked cq' = locked cq ∧ value cq' = value cq ∧
                  domain cq' ⊆ domain cq) as Hback.
  { intros q cq' Hq'. destruct (decide (q = p)) as [->|Hqp].
    - rewrite list_lookup_insert_eq in Hq' by (by eapply lookup_lt_Some).
      injection Hq' as <-. exists cp. split; [done|].
      cbn [reduce_domain fst set_domain locked value domain]. repeat split. set_solver.
    - rewrite list_lookup_insert_ne in Hq' by done. by exists cq'. }
  split; [by eapply well_numbered_insert|]. split; [|split].
  - intros q cq' r cr' Hq' Hlq Hr' Hlr Hsu.
    destruct (Hback q cq' Hq') as (cq & Hq & Hl1 & Hv1 & _).
    destruct (Hback r cr' Hr') as (cr & Hr & Hl2 & _ & Hd2).
    rewrite Hv1. pose proof (Hprop q cq r cr Hq ltac:(congruence) Hr ltac:(congruence) Hsu).
    set_solver.
  - intros q cq' Hq'. destruct (Hback q cq' Hq') as (cq & Hq & Hl & Hv & Hd).
    destruct (Htidy q cq Hq) as [Hlocked Hopen]. rewrite Hl, Hv. split.
    + intros Hlq. destruct (Hlocked Hlq). split; [done|]. set_solver.
    + intros Hlq. destruct (Hopen Hlq) as [? Hdom]. split; [done|].
      intros w Hw. apply Hdom. set_solver.
  - intros q cq' r cr' Hq' Hr' Hlq Hlr Hne Hsu.
    destruct (Hback q cq' Hq') as (cq & Hq & Hl1 & Hv1 & _).
    destruct (Hback r cr' Hr') as (cr & Hr & Hl2 & Hv2 & _).
    rewrite Hv1, Hv2. apply (Hdist q cq r cr); congruence.
Qed.

Lemma parse_clue_wellformed g p v : wellformed g → wellformed (parse_clue g p v).
Proof.
  intros Hg. pose proof Hg as (_ & Hprop & _). unfold parse_clue.
  destruct (g !! p) as [cell|] eqn:Hp; [|done].
  case_decide as Hrange; [|done]. destruct (locked cell) eqn:Hl; [done|].
  case_decide as Hin; [|done]. apply lock_propagate_wellformed; [done|done|lia|done|].
  intros q cq Hq Hlq _ Hsu Heq. apply (Hprop q cq p cell Hq Hlq Hp Hl Hsu). by rewrite Heq.
Qed.

(** The cells that are locked in [acc] were locked in [g0], on the same
    value, or were not locked in [g0] and hold a digit of [used]. *)
Definition fresh_locks (g0 acc : Grid) (used : list Z) : Prop :=
  ∀ p cp, acc !! p = Some cp → locked cp = true →
    ∃ cp0, g0 !! p = Some cp0 ∧
           ((locked cp0 = true ∧ value cp = value cp0) ∨
            (locked cp0 = false ∧ value cp ∈ used)).

Section Wellformed.

Variable choice : gset nat → nat.

Lemma set_values_turn_wellformed s :
  wellformed s.1.1 → wellformed (set_values_turn choice s).1.1.
Proof.
  intros Hs. pose proof Hs as (_ & Hprop & Htidy & Hdist). unfold set_values_turn.
  destruct (set_pop choice s.1.2) as [[c cells]|]; [|done].
  destruct (cell_update_value s.1.1 c).2 eqn:Hb; cbn [fst snd];
    [|by rewrite (cell_update_value_false _ _ Hb)].
  destruct (cell_update_value_true _ _ Hb) as (cell & v & Hc & Hd & ->).
  destruct (Htidy c cell Hc) as [Hlocked Hopen].
  assert (v ∈ domain cell) as Hin by (rewrite Hd; set_solver).
  destruct (locked cell) eqn:Hl.
  - destruct (Hlocked eq_refl) as [Hv Hsub].
    assert (v = value cell) as -> by set_solver.
    apply lock_propagate_wellformed; [done..|].
    intros q cq Hq Hlq Hne Hsu. apply (Hdist q cq c cell); try done.
    by apply same_unit_sym.
  - destruct (Hopen eq_refl) as [_ Hdom].
    apply lock_propagate_wellformed; [done|done|by apply Hdom|done|].
    intros q cq Hq Hlq _ Hsu Heq. apply (Hprop q cq c cell Hq Hlq Hc Hl Hsu). by rewrite Heq.
Qed.

Lemma set_values_loop_wellformed fuel s :
  wellformed s.1.1 → wellformed (set_values_loop choice fuel s).1.1.
Proof.
  revert s. induction fuel as [|fuel IH]; intros s Hs; [done|].
  rewrite set_values_loop_S. by apply IH, set_values_turn_wellformed.
Qed.

Lemma set_values_wellformed g cells : wellformed g → wellformed (set_values choice g cells).1.
Proof. intros Hg. by apply (set_values_loop_wellformed _ (g, cells, false)). Qed.

Lemma force_unique_wellformed g0 related_cells acc used k :
  wellformed g0 → (1 ≤ k ≤ 9)%Z → k ∉ used →
  wellformed acc.1.1 → fresh_locks g0 acc.1.1 used →
  wellformed (force_unique acc (val_entry g0 related_cells k)).1.1 ∧
  fresh_locks g0 (force_unique acc (val_entry g0 related_cells k)).1.1 (k :: used).
Proof.
  intros Hg0 Hk Hused Hacc Hfresh.
  assert (fresh_locks g0 acc.1.1 (k :: used)) as Hfresh'.
  { intros p cp Hp Hl. destruct (Hfresh p cp Hp Hl) as (cp0 & Hp0 & [?|[? ?]]);
      exists cp0; (split; [done|]); [by left|right]. split; [done|by right]. }
  unfold force_unique, val_entry. cbn [fst snd].
  destruct (filter _ related_cells) as [|u [|]] eqn:Hf; try done.
  destruct (acc.1.1 !! u) as [cell|] eqn:Hu; [|done]. cbn [fst snd].
  assert (u ∈ filter (λ case, holds_candidate g0 k case) related_cells) as Hin
    by (rewrite Hf; left).
  apply list_elem_of_filter in Hin as [Hh _].
  apply Is_true_true, holds_candidate_true in Hh as (cu0 & Hu0 & Hlu0 & Hku0).
  pose proof Hg0 as (_ & Hprop0 & _). pose proof Hacc as (Hwn & _).
  set (newc := {| idnum := idnum cell; value := k; domain := {[k]}; locked := true |}).
  split.
  - apply lock_propagate_wellformed; [done..|].
    intros q cq Hq Hlq Hne Hsu Heq.
    destruct (Hfresh q cq Hq Hlq) as (cq0 & Hq0 & [[Hlq0 Hv]|[_ Hv]]).
    + apply (Hprop0 q cq0 u cu0 Hq0 Hlq0 Hu0 Hlu0 Hsu). congruence.
    + apply Hused. congruence.
  - intros p cp2 Hp2 Hlp.
    destruct (lock_propagate_back acc.1.1 u cell newc p cp2 Hwn Hu eq_refl eq_refl Hp2)
      as (cp & Hp & [[-> ->]|(Hpu & Hl & Hval & _)]).
    + exists cu0. split; [done|right]. split; [done|left].
    + rewrite Hval. apply (Hfresh' p cp Hp). congruence.
Qed.

Lemma force_unique_fold_wellformed g0 related_cells l acc used :
  wellformed g0 → NoDup l → Forall (λ k, (1 ≤ k ≤ 9)%Z ∧ k ∉ used) l →
  wellformed acc.1.1 → fresh_locks g0 acc.1.1 used →
  wellformed (foldl force_unique acc (val_entry g0 related_cells <$> l)).1.1.
Proof.
  intros Hg0 Hnd. revert acc used.
  induction Hnd as [|k l Hk Hnd IH]; intros acc used Hl Hacc Hfresh; [done|].
  apply Forall_cons in Hl as [[Hrange Hused] Hl]. csimpl.
  destruct (force_unique_wellformed g0 related_cells acc used k) as [Hw Hf]; [done..|].
  apply (IH _ (k :: used)); [|done..].
  rewrite Forall_forall in Hl |- *. intros k' Hk'. destruct (Hl k' Hk') as [? ?].
  split; [done|]. rewrite not_elem_of_cons. split; [|done]. by intros ->.
Qed.

Lemma find_unique_wellformed g related_cells :
  wellformed g → wellformed (find_unique choice g related_cells).1.
Proof.
  intros Hg. unfold find_unique. cbn [fst]. apply set_values_wellformed.
  rewrite dico_val_entries.
  apply (force_unique_fold_wellformed g related_cells digits (g, ∅, false) []); [done|..].
  - apply (bool_decide_unpack _). vm_compute. exact I.
  - apply Forall_forall. intros k Hk%digits_range. split; [done|apply not_elem_of_nil].
  - done.
  - intros p cp Hp Hl. exists cp. split; [done|by left].
Qed.

Lemma find_pairs_wellformed g related_cells :
  wellformed g → wellformed (find_pairs choice g related_cells).1.
Proof.
  intros Hg. unfold find_pairs. cbn [fst]. apply set_values_wellformed.
  assert (∀ key pair_list l acc, wellformed acc.1 →
            wellformed (foldl (reduce_others key pair_list) acc l).1) as Hothers.
  { intros key pair_list l. induction l as [|case l IH]; intros acc Hacc; [done|].
    cbn [foldl]. apply IH. unfold reduce_others. case_decide; [done|].
    destruct (acc.1 !! case) as [c|] eqn:Hc; [|done]. cbn [fst].
    by apply reduce_domain_wellformed. }
  generalize (dico_paires g related_cells). intros l.
  assert (∀ acc, wellformed acc.1 → wellformed (foldl (reduce_pair related_cells) acc l).1)
    as Hfold; [|by apply Hfold].
  induction l as [|kl l IH]; intros acc Hacc; [done|].
  cbn [foldl]. apply IH. unfold reduce_pair. case_decide; [|done]. by apply Hothers.
Qed.

Lemma solve_round_wellformed lvl g : wellformed g → wellformed (solve_round choice lvl g).1.
Proof.
  assert (∀ view acc, wellformed acc.1 → wellformed (sweep_unique choice view acc).1) as Hu.
  { intros view acc. unfold sweep_unique. generalize (seq 0 9). intros l. revert acc.
    induction l as [|i l IH]; intros acc Hacc; [done|].
    cbn [foldl]. apply IH. by apply find_unique_wellformed. }
  assert (∀ view acc, wellformed acc.1 → wellformed (sweep_unique_pairs choice view acc).1)
    as Hp.
  { intros view acc. unfold sweep_unique_pairs. generalize (seq 0 9). intros l. revert acc.
    induction l as [|i l IH]; intros acc Hacc; [done|].
    cbn [foldl]. apply IH. by apply find_pairs_wellformed, find_unique_wellformed. }
  intros Hg. unfold solve_round. repeat case_decide; [| |done].
  - by do 3 apply Hu.
  - by do 3 apply Hp.
Qed.

Lemma solve_loop_wellformed budget lvl g :
  wellformed g → wellformed (solve_loop choice budget lvl g).
Proof.
  revert g. induction budget as [|n IH]; intros g Hg; [done|]. rewrite solve_loop_S.
  destruct (any _); [apply IH|]; by apply solve_round_wellformed.
Qed.

(** X18.  On any puzzle, with or without a solution, the grid stays well
    formed.  [grid_parser] leaves a grid of 81 cells numbered by position
    in which a locked cell holds a digit of 1..9 and no other candidate,
    a cell that is not locked has value 0 and candidates in 1..9, the
    value of a locked cell is among the candidates of no open cell of its
    line, column and square, and no two locked cells of a line, a column
    or a square hold the same digit.  [set_values] on any worklist,
    [find_unique] and [find_pairs] on any list of cells and [solve] at any
    level keep all of this, whatever the pop order. *)
Theorem solver_keeps_grid_wellformed (s : seed) (lvl : Z) (g : Grid)
    (cells : gset nat) (related_cells : list nat) :
  (grid_parser s = Some g → wellformed g) ∧
  (wellformed g →
   wellformed (set_values choice g cells).1 ∧
   wellformed (find_unique choice g related_cells).1 ∧
   wellformed (find_pairs choice g related_cells).1 ∧
   wellformed (solve choice lvl g)).
Proof.
  split.
  - rewrite grid_parser_clues. intros ->%parse_pos_Some.
    apply loaded_wellformed;
      apply parse_clues_loaded; apply well_numbered_reset || apply loaded_reset.
  - intros Hg. split; [by apply set_values_wellformed|].
    split; [by apply find_unique_wellformed|]. split; [by apply find_pairs_wellformed|].
    by apply solve_loop_wellformed.
Qed.

End Wellformed.

(** * tools.py

    A Python [str] is a sequence of code points, here a list of numbers:
    46 is the dot and 48 to 57 are the digits "0" to "9". *)

(** [str(x)] for an integer [x]; its characters are below 128. *)
Definition str (x : Z) : string := NilZero.string_of_int (Z.to_int x).

(** The code points of a string of characters below 256 *)
Definition code_points (s : string) : list N := N_of_ascii <$> list_ascii_of_string s.

(** [s.replace(old, new)] for [old] and [new] of one character *)
Definition str_replace (old new : N) (s : list N) : list N :=
  (λ c, if decide (c = old) then new else c) <$> s.

(** The digit that [string_line] reads from a dot or from one of the
    characters "0" to "9" *)
Definition digit_of_char (c : N) : Z :=
  if decide (c = 46%N) then 0%Z else Z.of_N (c - 48).

Lemma str_digit x :
  (0 ≤ x ≤ 9)%Z → str x = String (ascii_of_nat (48 + Z.to_nat x)) "".
Proof.
  intros Hx.
  assert (x = 0 ∨ x = 1 ∨ x = 2 ∨ x = 3 ∨ x = 4 ∨ x = 5 ∨ x = 6 ∨ x = 7 ∨ x = 8 ∨ x = 9)%Z
    as Hcases by lia.
  repeat destruct Hcases as [->|Hcases]; try subst x; reflexivity.
Qed.

Lemma str_digit_code x : (0 ≤ x ≤ 9)%Z → code_points (str x) = [(48 + Z.to_N x)%N].
Proof.
  intros Hx.
  assert (x = 0 ∨ x = 1 ∨ x = 2 ∨ x = 3 ∨ x = 4 ∨ x = 5 ∨ x = 6 ∨ x = 7 ∨ x = 8 ∨ x = 9)%Z
    as Hcases by lia.
  repeat destruct Hcases as [->|Hcases]; try subst x; reflexivity.
Qed.

Section Tools.

(** [int(x)] for a string [x] of one character is Python's own: it reads
    the decimal digits of Unicode, "0" to "9" and those of the other
    scripts, a set that depends on the version of Unicode, and raises
    ValueError ([None]) on any other character.  The development takes it
    as a function [int_char] of the code point, of which it uses two
    facts: the result is one of 0..9, and the characters "0" to "9" are
    read as their digits. *)
Variable int_char : N → option Z.

Hypothesis int_char_range : ∀ x v, int_char x = Some v → (0 ≤ v ≤ 9)%Z.

Hypothesis int_char_ascii : ∀ d, (d < 10)%N → int_char (48 + d) = Some (Z.of_N d).

(** [tools.string_line] *)
Definition string_line (line : list N) : option (list Z) :=
  mapM int_char (str_replace 46 48 line).

(** [''.join([str(x) for x in lines]).replace('0', '.')], the string
    [puzzle] of the test at the end of tools.py. *)
Definition puzzle_of (lines : list Z) : list N :=
  str_replace 48 46 (mjoin ((λ x, code_points (str x)) <$> lines)).

Lemma string_line_chars line :
  string_line line = mapM (λ c, int_char (if decide (c = 46%N) then 48%N else c)) line.
Proof.
  unfold string_line, str_replace.
  induction line as [|c line IH]; [done|]. csimpl.
  destruct (int_char _); [|done]. csimpl. f_equal. exact IH.
Qed.

Lemma int_char_dot : int_char 48 = Some 0%Z.
Proof. apply (int_char_ascii 0). lia. Qed.

Lemma int_char_digit c :
  c = 46%N ∨ (48 ≤ c ≤ 57)%N →
  int_char (if decide (c = 46%N) then 48%N else c) = Some (digit_of_char c).
Proof.
  intros Hc. unfold digit_of_char. case_decide as Hdot; [apply int_char_dot|].
  destruct Hc as [?|Hc]; [done|].
  replace c with (48 + (c - 48))%N at 1 by lia. apply int_char_ascii. lia.
Qed.

(** X15.  [string_line] raises (ValueError) exactly when the line has a
    character that is not a dot and that [int] does not read as a decimal
    digit; a decimal digit of any script is read, as the characters "0"
    to "9" are.  Otherwise it returns one integer per character, whatever
    the length of the line (the 81 characters of its docstring are not
    checked): 0 for a dot and, for any other character, the digit of 0..9
    that [int] reads.  A line of dots and characters "0" to "9" is always
    read, each character as its digit.  It reads back what the test of
    tools.py writes: for integers of 0..9, the string of their digits
    with dots for the zeros gives the integers again. *)
Theorem string_line_reads_digits (line : list N) (lines : list Z) :
  (string_line line = None ↔ ∃ c, c ∈ line ∧ c ≠ 46%N ∧ int_char c = None) ∧
  (∀ l, string_line line = Some l →
        length l = length line ∧ Forall (λ v, (0 ≤ v ≤ 9)%Z) l ∧
        ∀ i c, line !! i = Some c →
               (c = 46%N → l !! i = Some 0%Z) ∧ (c ≠ 46%N → l !! i = int_char c)) ∧
  ((∀ c, c ∈ line → c = 46%N ∨ (48 ≤ c ≤ 57)%N) →
   string_line line = Some (digit_of_char <$> line)) ∧
  (Forall (λ v, (0 ≤ v ≤ 9)%Z) lines → string_line (puzzle_of lines) = Some lines).
Proof.
  split; [|split; [|split]].
  - rewrite string_line_chars, eq_None_not_Some, mapM_is_Some, <- Exists_Forall_neg.
    2:{ intros c. cbn [compose].
        destruct (int_char (if decide (c = 46%N) then 48%N else c));
          [left; eauto|right; by intros [? ?]]. }
    rewrite Exists_exists. split.
    + intros (c & Hc & Hn). exists c. split; [done|]. cbn [compose] in Hn.
      case_decide as Hdot; [destruct Hn; rewrite int_char_dot; eauto|].
      split; [done|]. by apply eq_None_not_Some.
    + intros (c & Hc & Hdot & Hnone). exists c. split; [done|]. cbn [compose].
      rewrite decide_False, Hnone by done. by intros [? ?].
  - intros l. rewrite string_line_chars. intros Hl%mapM_Some.
    split; [symmetry; by eapply Forall2_length|]. split.
    + induction Hl as [|c v cs l Hc _ IH]; [done|].
      apply Forall_cons. split; [by eapply int_char_range|done].
    + intros i c Hi. destruct (Forall2_lookup_l _ _ _ _ _ Hl Hi) as (v & -> & Hv).
      split.
      * intros ->. rewrite decide_True, int_char_dot in Hv by done. done.
      * intros Hdot. by rewrite decide_False in Hv by done.
  - intros Hline. rewrite string_line_chars. apply mapM_Some, Forall2_fmap_r, Forall_Forall2_diag.
    apply Forall_forall. intros c Hc. by apply int_char_digit, Hline.
  - intros Hall. rewrite string_line_chars. unfold puzzle_of, str_replace.
    assert (mjoin ((λ x, code_points (str x)) <$> lines)
            = (λ x, (48 + Z.to_N x)%N) <$> lines) as ->.
    { induction Hall as [|x lines Hx _ IH]; [done|].
      csimpl. by rewrite (str_digit_code x Hx), IH. }
    rewrite <- list_fmap_compose. apply mapM_fmap_Forall_Some.
    eapply Forall_impl; [exact Hall|]. intros x Hx. cbn beta in Hx. cbn [compose].
    destruct (decide (x = 0%Z)) as [->|Hx0].
    + exact int_char_dot.
    + destruct (decide ((48 + Z.to_N x)%N = 48%N)) as [?|_]; [lia|].
      rewrite decide_False by lia.
      rewrite (int_char_ascii (Z.to_N x)) by lia. f_equal. lia.
Qed.

End Tools.

(** The code points of the zeros of the decimal digits of Unicode 14 (the
    one of Python 3.11): each script has its ten digits in a row, from
    the zero on. *)
Definition decimal_zeros : list N :=
  [48; 1632; 1776; 1984; 2406; 2534; 2662; 2790; 2918; 3046; 3174; 3302; 3430; 3558;
   3664; 3792; 3872; 4160; 4240; 6112; 6160; 6470; 6608; 6784; 6800; 6992; 7088; 7232;
   7248; 42528; 43216; 43264; 43472; 43504; 43600; 44016; 65296; 66720; 68912; 69734;
   69872; 69942; 70096; 70384; 70736; 70864; 71248; 71360; 71472; 71904; 72016; 72784;
   73040; 73120; 92768; 92864; 93008; 120782; 120792; 120802; 120812; 120822; 123200;
   123632; 125264; 130032]%N.

(** [int(x)] for a string [x] of one character, with the decimal digits
    of Unicode 14. *)
Definition unicode_int (x : N) : option Z :=
  (λ zero, Z.of_N (x - zero)) <$>
    find (λ zero, bool_decide (zero ≤ x < zero + 10)%N) decimal_zeros.

Lemma unicode_int_range x v : unicode_int x = Some v → (0 ≤ v ≤ 9)%Z.
Proof.
  unfold unicode_int. destruct (find _ _) as [zero|] eqn:Hfind; [|done].
  apply find_some in Hfind as [_ Hin%bool_decide_eq_true].
  intros [= <-]. lia.
Qed.

Lemma unicode_int_ascii d : (d < 10)%N → unicode_int (48 + d) = Some (Z.of_N d).
Proof.
  intros Hd. unfold unicode_int, decimal_zeros. cbn [find].
  rewrite bool_decide_eq_true_2 by lia. csimpl. f_equal. lia.
Qed.

(** The string of the test of [sudoku.py] on 81 integers is read as
    [test_puzzle]. *)
Example string_line_test_puzzle :
  string_line unicode_int
    (code_points
       "4.3.7.....862...1.2....1......4.7..3.6.....2.3..8.6......6....9.3...587.....1.4.5")
  = Some test_puzzle.
Proof. vm_compute. reflexivity. Qed.

(** A line with the Arabic-Indic digit three (code point 1635), a dot, the
    fullwidth digit one (65297) and "7" is read as 3, 0, 1, 7; a line
    with a space (32) is not read. *)
Lemma string_line_reads_digits_witness :
  string_line unicode_int [1635; 46; 65297; 55]%N = Some [3; 0; 1; 7]%Z ∧
  string_line unicode_int [52; 32; 51]%N = None ∧
  (string_line unicode_int [1635; 46; 65297; 55]%N = None ↔
   ∃ c, c ∈ [1635; 46; 65297; 55]%N ∧ c ≠ 46%N ∧ unicode_int c = None) ∧
  (∀ l, string_line unicode_int [1635; 46; 65297; 55]%N = Some l →
        length l = length [1635; 46; 65297; 55]%N ∧ Forall (λ v, (0 ≤ v ≤ 9)%Z) l ∧
        ∀ i c, [1635; 46; 65297; 55]%N !! i = Some c →
               (c = 46%N → l !! i = Some 0%Z) ∧ (c ≠ 46%N → l !! i = unicode_int c)) ∧
  ((∀ c, c ∈ [1635; 46; 65297; 55]%N → c = 46%N ∨ (48 ≤ c ≤ 57)%N) →
   string_line unicode_int [1635; 46; 65297; 55]%N
   = Some (digit_of_char <$> [1635; 46; 65297; 55]%N)) ∧
  (Forall (λ v, (0 ≤ v ≤ 9)%Z) [4; 0; 3]%Z →
   string_line unicode_int (puzzle_of [4; 0; 3]%Z) = Some [4; 0; 3]%Z).
Proof.
  split; [vm_compute; reflexivity|]. split; [vm_compute; reflexivity|].
  apply (string_line_reads_digits unicode_int unicode_int_range unicode_int_ascii
           [1635; 46; 65297; 55]%N [4; 0; 3]%Z).
Defined.

(** * Printing

    [Cell.__str__] and [Sudoku.__str__].  The newline is the character
    of code 10. *)

(** [Cell.__str__] *)
Definition Cell_str (cell : Cell) : string :=
  if decide (0 < value cell)%Z then str (value cell) else ".".

(** [result[:-1]] *)
Definition but_last (result : string) : string :=
  substring 0 (String.length result - 1) result.

(** The body of the loop on [j] of [Sudoku.__str__], for the text [show]
    of a cell; [None] is IndexError. *)
Definition str_cell (show : Cell → string) (g : Grid) (i : nat)
    (acc : option string) (j : nat) : option string :=
  result ← acc;
  cell ← g !! (i * 9 + j);
  let result := result +:+ show cell in
  Some (if ((j + 1) mod 3 =? 0) && (j <? 8) then result +:+ "| " else result).

(** The body of the loop on [i] *)
Definition str_row (show : Cell → string) (g : Grid)
    (acc : option string) (i : nat) : option string :=
  result ← foldl (str_cell show g i) acc (seq 0 9);
  let result := but_last result +:+ String "010" "" in
  Some (if ((i + 1) mod 3 =? 0) && (i <? 8)
        then result +:+ String.concat "" (replicate 11 "- ") +:+ String "010" ""
        else result).

Definition grid_text (show : Cell → string) (g : Grid) : option string :=
  foldl (str_row show g) (Some ""%string) (seq 0 9).

(** [Sudoku.__str__] *)
Definition Sudoku_str (g : Grid) : option string :=
  grid_text (λ cell, if locked cell then str (value cell) +:+ " " else ". ") g.

Lemma length_append (s t : string) :
  String.length (s +:+ t) = String.length s + String.length t.
Proof. induction s as [|c s IH]; [done|]. simpl. by rewrite IH. Qed.

Lemma but_last_length (s : string) : String.length (but_last s) = String.length s - 1.
Proof.
  unfold but_last.
  assert (∀ n t, n ≤ String.length t → String.length (substring 0 n t) = n) as Hsub.
  { intros n t. revert n. induction t as [|c t IH]; intros [|n] Hn; cbn in *; try done.
    - lia.
    - rewrite IH; [done|lia]. }
  apply Hsub. lia.
Qed.

Lemma str_cell_Some show g i r j cell :
  g !! (i * 9 + j) = Some cell →
  str_cell show g i (Some r) j
  = Some (if ((j + 1) mod 3 =? 0) && (j <? 8) then (r +:+ show cell) +:+ "| "
          else r +:+ show cell).
Proof. intros Hc. unfold str_cell. csimpl. by rewrite Hc. Qed.

Lemma str_cell_None show g i l : foldl (str_cell show g i) None l = None.
Proof. by induction l. Qed.

Lemma str_row_None show g l : foldl (str_row show g) None l = None.
Proof.
  induction l as [|i l IH]; [done|]. cbn [foldl]. unfold str_row at 2.
  by rewrite str_cell_None.
Qed.

(** A line of the grid is 21 characters and a newline, and 23 more for
    the rule under the third and the sixth line. *)
Lemma str_row_Some show g i r :
  i * 9 + 8 < length g →
  ∃ r', str_row show g (Some r) i = Some r' ∧
        ((∀ cell, cell ∈ g → String.length (show cell) = 2) →
         String.length r'
         = String.length r + 22 + (if ((i + 1) mod 3 =? 0) && (i <? 8) then 23 else 0)).
Proof.
  intros Hi. unfold str_row. cbn [seq foldl].
  set (ruled := ((i + 1) mod 3 =? 0) && (i <? 8)).
  assert (∀ j, j < 9 → ∃ cell, g !! (i * 9 + j) = Some cell ∧ cell ∈ g) as Hcell.
  { intros j Hj. destruct (lookup_lt_is_Some_2 g (i * 9 + j)) as [cell Hc]; [lia|].
    exists cell. split; [done|by eapply list_elem_of_lookup_2]. }
  destruct (Hcell 0) as (c0 & E0 & I0); [lia|]. destruct (Hcell 1) as (c1 & E1 & I1); [lia|].
  destruct (Hcell 2) as (c2 & E2 & I2); [lia|]. destruct (Hcell 3) as (c3 & E3 & I3); [lia|].
  destruct (Hcell 4) as (c4 & E4 & I4); [lia|]. destruct (Hcell 5) as (c5 & E5 & I5); [lia|].
  destruct (Hcell 6) as (c6 & E6 & I6); [lia|]. destruct (Hcell 7) as (c7 & E7 & I7); [lia|].
  destruct (Hcell 8) as (c8 & E8 & I8); [lia|].
  rewrite (str_cell_Some _ _ _ _ 0 c0 E0), (str_cell_Some _ _ _ _ 1 c1 E1),
    (str_cell_Some _ _ _ _ 2 c2 E2), (str_cell_Some _ _ _ _ 3 c3 E3),
    (str_cell_Some _ _ _ _ 4 c4 E4), (str_cell_Some _ _ _ _ 5 c5 E5),
    (str_cell_Some _ _ _ _ 6 c6 E6), (str_cell_Some _ _ _ _ 7 c7 E7),
    (str_cell_Some _ _ _ _ 8 c8 E8).
  cbn [Nat.add Nat.modulo Nat.divmod Nat.eqb Nat.ltb Nat.leb andb fst snd Nat.sub].
  csimpl. eexists. split; [done|]. intros Hshow.
  destruct ruled;
    rewrite ?length_append, but_last_length, ?length_append,
      (Hshow c0 I0), (Hshow c1 I1), (Hshow c2 I2), (Hshow c3 I3), (Hshow c4 I4),
      (Hshow c5 I5), (Hshow c6 I6), (Hshow c7 I7), (Hshow c8 I8);
    cbn [String.length String.concat replicate String.append]; lia.
Qed.

Lemma grid_text_Some show g :
  length g = 81 →
  ∃ s, grid_text show g = Some s ∧
       ((∀ cell, cell ∈ g → String.length (show cell) = 2) → String.length s = 244).
Proof.
  intros Hlen. unfold grid_text. cbn [seq foldl].
  destruct (str_row_Some show g 0 "") as (r0 & -> & H0); [lia|].
  destruct (str_row_Some show g 1 r0) as (r1 & -> & H1); [lia|].
  destruct (str_row_Some show g 2 r1) as (r2 & -> & H2); [lia|].
  destruct (str_row_Some show g 3 r2) as (r3 & -> & H3); [lia|].
  destruct (str_row_Some show g 4 r3) as (r4 & -> & H4); [lia|].
  destruct (str_row_Some show g 5 r4) as (r5 & -> & H5); [lia|].
  destruct (str_row_Some show g 6 r5) as (r6 & -> & H6); [lia|].
  destruct (str_row_Some show g 7 r6) as (r7 & -> & H7); [lia|].
  destruct (str_row_Some show g 8 r7) as (r8 & -> & H8); [lia|].
  exists r8. split; [done|]. intros Hshow.
  rewrite (H8 Hshow), (H7 Hshow), (H6 Hshow), (H5 Hshow), (H4 Hshow), (H3 Hshow),
    (H2 Hshow), (H1 Hshow), (H0 Hshow). reflexivity.
Qed.

Lemma seq_9_split k : k < 9 → seq 0 9 = seq 0 k ++ k :: seq (S k) (8 - k).
Proof.
  intros Hk. do 9 (destruct k as [|k]; [reflexivity|]). lia.
Qed.

(** A missing cell makes the whole text fail. *)
Lemma grid_text_None show g : length g < 81 → grid_text show g = None.
Proof.
  intros Hlen. unfold grid_text.
  assert (length g / 9 < 9) as Hi by (apply Nat.Div0.div_lt_upper_bound; lia).
  assert (length g mod 9 < 9) as Hj by (apply Nat.mod_upper_bound; lia).
  assert (g !! (length g / 9 * 9 + length g mod 9) = None) as Hnone.
  { apply lookup_ge_None_2. pose proof (Nat.div_mod_eq (length g) 9). lia. }
  revert Hi Hj Hnone. generalize (length g / 9) (length g mod 9). intros i j Hi Hj Hnone.
  rewrite (seq_9_split _ Hi), foldl_app. cbn [foldl].
  destruct (foldl (str_row show g) (Some ""%string) (seq 0 i)) as [r|];
    [|by rewrite str_row_None].
  replace (str_row show g (Some r) i) with (@None string); [by rewrite str_row_None|].
  unfold str_row. rewrite (seq_9_split _ Hj), foldl_app. cbn [foldl].
  replace (str_cell show g i _ j) with (@None string); [by rewrite str_cell_None|].
  unfold str_cell. destruct (foldl _ _ _) as [r'|]; [|done].
  cbn [mbind option_bind]. by rewrite Hnone.
Qed.

Lemma grid_text_ext show show' g :
  (∀ cell, cell ∈ g → show cell = show' cell) → grid_text show g = grid_text show' g.
Proof.
  intros Hshow. unfold grid_text.
  assert (∀ i acc j, str_cell show g i acc j = str_cell show' g i acc j) as Hcell.
  { intros i [r|] j; [|done]. unfold str_cell. csimpl.
    destruct (g !! (i * 9 + j)) as [cell|] eqn:Hc; [|done]. csimpl.
    by rewrite (Hshow cell) by (by eapply list_elem_of_lookup_2). }
  assert (∀ i acc l, foldl (str_cell show g i) acc l = foldl (str_cell show' g i) acc l)
    as Hcells.
  { intros i acc l. revert acc. induction l as [|j l IH]; intros acc; [done|].
    cbn [foldl]. by rewrite Hcell, IH. }
  generalize (Some ""%string). generalize (seq 0 9). intros l.
  induction l as [|i l IH]; intros acc; [done|].
  cbn [foldl]. rewrite <- IH. unfold str_row at 2 4. by rewrite Hcells.
Qed.

(** X19.  Printing.  [Sudoku.__str__] raises (IndexError) exactly on a
    grid of fewer than 81 cells, which the program never builds.  On a
    well-formed grid, where [grid_parser] and [solve] stay, it returns a
    text of 244 characters, and the two ways of showing a cell agree:
    [Cell.__str__], which tests the value, is one character, the digit of
    the cell when it is locked and a dot when it is not, and
    [Sudoku.__str__], which tests the lock, shows every cell as that
    character and a space. *)
Theorem printing_shows_the_locked_cells (g : Grid) :
  (Sudoku_str g = None ↔ length g < 81) ∧
  (wellformed g →
   (∀ cell, cell ∈ g →
      Cell_str cell = (if locked cell then str (value cell) else "."%string) ∧
      String.length (Cell_str cell) = 1) ∧
   Sudoku_str g = grid_text (λ cell, Cell_str cell +:+ " ") g ∧
   ∃ s, Sudoku_str g = Some s ∧ String.length s = 244).
Proof.
  split.
  - split; [|apply grid_text_None].
    intros Hnone. destruct (decide (length g < 81)) as [|Hlen]; [done|].
    assert (∀ show, is_Some (grid_text show (take 81 g))) as Htake.
    { intros show. destruct (grid_text_Some show (take 81 g)) as (s & -> & _); [|done].
      rewrite length_take. lia. }
    assert (∀ show, grid_text show g = grid_text show (take 81 g)) as Hsame.
    { intros show. unfold grid_text.
      assert (∀ i acc j, i < 9 → j < 9 →
                str_cell show g i acc j = str_cell show (take 81 g) i acc j) as Hcell.
      { intros i acc j Hi Hj. unfold str_cell. by rewrite lookup_take_lt by lia. }
      assert (∀ i acc, i < 9 → str_row show g acc i = str_row show (take 81 g) acc i)
        as Hrow.
      { intros i acc Hi. unfold str_row. cbn [seq foldl].
        by rewrite !(Hcell i) by lia. }
      cbn [seq foldl]. by rewrite !Hrow by lia. }
    unfold Sudoku_str in Hnone. rewrite Hsame in Hnone.
    destruct (Htake (λ cell, if locked cell then str (value cell) +:+ " " else ". "))
      as [s Hs]. congruence.
  - intros (Hwn & _ & Htidy & _).
    assert (∀ cell, cell ∈ g →
              Cell_str cell = (if locked cell then str (value cell) else "."%string) ∧
              String.length (Cell_str cell) = 1) as Hcell.
    { intros cell [p Hp]%list_elem_of_lookup_1. destruct (Htidy p cell Hp) as [Hlocked Hopen].
      unfold Cell_str. destruct (locked cell).
      - destruct (Hlocked eq_refl) as [Hv _]. rewrite decide_True by lia.
        split; [done|]. rewrite str_digit by lia. done.
      - destruct (Hopen eq_refl) as [-> _]. by rewrite decide_False by lia. }
    split; [done|].
    assert (Sudoku_str g = grid_text (λ cell, Cell_str cell +:+ " ") g) as Hsame.
    { apply grid_text_ext. intros cell Hin. destruct (Hcell cell Hin) as [-> _].
      by destruct (locked cell). }
    split; [done|]. rewrite Hsame.
    destruct (grid_text_Some (λ cell, Cell_str cell +:+ " ") g) as (s & Hs & Hlen);
      [by apply well_numbered_length|].
    exists s. split; [done|]. apply Hlen. intros cell Hin.
    rewrite length_append. destruct (Hcell cell Hin) as [_ ->]. done.
Qed.
